(** * spotify-dl: a shallow embedding of [index.ts]

    The definitions follow the source file top to bottom:

    - module [Js]: the few JavaScript notions the program relies on
      (truthiness of a possibly absent string, [Array.prototype.join],
      [String.prototype.split], [String.prototype.includes], thrown errors);
    - section [Resolver]: [getSpotifyAccessToken], [getTracks],
      [getSpotifyResource];
    - section [UrlParser]: [parseSpotifyUrl];
    - section [Fetcher]: [downloadTrack] over a file system;
    - sections [Driver] and [Handler]: the yargs command handler, i.e. the
      queue of per-track jobs with their retry loop, the shared
      [downloadStatus] and the progress bar;
    - section [Call]: the jobs together with their calls of [downloadTrack],
      followed from [await] to [await] on the disk they share.

    The properties come after the definitions, in the same order; further
    properties of the resolver, the fetcher, the runs and the handler
    close the file.

    Network peers, the file system and the npm packages the program calls
    (axios, fs-extra, node-id3, sanitize-filename, cli-progress, p-queue) are
    not part of the program; they appear as oracles or as small documented
    models of the one behaviour the program observes. *)

From stdpp Require Import gmap strings list pretty.
From Stdlib Require Ascii.
Import (notations) Stdlib.Strings.Ascii.

Set Default Proof Using "Type".
Set Warnings "-clear-no-such-hyp".

(* ===================================================================== *)
(** ** JavaScript preliminaries *)
(* ===================================================================== *)

Module Js.

(** A value of static type [string | null] that may also be [undefined]
    at run time (a missing JSON field). *)
Inductive JsStr :=
| JUndefined
| JNull
| JStr (s : string).

Global Instance JsStr_eq_dec : EqDecision JsStr.
Proof. solve_decision. Defined.

(** [if (v)], [while (v)], [v ? a : b]: [undefined], [null] and the empty
    string are falsy, every other string is truthy. *)
Definition truthy (v : JsStr) : bool :=
  match v with
  | JStr s => negb (bool_decide (s = ""))
  | _ => false
  end.

(** Template-literal interpolation [`${v}`]. *)
Definition toString (v : JsStr) : string :=
  match v with
  | JUndefined => "undefined"
  | JNull => "null"
  | JStr s => s
  end.

(** Thrown values. The program only ever reads [.message]. *)
Inductive Error :=
| Err (message : string)
| TypeError (message : string).

Global Instance Error_eq_dec : EqDecision Error.
Proof. solve_decision. Defined.

Definition message (e : Error) : string :=
  match e with Err m | TypeError m => m end.

(** Completion of a call that may throw. *)
Inductive result (A : Type) :=
| Ok (a : A)
| Throw (e : Error).
Global Arguments Ok {A} a.
Global Arguments Throw {A} e.

(** Sequencing: a throw skips the rest ([x ← r; k] below). *)
Global Instance result_bind : MBind result := λ A B k r,
  match r with
  | Ok a => k a
  | Throw e => Throw e
  end.

(** [Array.prototype.join] as ECMAScript specifies it: the accumulator [R]
    starts empty; for each index [k], the separator is appended when
    [k > 0], then the element. *)
Fixpoint join_from (sep R : string) (k : nat) (l : list string) : string :=
  match l with
  | [] => R
  | x :: l' =>
      let R := match k with 0 => R | S _ => R +:+ sep end in
      join_from sep (R +:+ x) (S k) l'
  end.

Definition join (sep : string) (l : list string) : string :=
  join_from sep "" 0 l.

(** [s.includes(needle)]: [needle] occurs at some position of [s]. *)
Fixpoint includes (needle s : string) : bool :=
  String.prefix needle s ||
  match s with
  | EmptyString => false
  | String _ s' => includes needle s'
  end.

(** [s.split(c)] for a one-character separator: the pieces between the
    occurrences of [c]; a string without [c] (also the empty string) gives
    one piece. *)
Fixpoint split (c : Ascii.ascii) (s : string) : list string :=
  match s with
  | EmptyString => [EmptyString]
  | String a s' =>
      if Ascii.eqb a c then EmptyString :: split c s'
      else match split c s' with
           | p :: ps => String a p :: ps
           | [] => [String a EmptyString]
           end
  end.

(** [s] contains the character [c]. *)
Fixpoint hasChar (c : Ascii.ascii) (s : string) : bool :=
  match s with
  | EmptyString => false
  | String a s' => Ascii.eqb a c || hasChar c s'
  end.

End Js.
Import Js.

(* ===================================================================== *)
(** ** Tracks and resources *)
(* ===================================================================== *)

(** [type SpotifyTrack]. *)
Record SpotifyTrack := {
  id : string;
  name : string;
  artist : string;
}.

Global Instance SpotifyTrack_eq_dec : EqDecision SpotifyTrack.
Proof. solve_decision. Defined.

(** [SpotifyResource["type"]]. *)
Inductive ResourceType := album | playlist.

Global Instance ResourceType_eq_dec : EqDecision ResourceType.
Proof. solve_decision. Defined.

Definition typeName (t : ResourceType) : string :=
  match t with album => "album" | playlist => "playlist" end.

(** [type SpotifyResource]: the fields common to both variants, then the
    variant's own two fields. *)
Inductive SpotifyResource :=
| Album (rid : string) (tracks : list SpotifyTrack) (title artist : string)
| Playlist (rid : string) (tracks : list SpotifyTrack) (name owner : string).

Definition resource_type (r : SpotifyResource) : ResourceType :=
  match r with Album _ _ _ _ => album | Playlist _ _ _ _ => playlist end.

Definition resource_id (r : SpotifyResource) : string :=
  match r with Album i _ _ _ | Playlist i _ _ _ => i end.

Definition resource_tracks (r : SpotifyResource) : list SpotifyTrack :=
  match r with Album _ ts _ _ | Playlist _ ts _ _ => ts end.

(** Raw JSON of the metadata API, as far as the program reads it. A field the
    program dereferences is optional here when its absence makes the access
    throw a [TypeError]. *)
Record RawArtist := { artist_name : string }.

(** The object nested under [track] in a playlist entry. *)
Record RawTrack := {
  track_id : string;
  track_name : string;
  track_artists : option (list RawArtist);
}.

(** One element of [items]: the destructured [{ id, name, artists, track }]. *)
Record RawItem := {
  item_id : JsStr;
  item_name : string;
  item_artists : option (list RawArtist);
  item_track : option RawTrack;
}.

(** [artists.map((artist) => artist.name).join(", ")]; calling [.map] on
    [undefined] throws. *)
Definition getArtistFromArtists (artists : option (list RawArtist)) : result string :=
  match artists with
  | Some l => Ok (join ", " (artist_name <$> l))
  | None => Throw (TypeError "Cannot read properties of undefined (reading 'map')")
  end.

(** The callback of [items.map] in [getTracks]. *)
Definition getTrack (item : RawItem) : result SpotifyTrack :=
  if truthy (item_id item) then
    (a ← getArtistFromArtists (item_artists item) ;
     Ok {| id := toString (item_id item); name := item_name item; artist := a |})
  else
    match item_track item with
    | None => Throw (TypeError "Cannot read properties of undefined (reading 'id')")
    | Some track =>
        (a ← getArtistFromArtists (track_artists track) ;
         Ok {| id := track_id track; name := track_name track; artist := a |})
    end.

(** [items.map(...)]: elements are visited in order; the first callback that
    throws aborts the whole map. *)
Fixpoint getTracks (items : list RawItem) : result (list SpotifyTrack) :=
  match items with
  | [] => Ok []
  | item :: items' =>
      (t ← getTrack item ;
       ts ← getTracks items' ;
       Ok (t :: ts))
  end.

(** [getTrackName]. *)
Definition getTrackName (track : SpotifyTrack) : string :=
  name track +:+ " - " +:+ artist track.

(* ===================================================================== *)
(** ** Resource Resolver *)
(* ===================================================================== *)

(** Outcome of [await axios.get(...)]: the promise rejects (network failure
    or a non-2xx status), or it resolves and the program reads
    [response.data]. *)
Inductive AxiosResult (A : Type) :=
| AxiosReject (message : string)
| AxiosResolve (data : A).
Global Arguments AxiosReject {A} message.
Global Arguments AxiosResolve {A} data.

(** A page of a track listing: [{ items, next }]. *)
Record PageBody := {
  page_items : option (list RawItem);
  page_next : JsStr;
}.

(** The album or playlist object: [{ id, name, artists, owner, tracks }]. *)
Record ResourceBody := {
  data_id : string;
  data_name : string;
  data_artists : option (list RawArtist);
  data_owner : option string;          (* [data.owner.display_name] *)
  data_tracks : option PageBody;
}.

(** The remote peers. The token endpoint is asked without arguments, so its
    replies are indexed by the number of requests sent before; the metadata
    API is keyed by the URL and the [Authorization] header. For the token
    endpoint, [AxiosResolve None] is a reply whose [data] is [null], and
    [AxiosResolve (Some v)] a reply whose [data.accessToken] is [v]. *)
Record Network := {
  tokenEndpoint : nat → AxiosResult (option JsStr);
  metadataApi : string → string → AxiosResult ResourceBody;
  metadataPage : string → string → AxiosResult PageBody;
}.

(** The module-level state of the process: the [accessToken] variable,
    what was printed with [console.error] / [console.log], and how many
    requests went to the token endpoint. *)
Record Process := {
  accessToken : JsStr;
  tokenRequests : nat;
  console : list string;
}.

(** The state at program start: [let accessToken: string | null = null]. *)
Definition startProcess : Process :=
  {| accessToken := JNull; tokenRequests := 0; console := [] |}.

Definition consoleWrite (line : string) (p : Process) : Process :=
  {| accessToken := accessToken p;
     tokenRequests := tokenRequests p;
     console := console p ++ [line] |}.

Section Resolver.
Variable net : Network.

(** [getSpotifyAccessToken]. *)
Definition getSpotifyAccessToken (p : Process) : result JsStr * Process :=
  if truthy (accessToken p) then (Ok (accessToken p), p)
  else
    let sent := {| accessToken := accessToken p;
                   tokenRequests := S (tokenRequests p);
                   console := console p |} in
    match tokenEndpoint net (tokenRequests p) with
    | AxiosResolve (Some tok) =>
        (Ok tok, {| accessToken := tok;
                    tokenRequests := tokenRequests sent;
                    console := console sent |})
    | AxiosResolve None | AxiosReject _ =>
        (Throw (Err "Failed to get access token"),
         consoleWrite "Error fetching Spotify access token:" sent)
    end.

(** [getTracks(x.items)] where [items] may be missing. *)
Definition getTracksOf (items : option (list RawItem)) : result (list SpotifyTrack) :=
  match items with
  | Some l => getTracks l
  | None => Throw (TypeError "Cannot read properties of undefined (reading 'map')")
  end.

Definition authorization (token : JsStr) : string := "Bearer " +:+ toString token.

(** The [while (next)] loop of [getSpotifyResource]. The server decides
    how long the chain of pages is, so the loop is run on [fuel]; [None]
    means the fuel ran out before the chain ended. *)
Fixpoint followNext (fuel : nat) (auth : string) (next : JsStr)
    (tracks : list SpotifyTrack) : option (result (list SpotifyTrack)) :=
  if truthy next then
    match fuel with
    | 0 => None
    | S fuel' =>
        match metadataPage net (toString next) auth with
        | AxiosReject m => Some (Throw (Err m))
        | AxiosResolve data =>
            match getTracksOf (page_items data) with
            | Throw e => Some (Throw e)
            | Ok more => followNext fuel' auth (page_next data) (tracks ++ more)
            end
        end
    end
  else Some (Ok tracks).

(** The statements from [const tracks = getTracks(data.tracks.items)] to
    the end of the loop. *)
Definition collectTracks (fuel : nat) (auth : string) (data : ResourceBody)
    : option (result (list SpotifyTrack)) :=
  match data_tracks data with
  | None => Some (Throw (TypeError "Cannot read properties of undefined (reading 'items')"))
  | Some first =>
      match getTracksOf (page_items first) with
      | Throw e => Some (Throw e)
      | Ok tracks => followNext fuel auth (page_next first) tracks
      end
  end.

(** The two [return] statements. *)
Definition makeResource (type : ResourceType) (data : ResourceBody)
    (tracks : list SpotifyTrack) : result SpotifyResource :=
  match type with
  | album =>
      a ← getArtistFromArtists (data_artists data);
      Ok (Album (data_id data) tracks (data_name data) a)
  | playlist =>
      match data_owner data with
      | Some o => Ok (Playlist (data_id data) tracks (data_name data) o)
      | None => Throw (TypeError "Cannot read properties of undefined (reading 'display_name')")
      end
  end.

Definition resourceUrl (type : ResourceType) (rid : string) : string :=
  "https://api.spotify.com/v1/" +:+ typeName type +:+ "s/" +:+ rid.

(** The [try] block of [getSpotifyResource]. *)
Definition getSpotifyResource_try (fuel : nat) (type : ResourceType) (rid : string)
    (p : Process) : option (result SpotifyResource) * Process :=
  match getSpotifyAccessToken p with
  | (Throw e, p') => (Some (Throw e), p')
  | (Ok token, p') =>
      match metadataApi net (resourceUrl type rid) (authorization token) with
      | AxiosReject m => (Some (Throw (Err m)), p')
      | AxiosResolve data =>
          match collectTracks fuel (authorization token) data with
          | None => (None, p')
          | Some (Throw e) => (Some (Throw e), p')
          | Some (Ok tracks) => (Some (makeResource type data tracks), p')
          end
      end
  end.

(** [getSpotifyResource]: whatever the [try] block throws is logged and
    replaced by [Failed to fetch <type> info]. *)
Definition getSpotifyResource (fuel : nat) (type : ResourceType) (rid : string)
    (p : Process) : option (result SpotifyResource) * Process :=
  match getSpotifyResource_try fuel type rid p with
  | (Some (Throw _), p') =>
      (Some (Throw (Err ("Failed to fetch " +:+ typeName type +:+ " info"))),
       consoleWrite ("Error fetching Spotify " +:+ typeName type +:+ " info:") p')
  | r => r
  end.

End Resolver.

(** A token endpoint whose reply carries no [accessToken]. *)
Definition tokenlessNet : Network :=
  {| tokenEndpoint := λ _, AxiosResolve (Some JUndefined);
     metadataApi := λ _ _, AxiosReject "401";
     metadataPage := λ _ _, AxiosReject "401" |}.

(** *** What the resolver is expected to produce

    An item is flat when it carries a non-empty [id] and its own [artists],
    wrapped when it has no [id] and nests a [track] with [artists]. *)
Definition wellShaped (item : RawItem) : bool :=
  if truthy (item_id item) then bool_decide (is_Some (item_artists item))
  else match item_track item with
       | Some t => bool_decide (is_Some (track_artists t))
       | None => false
       end.

(** The track an item stands for: identifier and name of the item itself
    (flat) or of the nested track (wrapped), and the artists' names in
    their order, separated by [", "]. *)
Inductive normalizes : RawItem → SpotifyTrack → Prop :=
| normalizes_flat i n arts tr :
    i ≠ "" →
    normalizes
      {| item_id := JStr i; item_name := n; item_artists := Some arts; item_track := tr |}
      {| id := i; name := n; artist := String.concat ", " (artist_name <$> arts) |}
| normalizes_wrapped i n oarts t arts :
    truthy i = false →
    track_artists t = Some arts →
    normalizes
      {| item_id := i; item_name := n; item_artists := oarts; item_track := Some t |}
      {| id := track_id t; name := track_name t;
         artist := String.concat ", " (artist_name <$> arts) |}.

(** The pages the loop visits from [next] on: each is what the API answers
    for the previous page's [next], and the last one has no [next]. *)
Inductive PageChain (net : Network) (auth : string) : JsStr → list PageBody → Prop :=
| chain_end next :
    truthy next = false →
    PageChain net auth next []
| chain_page next page pages :
    truthy next = true →
    metadataPage net (toString next) auth = AxiosResolve page →
    PageChain net auth (page_next page) pages →
    PageChain net auth next (page :: pages).

(** The number of items of a page. *)
Definition itemCount (page : PageBody) : nat :=
  length (default [] (page_items page)).

(** The items of a listing, page after page. *)
Definition allItems (pages : list PageBody) : list RawItem :=
  concat ((λ page, default [] (page_items page)) <$> pages).

Definition isTypeError (e : Error) : bool :=
  match e with TypeError _ => true | Err _ => false end.

(* ===================================================================== *)
(** ** URL parsing *)
(* ===================================================================== *)

(** The two components of a WHATWG [URL] object the program reads. *)
Record URL := {
  hostname : string;
  pathname : string;
}.

Section UrlParser.
(** [new URL(urlString)] is Node's parser; [None] stands for its
    [TypeError: Invalid URL]. *)
Variable newURL : string → option URL.

(** [type === "album" || type === "playlist"] on [pathParts[1]], which is
    [undefined] (here [None]) when the array is too short. *)
Definition asResourceType (part : option string) : option ResourceType :=
  match part with
  | Some s =>
      if bool_decide (s = "album") then Some album
      else if bool_decide (s = "playlist") then Some playlist
      else None
  | None => None
  end.

(** [pathParts[2]] as a possibly [undefined] string. *)
Definition asJsStr (part : option string) : JsStr :=
  match part with
  | Some s => JStr s
  | None => JUndefined
  end.

Definition invalidDomain : Error :=
  Err "Invalid domain. Only Spotify URLs are supported.".
Definition invalidSpotifyUrl : Error :=
  Err "Invalid Spotify URL. Must be a valid album or playlist URL.".

(** [parseSpotifyUrl]. *)
Definition parseSpotifyUrl (urlString : string) : result (ResourceType * string) :=
  match newURL urlString with
  | None => Throw (TypeError "Invalid URL")
  | Some url =>
      if negb (includes "spotify.com" (hostname url)) then Throw invalidDomain
      else
        let pathParts := split "/"%char (pathname url) in
        let type := pathParts !! 1 in
        let id := pathParts !! 2 in
        match asResourceType type with
        | Some ty =>
            if truthy (asJsStr id) then Ok (ty, toString (asJsStr id))
            else Throw invalidSpotifyUrl
        | None => Throw invalidSpotifyUrl
        end
  end.

End UrlParser.

(* ===================================================================== *)
(** ** Track Fetcher *)
(* ===================================================================== *)

Abbreviation bytes := (list Byte.byte).

(** The part of the disk the program touches: regular files with their
    content, and the directories that exist. *)
Record FS := {
  files : gmap string bytes;
  dirs : gset string;
}.

(** [metadata] of the lookup reply: [{ title, artists, cover, album }]. *)
Record Metadata := {
  md_title : string;
  md_artists : string;
  md_cover : string;
  md_album : string;
}.

(** [response.data] of the lookup service. *)
Record LookupBody := {
  lb_success : bool;
  lb_metadata : option Metadata;
  lb_link : string;
}.

(** The [tags] object handed to [NodeID3.write]. The image is always
    declared as JPEG, type 3, "front cover". *)
Record Tags := {
  tag_title : string;
  tag_artist : string;
  tag_album : string;
  tag_imageBuffer : bytes;
  tag_trackNumber : option string;
}.

Section Fetcher.
(** Replies of the lookup service and of the hosts serving the audio and
    the cover during one call. *)
Variable lookupService : string → AxiosResult LookupBody.
Variable fetchBinary : string → AxiosResult bytes.
(** The [sanitize-filename] package. *)
Variable sanitizeFilename : string → string.
(** [fs.writeFile] rejects with this message, when it does. *)
Variable writeFileError : FS → string → option string.
(** [NodeID3.write(tags, filePath)]: whether the returned value is truthy,
    and what the call did to the disk. *)
Variable NodeID3_write : Tags → string → FS → bool * FS.

Definition writeFile (filePath : string) (content : bytes) (fs : FS) : result FS :=
  match writeFileError fs filePath with
  | Some m => Throw (Err m)
  | None => Ok {| files := <[filePath := content]> (files fs); dirs := dirs fs |}
  end.

Definition axiosGet {A} (r : AxiosResult A) : result A :=
  match r with
  | AxiosReject m => Throw (Err m)
  | AxiosResolve d => Ok d
  end.

Definition lookupUrl (track : SpotifyTrack) : string :=
  "https://api.spotifydown.com/download/" +:+ id track.

Definition makeTags (md : Metadata) (coverBuffer : bytes) (index : option nat) : Tags :=
  {| tag_title := md_title md;
     tag_artist := md_artists md;
     tag_album := md_album md;
     tag_imageBuffer := coverBuffer;
     tag_trackNumber := (λ i, pretty (i + 1)) <$> index |}.

Definition tagFailure (filename : string) : Error :=
  Err ("Failed to tag the MP3 file: " +:+ filename).

(** The [try] block of [downloadTrack]; the disk is threaded through, and
    is returned as it stands when the block is left, normally or not. *)
Definition downloadTrack_try (track : SpotifyTrack) (saveTo : string)
    (index : option nat) (fs : FS) : result () * FS :=
  match axiosGet (lookupService (lookupUrl track)) with
  | Throw e => (Throw e, fs)
  | Ok data =>
      match lb_success data, lb_metadata data with
      | true, Some metadata =>
          let filename := sanitizeFilename (getTrackName track +:+ ".mp3") in
          match axiosGet (fetchBinary (lb_link data)) with
          | Throw e => (Throw e, fs)
          | Ok mp3Buffer =>
              match axiosGet (fetchBinary (md_cover metadata)) with
              | Throw e => (Throw e, fs)
              | Ok coverBuffer =>
                  let filePath := saveTo +:+ "/" +:+ filename in
                  match writeFile filePath mp3Buffer fs with
                  | Throw e => (Throw e, fs)
                  | Ok fs1 =>
                      let tags := makeTags metadata coverBuffer index in
                      let '(success, fs2) := NodeID3_write tags filePath fs1 in
                      if negb success then (Throw (tagFailure filename), fs2)
                      else (Ok (), fs2)
                  end
              end
          end
      | _, _ => (Throw (Err "Failed to retrieve track metadata"), fs)
      end
  end.

(** [downloadTrack]: the [catch] clause rethrows a fresh [Error] with the
    same message, and does nothing else. *)
Definition downloadTrack (track : SpotifyTrack) (saveTo : string)
    (index : option nat) (fs : FS) : result () * FS :=
  match downloadTrack_try track saveTo index fs with
  | (Throw e, fs') => (Throw (Err (message e)), fs')
  | (Ok u, fs') => (Ok u, fs')
  end.

End Fetcher.

(** The file a track is saved as: [`${saveTo}/${filename}`]. *)
Definition filePathOf (sanitizeFilename : string → string) (saveTo : string)
    (track : SpotifyTrack) : string :=
  saveTo +:+ "/" +:+ sanitizeFilename (getTrackName track +:+ ".mp3").

(** What [NodeID3.write(tags, filepath)] of node-id3 returns when it is
    called without a callback, as at [src/index.ts:241]: [true] when the
    tags were written, and otherwise the error it caught, which it returns
    and does not throw. *)
Inductive WriteResult :=
| Written
| WriteFailed (e : Error).

(** The test [!success] of [src/index.ts:243] goes by the truthiness of
    what was returned, and an [Error] is an object: it is truthy. *)
Definition truthyResult (w : WriteResult) : bool :=
  match w with
  | Written => true
  | WriteFailed _ => true
  end.

(** [NodeID3.write] as [downloadTrack] tests its result. *)
Definition asTested (write : Tags → string → FS → WriteResult * FS)
    (tags : Tags) (filePath : string) (fs : FS) : bool * FS :=
  let '(w, fs') := write tags filePath fs in (truthyResult w, fs').

(** A tagger that, whatever it reports, changes at most the file it is
    given. *)
Definition tagsInPlace (NodeID3_write : Tags → string → FS → bool * FS) : Prop :=
  ∀ tags filePath fs,
    dirs (NodeID3_write tags filePath fs).2 = dirs fs
    ∧ ∀ other, other ≠ filePath →
        files (NodeID3_write tags filePath fs).2 !! other = files fs !! other.

(* ===================================================================== *)
(** ** The command handler: queue, retry loop, progress *)
(* ===================================================================== *)

(** [const maxRetries = 5] and [new PQueue({ concurrency: 25 })]. *)
Definition maxRetries : nat := 5.
Definition concurrency : nat := 25.

(** [downloadStatus.success] and [.failures] hold references to the track
    objects of [data.tracks]. Every element of that array is a distinct
    object (each is allocated by its own object literal in [getTracks]), so
    a reference is identified with the position of its object in
    [data.tracks]; two references are the same object exactly when the
    positions are equal, whatever the fields contain. *)
Abbreviation TrackRef := nat (only parsing).

Record DownloadStatus := {
  expectedCount : nat;
  success : list TrackRef;
  failures : list TrackRef;
}.

(** A bar of cli-progress, which is not part of the program: [total], the
    current [value], the payload and whether the bar is active. The payload
    is an object; the program only ever sets [success] and [failure] in
    it, both at once. *)
Record Bar := {
  bar_total : nat;
  bar_value : nat;
  bar_success : option nat;
  bar_failure : option nat;
  bar_active : bool;
}.

(** A bar as its constructor leaves it: total 100, value 0, an empty
    payload, not active. *)
Definition newBar : Bar :=
  {| bar_total := 100; bar_value := 0; bar_success := None; bar_failure := None;
     bar_active := false |}.

(** [bar.start(total, startValue, payload)]. *)
Definition bar_start (total value s f : nat) (b : Bar) : Bar :=
  {| bar_total := total; bar_value := value; bar_success := Some s;
     bar_failure := Some f; bar_active := true |}.

(** [mulbar.create(total, startValue, { success, failure })]. The bar is
    made and added to the [MultiBar]; it is started, and the redraw timer
    of the [MultiBar] set, only when the stream the bars are drawn on
    (stderr) is a terminal: the option [noTTYOutput] is not set at
    [src/index.ts:19-32], and without it [create] returns the bar as made
    when [isTTY] is false. *)
Definition mulbar_create (isTTY : bool) (total value s f : nat) : Bar :=
  if isTTY then bar_start total value s f newBar else newBar.

(** [bar.update(value, { success, failure })]: the value is set and the
    payload merged; with [stopOnComplete: true] the bar is stopped when the
    value has reached the total. *)
Definition bar_update (value s f : nat) (b : Bar) : Bar :=
  {| bar_total := bar_total b; bar_value := value; bar_success := Some s;
     bar_failure := Some f;
     bar_active := if bar_total b <=? value then false else bar_active b |}.

(** [bar.getProgress() === 1]. cli-progress computes [value / total], turns
    the [NaN] of [0 / 0] into [1] and clamps to [[0, 1]]; on counts, the
    result is [1] exactly when [value] has reached [total]. *)
Definition progressIsOne (b : Bar) : bool := bar_total b <=? bar_value b.

(** What the jobs do that is visible outside them, in program order. The
    four [mulbar.log] calls of the summary block run without suspension in
    between and are one event. *)
Inductive Event :=
| CallDownload (index : nat)               (* [downloadTrack(track, fullPath, index)] *)
| Sleep (index : nat)                      (* [setTimeout(res, 1000)] *)
| LogOk (logStr : string)
| LogFailed (logStr : string)
| LogMaxRetries (lastError : string)
| BarUpdate (value s f : nat)
| Summary (expected s f : nat).

Global Instance Event_eq_dec : EqDecision Event.
Proof. solve_decision. Defined.

(** Where a job thunk stands. A job is suspended only at its two [await]s;
    everything between two suspensions runs without interleaving. *)
Inductive JobState :=
| Queued                            (* held by the queue, not yet invoked *)
| AwaitDownload (attempt : nat)     (* at [await downloadTrack(...)] *)
| AwaitDelay (attempt : nat)        (* at [await new Promise(setTimeout)], in [catch] *)
| Fulfilled                         (* the thunk's promise is fulfilled *)
| Rejected (e : Error).             (* the thunk's promise is rejected *)

Global Instance JobState_eq_dec : EqDecision JobState.
Proof. solve_decision. Defined.

(** What wakes a job up. *)
Inductive Wake :=
| Start                             (* the queue invokes the thunk *)
| DownloadResolved                  (* [downloadTrack] returned *)
| DownloadRejected (e : Error)      (* [downloadTrack] threw [e] *)
| TimerFired.                       (* the 1000 ms have passed *)

(** How a block of statements completes. *)
Inductive Completion :=
| Normal
| Break
| Abrupt (e : Error).

(** The state the jobs share. *)
Record Run := {
  jobs : list JobState;
  downloadStatus : DownloadStatus;
  bar : Bar;
  output : list Event;
}.

Definition emit (ev : Event) (r : Run) : Run :=
  {| jobs := jobs r; downloadStatus := downloadStatus r; bar := bar r;
     output := output r ++ [ev] |}.

(** [downloadStatus.success.push(track)]. *)
Definition pushSuccess (t : TrackRef) (r : Run) : Run :=
  let st := downloadStatus r in
  {| jobs := jobs r;
     downloadStatus := {| expectedCount := expectedCount st;
                          success := success st ++ [t];
                          failures := failures st |};
     bar := bar r; output := output r |}.

(** [downloadStatus.failures.push(track)]. *)
Definition pushFailure (t : TrackRef) (r : Run) : Run :=
  let st := downloadStatus r in
  {| jobs := jobs r;
     downloadStatus := {| expectedCount := expectedCount st;
                          success := success st;
                          failures := failures st ++ [t] |};
     bar := bar r; output := output r |}.

Definition setJob (index : nat) (js : JobState) (r : Run) : Run :=
  {| jobs := <[index := js]> (jobs r); downloadStatus := downloadStatus r;
     bar := bar r; output := output r |}.

(** The [finally] block. *)
Definition finallyBlock (r : Run) : Run :=
  let st := downloadStatus r in
  let s := length (success st) in
  let f := length (failures st) in
  let b := bar_update (s + f) s f (bar r) in
  let r1 := emit (BarUpdate (s + f) s f)
              {| jobs := jobs r; downloadStatus := st; bar := b; output := output r |} in
  if progressIsOne b then emit (Summary (expectedCount st) s f) r1 else r1.

Definition logStr (track : SpotifyTrack) : string :=
  "(#" +:+ id track +:+ ") " +:+ getTrackName track.

(** The loop test and, when it holds, the [try] block up to its [await]. *)
Definition loopHead (index attempt : nat) (r : Run) : JobState * Run :=
  if attempt <? maxRetries then (AwaitDownload attempt, emit (CallDownload index) r)
  else (Fulfilled, r).

(** What follows the [finally] block, by the completion of the [try]
    statement: [break] leaves the loop and the thunk returns; a normal
    completion goes back to the loop test; a throw that no clause caught
    leaves the thunk and rejects its promise. *)
Definition afterFinally (index attempt : nat) (c : Completion) (r : Run) : JobState * Run :=
  match c with
  | Break => (Fulfilled, r)
  | Normal => loopHead index attempt r
  | Abrupt e => (Rejected e, r)
  end.

(** The [try] block after [await downloadTrack(...)], by the outcome of the
    call. A rejection is thrown at the [await]. *)
Definition tryBlock (index : nat) (track : SpotifyTrack) (w : Wake) (r : Run)
    : Completion * Run :=
  match w with
  | DownloadRejected e => (Abrupt e, r)
  | _ => (Break, pushSuccess index (emit (LogOk (logStr track)) r))
  end.

(** The [catch] clause up to its end, or up to its [await]: [inl] is a
    suspension at the delay, [inr] the completion of the clause. *)
Definition catchClause (index : nat) (track : SpotifyTrack) (attempt : nat)
    (error : Error) (r : Run) : nat * (JobState + Completion) * Run :=
  let attempt := S attempt in
  if attempt =? maxRetries then
    let r1 := emit (LogFailed (logStr track)) r in
    let r2 := emit (LogMaxRetries (message error)) r1 in
    (attempt, inr Normal, pushFailure index r2)
  else
    (attempt, inl (AwaitDelay attempt), emit (Sleep index) r).

(** One uninterrupted stretch of the thunk of [data.tracks[index]]: from
    where it stands to its next suspension or its end. [None]: the wake-up
    does not match the place the job is suspended at. *)
Definition resume (index : nat) (track : SpotifyTrack) (js : JobState) (w : Wake)
    (r : Run) : option (JobState * Run) :=
  match js, w with
  | Queued, Start => Some (loopHead index 0 r)
  | AwaitDownload attempt, (DownloadResolved | DownloadRejected _) =>
      match tryBlock index track w r with
      | (Abrupt e, r1) =>
          match catchClause index track attempt e r1 with
          | (_, inl suspended, r2) => Some (suspended, r2)
          | (attempt', inr c, r2) => Some (afterFinally index attempt' c (finallyBlock r2))
          end
      | (c, r1) => Some (afterFinally index attempt c (finallyBlock r1))
      end
  | AwaitDelay attempt, TimerFired =>
      Some (afterFinally index attempt Normal (finallyBlock r))
  | _, _ => None
  end.

Definition running (js : JobState) : bool :=
  match js with AwaitDownload _ | AwaitDelay _ => true | _ => false end.

Definition started (js : JobState) : bool :=
  match js with Queued => false | _ => true end.

Definition settled (js : JobState) : bool :=
  match js with Fulfilled | Rejected _ => true | _ => false end.

Definition fulfilled (js : JobState) : bool :=
  match js with Fulfilled => true | _ => false end.

(** Number of elements that satisfy [p]. *)
Fixpoint countIf {A} (p : A → bool) (l : list A) : nat :=
  match l with
  | [] => 0
  | x :: l' => (if p x then 1 else 0) + countIf p l'
  end.

(** p-queue invokes a thunk when fewer than [concurrency] are running, in
    the order they were added. *)
Definition mayStart (index : nat) (r : Run) : bool :=
  (countIf running (jobs r) <? concurrency)
  && forallb started (take index (jobs r)).

Section Driver.
(** [process.stderr.isTTY]. *)
Variable isTTY : bool.
(** [data.tracks]. *)
Variable tracks : list SpotifyTrack.

(** The state when [queue.addAll] is called: [downloadStatus] as just
    initialised, the bar as [mulbar.create(data.tracks.length, 0,
    { success: 0, failure: 0 })] returned it, one queued thunk per track. *)
Definition startRun : Run :=
  {| jobs := replicate (length tracks) Queued;
     downloadStatus := {| expectedCount := length tracks; success := []; failures := [] |};
     bar := mulbar_create isTTY (length tracks) 0 0 0;
     output := [] |}.

(** One scheduling step: job [index] is woken by [w]. *)
Definition step (index : nat) (w : Wake) (r : Run) : option Run :=
  track ← tracks !! index;
  js ← jobs r !! index;
  match w with
  | Start => if mayStart index r then Some () else None
  | _ => Some ()
  end;;
  '(js', r') ← resume index track js w r;
  Some (setJob index js' r').

(** A schedule is the sequence of wake-ups the event loop delivers. *)
Fixpoint execute (schedule : list (nat * Wake)) (r : Run) : option Run :=
  match schedule with
  | [] => Some r
  | (index, w) :: rest => r' ← step index w r; execute rest r'
  end.

End Driver.

(** [await queue.addAll(...)] is [Promise.all] over the thunks' promises:
    rejected as soon as one of them is, fulfilled when all are, pending
    otherwise. *)
Inductive AddAll :=
| Pending
| AllFulfilled
| SomeRejected (e : Error).

Definition rejection (js : JobState) : option Error :=
  match js with Rejected e => Some e | _ => None end.

(** With several rejected thunks [Promise.all] reports the one rejected
    first in time; the model reports the one of lowest index. *)
Definition addAllOutcome (r : Run) : AddAll :=
  match omap rejection (jobs r) with
  | e :: _ => SomeRejected e
  | [] => if forallb settled (jobs r) then AllFulfilled else Pending
  end.

(** The ways a step can go: a start, a download that returns, a failed
    attempt before the last, the failed last attempt, and the end of a
    delay, with an attempt left or, as the loop test allows for, without. *)
Inductive StepCase (tracks : list SpotifyTrack) (i : nat) (r : Run)
  : Wake → JobState → Run → Prop :=
| step_start :
    mayStart i r = true →
    StepCase tracks i r Start Queued
      (setJob i (AwaitDownload 0) (emit (CallDownload i) r))
| step_resolved track a :
    tracks !! i = Some track →
    StepCase tracks i r DownloadResolved (AwaitDownload a)
      (setJob i Fulfilled
         (finallyBlock (pushSuccess i (emit (LogOk (logStr track)) r))))
| step_retry a e :
    S a ≠ maxRetries →
    StepCase tracks i r (DownloadRejected e) (AwaitDownload a)
      (setJob i (AwaitDelay (S a)) (emit (Sleep i) r))
| step_exhausted track a e :
    tracks !! i = Some track →
    S a = maxRetries →
    StepCase tracks i r (DownloadRejected e) (AwaitDownload a)
      (setJob i Fulfilled
         (finallyBlock
            (pushFailure i
               (emit (LogMaxRetries (message e)) (emit (LogFailed (logStr track)) r)))))
| step_again a :
    a < maxRetries →
    StepCase tracks i r TimerFired (AwaitDelay a)
      (setJob i (AwaitDownload a) (emit (CallDownload i) (finallyBlock r)))
| step_lapsed a :
    ¬ a < maxRetries →
    StepCase tracks i r TimerFired (AwaitDelay a)
      (setJob i Fulfilled (finallyBlock r)).

(** *** Observations on a run

    What the statements below count: events of the output, and wake-ups of
    a schedule. *)

Definition isSummary (ev : Event) : bool :=
  match ev with Summary _ _ _ => true | _ => false end.

Definition isCall (index : nat) (ev : Event) : bool :=
  match ev with CallDownload j => bool_decide (j = index) | _ => false end.

(** How often the summary block was printed. *)
Definition summaries (out : list Event) : nat := countIf isSummary out.

(** How often [downloadTrack] was called for [data.tracks[index]]. *)
Definition calls (index : nat) (out : list Event) : nat := countIf (isCall index) out.

Definition isRejectionOf (index : nat) (x : nat * Wake) : bool :=
  match x with
  | (j, DownloadRejected _) => bool_decide (j = index)
  | _ => false
  end.

Definition isResolutionOf (index : nat) (x : nat * Wake) : bool :=
  match x with
  | (j, DownloadResolved) => bool_decide (j = index)
  | _ => false
  end.

(** How many calls of [downloadTrack] for this track threw, and how many
    returned. *)
Definition rejections (index : nat) (schedule : list (nat * Wake)) : nat :=
  countIf (isRejectionOf index) schedule.
Definition resolutions (index : nat) (schedule : list (nat * Wake)) : nat :=
  countIf (isResolutionOf index) schedule.

(** The run is complete: every thunk has settled. *)
Definition complete (r : Run) : bool := forallb settled (jobs r).

(** *** The invariant of a run

    What holds of job [i] after the wake-ups of [schedule], by the place the
    job stands at: how often its [downloadTrack] was called, how many of
    these calls threw and how many returned, and where the track was put. *)
Definition jobInv (i : nat) (schedule : list (nat * Wake)) (r : Run) (js : JobState) : Prop :=
  let c := calls i (output r) in
  let rej := rejections i schedule in
  let res := resolutions i schedule in
  match js with
  | Queued => c = 0 ∧ rej = 0 ∧ res = 0
  | AwaitDownload a => c = S a ∧ a < maxRetries ∧ rej = a ∧ res = 0
  | AwaitDelay a => c = a ∧ 0 < a < maxRetries ∧ rej = a ∧ res = 0
  | Fulfilled =>
      (res = 1 ∧ rej < maxRetries ∧ c = S rej ∧ i ∈ success (downloadStatus r))
      ∨ (res = 0 ∧ rej = maxRetries ∧ c = maxRetries ∧ i ∈ failures (downloadStatus r))
  | Rejected _ => False
  end.

Record Inv (tracks : list SpotifyTrack) (schedule : list (nat * Wake)) (r : Run) : Prop := {
  inv_jobs : length (jobs r) = length tracks;
  inv_expected : expectedCount (downloadStatus r) = length tracks;
  inv_tally :
    length (success (downloadStatus r)) + length (failures (downloadStatus r))
    = countIf fulfilled (jobs r);
  inv_recorded : ∀ i : nat,
    i ∈ success (downloadStatus r) ++ failures (downloadStatus r)
    ↔ jobs r !! i = Some Fulfilled;
  inv_nodup : NoDup (success (downloadStatus r) ++ failures (downloadStatus r));
  inv_job : ∀ i js, jobs r !! i = Some js → jobInv i schedule r js;
}.

(** How many wake-ups a job can still take. *)
Definition remaining (js : JobState) : nat :=
  match js with
  | Queued => 2 * maxRetries
  | AwaitDownload a => 2 * (maxRetries - a) - 1
  | AwaitDelay a => 2 * (maxRetries - a)
  | Fulfilled | Rejected _ => 0
  end.

Definition potential (r : Run) : nat := sum_list (remaining <$> jobs r).

(** The tracks behind a list of references. *)
Definition deref (tracks : list SpotifyTrack) (refs : list TrackRef) : list SpotifyTrack :=
  omap (λ i, tracks !! i) refs.

(** *** What a run shows

    The lines of the three kinds [mulbar.log] prints for a track, the
    delays, and the error the last failed call of a track threw. *)

Definition okLine (ev : Event) : option string :=
  match ev with LogOk s => Some s | _ => None end.

Definition failedLine (ev : Event) : option string :=
  match ev with LogFailed s => Some s | _ => None end.

Definition lastErrorLine (ev : Event) : option string :=
  match ev with LogMaxRetries m => Some m | _ => None end.

Definition isSleep (index : nat) (ev : Event) : bool :=
  match ev with Sleep j => bool_decide (j = index) | _ => false end.

(** How often the job of [data.tracks[index]] waited its second. *)
Definition sleeps (index : nat) (out : list Event) : nat := countIf (isSleep index) out.

Definition rejectionOf (index : nat) (x : nat * Wake) : option Error :=
  match x with
  | (j, DownloadRejected e) => if bool_decide (j = index) then Some e else None
  | _ => None
  end.

(** What the last call of [downloadTrack] for this track that threw, threw. *)
Definition lastRejection (index : nat) (schedule : list (nat * Wake)) : option Error :=
  last (omap (rejectionOf index) schedule).

(** The second invariant of a run: what the log shows, how often the jobs
    slept, and how the queue admitted them. *)
Record Shown (tracks : list SpotifyTrack) (schedule : list (nat * Wake)) (r : Run) : Prop := {
  shown_ok :
    omap okLine (output r) = logStr <$> deref tracks (success (downloadStatus r));
  shown_failed :
    omap failedLine (output r) = logStr <$> deref tracks (failures (downloadStatus r));
  shown_errors :
    Some <$> omap lastErrorLine (output r)
    = (λ i, message <$> lastRejection i schedule) <$> failures (downloadStatus r);
  shown_sleeps : ∀ i,
    sleeps i (output r) = rejections i schedule `min` (maxRetries - 1);
  shown_running : countIf running (jobs r) ≤ concurrency;
  shown_fifo : ∀ i j js,
    i < j → jobs r !! j = Some js → started js = true →
    ∃ js', jobs r !! i = Some js' ∧ started js' = true;
}.

(** A [bar.update] whose value has reached [total]. *)
Definition reaches (total : nat) (ev : Event) : bool :=
  match ev with BarUpdate value _ _ => total <=? value | _ => false end.

(** The third invariant of a run: the bar and the summary block. The bar
    was started only when stderr is a terminal; otherwise it has kept the
    total of 100 its constructor gave it. *)
Record BarInv (isTTY : bool) (tracks : list SpotifyTrack) (r : Run) : Prop := {
  bar_inv_total : bar_total (bar r) = if isTTY then length tracks else 100;
  bar_inv_value :
    bar_value (bar r)
    = length (success (downloadStatus r)) + length (failures (downloadStatus r));
  bar_inv_payload :
    (bar_success (bar r) = Some (length (success (downloadStatus r)))
     ∧ bar_failure (bar r) = Some (length (failures (downloadStatus r))))
    ∨ (isTTY = false
       ∧ bar_success (bar r) = None ∧ bar_failure (bar r) = None
       ∧ success (downloadStatus r) = [] ∧ failures (downloadStatus r) = []);
  bar_inv_active :
    bar_active (bar r)
    = isTTY && ((length tracks =? 0)
                || (length (success (downloadStatus r))
                    + length (failures (downloadStatus r)) <? length tracks));
  bar_inv_updates : ∀ value s f,
    BarUpdate value s f ∈ output r →
    value = s + f
    ∧ value ≤ length (success (downloadStatus r)) + length (failures (downloadStatus r));
  bar_inv_reached :
    summaries (output r) = countIf (reaches (bar_total (bar r))) (output r);
  bar_inv_summary :
    isTTY = true →
    summaries (output r) =
      if (0 <? length tracks) && (countIf fulfilled (jobs r) =? length tracks)
      then 1 else 0;
  bar_inv_last : ∀ e s f,
    isTTY = true →
    Summary e s f ∈ output r →
    last (output r) = Some (Summary e s f) ∧ e = length tracks
    ∧ s = length (success (downloadStatus r))
    ∧ f = length (failures (downloadStatus r));
}.

Definition resolvedIndex (x : nat * Wake) : option nat :=
  match x with (j, DownloadResolved) => Some j | _ => None end.

(** The tracks whose download returned, in the order the calls returned. *)
Definition resolvedOf (schedule : list (nat * Wake)) : list nat :=
  omap resolvedIndex schedule.

Section Handler.
(** [process.stderr.isTTY]. *)
Variable isTTY : bool.
Variable newURL : string → option URL.
Variable net : Network.
Variable sanitizeFilename : string → string.
(** [path.resolve]. *)
Variable pathResolve : string → string.
(** The directories above a path, from the root down ([path.dirname]
    taken again and again). *)
Variable parents : string → list string.
(** [fs.ensureDir] rejects with this message, when it does, after having
    made this many of the directories above the path. *)
Variable ensureDirError : FS → string → option (string * nat).

Definition mkdirs (made : list string) (fs : FS) : FS :=
  {| files := files fs; dirs := list_to_set made ∪ dirs fs |}.

(** [fs.ensureDir(dir)] of fs-extra, a recursive [mkdir]: it makes [dir]
    and every directory above it that is missing, from the root down.
    When it rejects, the directories it has made by then stay. *)
Definition ensureDir (dir : string) (fs : FS) : result () * FS :=
  match ensureDirError fs dir with
  | Some (m, made) => (Throw (Err m), mkdirs (take made (parents dir)) fs)
  | None => (Ok (), mkdirs (parents dir ++ [dir]) fs)
  end.

Definition subPath (data : SpotifyResource) : string :=
  match data with
  | Album _ _ title artist =>
      "albums/" +:+ sanitizeFilename (artist +:+ " - " +:+ title)
  | Playlist _ _ name owner =>
      "playlists/" +:+ sanitizeFilename (owner +:+ " - " +:+ name)
  end.

Definition fullPathOf (customPath : string) (data : SpotifyResource) : string :=
  pathResolve (customPath +:+ "/spotify-dl/" +:+ subPath data).

(** The [console.log] lines between [ensureDir] and [maxRetries]. *)
Definition banner (fullPath : string) (data : SpotifyResource) : list string :=
  [ "Saving files to: " +:+ fullPath;
    "Downloading Spotify resource:";
    "  Type   : " +:+ typeName (resource_type data);
    "  Id     : " +:+ resource_id data ] ++
  match data with
  | Album _ _ title artist => [ "  Title  : " +:+ title; "  Artist : " +:+ artist ]
  | Playlist _ _ name owner => [ "  Name   : " +:+ name; "  Owner  : " +:+ owner ]
  end ++
  [ "  Tracks : " +:+ pretty (length (resource_tracks data)); "" ].

(** The top-level [catch]: [console.error("Error:", message)]. *)
Definition reportError (e : Error) (p : Process) : Process :=
  consoleWrite ("Error: " +:+ message e) p.

(** How far the handler gets before the jobs take over. *)
Inductive Handled :=
| Aborted (p : Process) (fs : FS)
    (* an error reached the top-level [catch] before [queue.addAll] *)
| Unbounded
    (* the listing has more pages than the fuel allows *)
| Enqueued (fullPath : string) (p : Process) (fs : FS) (r : Run).
    (* [queue.addAll] is called in this state *)

(** The handler from [const subPath] to the call of [queue.addAll]. *)
Definition prepare (customPath : string) (data : SpotifyResource) (p : Process)
    (fs : FS) : Handled :=
  let fullPath := fullPathOf customPath data in
  match ensureDir fullPath fs with
  | (Throw e, fs1) => Aborted (reportError e p) fs1
  | (Ok _, fs1) =>
      let p1 := foldl (λ q line, consoleWrite line q) p (banner fullPath data) in
      Enqueued fullPath p1 fs1 (startRun isTTY (resource_tracks data))
  end.

(** The handler from its first statement to the call of [queue.addAll]. *)
Definition handler (fuel : nat) (url customPath : string) (p : Process) (fs : FS)
    : Handled :=
  match parseSpotifyUrl newURL url with
  | Throw e => Aborted (reportError e p) fs
  | Ok (type, rid) =>
      match getSpotifyResource net fuel type rid p with
      | (None, _) => Unbounded
      | (Some (Throw e), p1) => Aborted (reportError e p1) fs
      | (Some (Ok data), p1) => prepare customPath data p1 fs
      end
  end.

(** The handler after [await queue.addAll(...)]: it returns when the
    promise is fulfilled, and reports the error when it is rejected.
    [None] while the promise is pending. *)
Definition handlerEnd (p : Process) (r : Run) : option Process :=
  match addAllOutcome r with
  | Pending => None
  | AllFulfilled => Some p
  | SomeRejected e => Some (reportError e p)
  end.

End Handler.

(** What keeps the Node process alive once the handler has returned: a job
    that has not settled (it waits for a reply or for its timer), and the
    redraw timer of the [MultiBar]. cli-progress sets that timer when a bar
    is started and sets it again at every redraw; with [stopOnComplete] a
    redraw stops the [MultiBar], timer included, once no bar is active, and
    a bar stops being active only in [stop()], which [update] calls when
    the value has reached the total. *)
Definition redrawTimer (r : Run) : bool := bar_active (bar r).

(** Nothing is pending any more: the process ends. *)
Definition processEnds (r : Run) : bool := complete r && negb (redrawTimer r).

Section DefaultPath.
(** [os.platform()], [os.homedir()] and [path.join]. *)
Variable platform : string.
Variable homeDir : string.
Variable pathJoin : string → string → string.

(** [getDefaultDownloadPath]: the default of the [--path] option. *)
Definition getDefaultDownloadPath : string :=
  if bool_decide (platform = "win32") then pathJoin homeDir "Downloads"
  else if bool_decide (platform = "darwin") then pathJoin homeDir "Downloads"
  else pathJoin homeDir "Downloads".

End DefaultPath.

(** What the resource needs besides its tracks: the artists of an album,
    the owner's name of a playlist. *)
Definition hasHeader (type : ResourceType) (data : ResourceBody) : bool :=
  match type with
  | album => bool_decide (is_Some (data_artists data))
  | playlist => bool_decide (is_Some (data_owner data))
  end.

(* ===================================================================== *)
(** ** The jobs and their downloads on one disk

    A job that stands at [await downloadTrack(...)] is inside the call,
    at one of its four [await]s. Here the call is followed from [await]
    to [await], so that the calls of different jobs interleave on the
    disk they share; a call that ends wakes its job as in [step]. *)
(* ===================================================================== *)

(** Where a call of [downloadTrack] stands. *)
Inductive Phase :=
| NoCall                                         (* the job is not in a call *)
| AtLookup                                       (* [await axios.get(lookup)] *)
| AtAudio (metadata : Metadata) (link : string)  (* [await axios.get(link)] *)
| AtCover (metadata : Metadata) (mp3Buffer : bytes)
                                                 (* [await axios.get(cover)] *)
| AtWrite (metadata : Metadata) (mp3Buffer coverBuffer : bytes).
                                                 (* [await fs.writeFile(...)] *)

(** What the awaited promise settled with. *)
Inductive Settled :=
| LookupSettled (response : AxiosResult LookupBody)
| BinarySettled (response : AxiosResult bytes)
| WriteSettled (error : option string).

(** How a stretch of the call ends: at the next [await], with a return, or
    with a throw. *)
Inductive CallStep :=
| Continue (ph : Phase)
| Returned
| Threw (e : Error).

(** The [catch] clause of [downloadTrack]. *)
Definition rethrow (e : Error) : CallStep := Threw (Err (message e)).

Section Call.
Variable sanitizeFilename : string → string.
Variable NodeID3_write : Tags → string → FS → bool * FS.

(** One uninterrupted stretch of [downloadTrack(track, saveTo, index)]:
    from the [await] it stands at to the next one, or to its end. The file
    is taken to be written when [fs.writeFile] settles. [None]: what
    settled is not what the call waits for. *)
Definition callResume (track : SpotifyTrack) (saveTo : string) (index : option nat)
    (ph : Phase) (reply : Settled) (fs : FS) : option (CallStep * FS) :=
  let filename := sanitizeFilename (getTrackName track +:+ ".mp3") in
  let filePath := saveTo +:+ "/" +:+ filename in
  match ph, reply with
  | AtLookup, LookupSettled response =>
      match axiosGet response with
      | Throw e => Some (rethrow e, fs)
      | Ok data =>
          match lb_success data, lb_metadata data with
          | true, Some metadata => Some (Continue (AtAudio metadata (lb_link data)), fs)
          | _, _ => Some (rethrow (Err "Failed to retrieve track metadata"), fs)
          end
      end
  | AtAudio metadata _, BinarySettled response =>
      match axiosGet response with
      | Throw e => Some (rethrow e, fs)
      | Ok mp3Buffer => Some (Continue (AtCover metadata mp3Buffer), fs)
      end
  | AtCover metadata mp3Buffer, BinarySettled response =>
      match axiosGet response with
      | Throw e => Some (rethrow e, fs)
      | Ok coverBuffer => Some (Continue (AtWrite metadata mp3Buffer coverBuffer), fs)
      end
  | AtWrite metadata mp3Buffer coverBuffer, WriteSettled error =>
      match error with
      | Some m => Some (rethrow (Err m), fs)
      | None =>
          let fs1 := {| files := <[filePath := mp3Buffer]> (files fs); dirs := dirs fs |} in
          let '(success, fs2) :=
            NodeID3_write (makeTags metadata coverBuffer index) filePath fs1 in
          if negb success then Some (rethrow (tagFailure filename), fs2)
          else Some (Returned, fs2)
      end
  | _, _ => None
  end.

Section Alone.
(** A call that runs alone, with the peers of section [Fetcher]. *)
Variable lookupService : string → AxiosResult LookupBody.
Variable fetchBinary : string → AxiosResult bytes.
Variable writeFileError : FS → string → option string.

(** What the peers answer to the request the call waits for. *)
Definition answer (track : SpotifyTrack) (saveTo : string) (ph : Phase) (fs : FS)
    : option Settled :=
  match ph with
  | NoCall => None
  | AtLookup => Some (LookupSettled (lookupService (lookupUrl track)))
  | AtAudio _ link => Some (BinarySettled (fetchBinary link))
  | AtCover metadata _ => Some (BinarySettled (fetchBinary (md_cover metadata)))
  | AtWrite _ _ _ =>
      Some (WriteSettled
              (writeFileError fs
                 (saveTo +:+ "/" +:+ sanitizeFilename (getTrackName track +:+ ".mp3"))))
  end.

(** The call from [ph] to its end, every request answered at once. *)
Fixpoint runCall (awaits : nat) (track : SpotifyTrack) (saveTo : string)
    (index : option nat) (ph : Phase) (fs : FS) : option (result () * FS) :=
  match awaits with
  | 0 => None
  | S awaits' =>
      reply ← answer track saveTo ph fs;
      '(cs, fs') ← callResume track saveTo index ph reply fs;
      match cs with
      | Continue ph' => runCall awaits' track saveTo index ph' fs'
      | Returned => Some (Ok (), fs')
      | Threw e => Some (Throw e, fs')
      end
  end.

End Alone.

(** The jobs, the disk, and where each job's call stands. *)
Record Sys := {
  sys_run : Run;
  sys_disk : FS;
  sys_calls : list Phase;
}.

(** What the event loop delivers to a job. *)
Inductive Signal :=
| Invoke                       (* the queue invokes the thunk *)
| TimerElapsed                 (* the 1000 ms have passed *)
| Reply (reply : Settled).     (* what the job's call waits for has settled *)

(** A job that has come to [await downloadTrack(...)] has made the call,
    which runs up to its first [await]. *)
Definition phaseOf (js : option JobState) : Phase :=
  match js with Some (AwaitDownload _) => AtLookup | _ => NoCall end.

(** [process.stderr.isTTY]. *)
Variable isTTY : bool.
Variable tracks : list SpotifyTrack.
(** [fullPath], the directory of the resource. *)
Variable fullPath : string.

Definition sysStart (fs : FS) : Sys :=
  {| sys_run := startRun isTTY tracks; sys_disk := fs;
     sys_calls := replicate (length tracks) NoCall |}.

(** The job of [data.tracks[index]] is woken by [w], the disk being [fs]. *)
Definition jobStep (index : nat) (w : Wake) (fs : FS) (s : Sys) : option Sys :=
  r ← step tracks index w (sys_run s);
  Some {| sys_run := r; sys_disk := fs;
          sys_calls := <[index := phaseOf (jobs r !! index)]> (sys_calls s) |}.

(** One step of the whole: the call of job [index] goes on to its next
    [await], or ends and wakes the job; or the job is started, or comes
    back from its delay. *)
Definition sysStep (index : nat) (sig : Signal) (s : Sys) : option Sys :=
  match sig with
  | Invoke => jobStep index Start (sys_disk s) s
  | TimerElapsed => jobStep index TimerFired (sys_disk s) s
  | Reply reply =>
      track ← tracks !! index;
      ph ← sys_calls s !! index;
      '(cs, fs) ← callResume track fullPath (Some index) ph reply (sys_disk s);
      match cs with
      | Continue ph' =>
          Some {| sys_run := sys_run s; sys_disk := fs;
                  sys_calls := <[index := ph']> (sys_calls s) |}
      | Returned => jobStep index DownloadResolved fs s
      | Threw e => jobStep index (DownloadRejected e) fs s
      end
  end.

Fixpoint sysExecute (trace : list (nat * Signal)) (s : Sys) : option Sys :=
  match trace with
  | [] => Some s
  | (index, sig) :: rest => s' ← sysStep index sig s; sysExecute rest s'
  end.

End Call.

(** How many [await]s a call can still come to, the one it stands at
    included, and how many steps a job can still take with its calls. *)
Definition awaitsLeft (ph : Phase) : nat :=
  match ph with
  | NoCall => 0
  | AtLookup => 4
  | AtAudio _ _ => 3
  | AtCover _ _ => 2
  | AtWrite _ _ _ => 1
  end.

Definition stepsLeft (job : JobState * Phase) : nat :=
  match job with
  | (Queued, _) => 5 * maxRetries
  | (AwaitDownload a, ph) => awaitsLeft ph + 5 * (maxRetries - 1 - a)
  | (AwaitDelay a, _) => 5 * (maxRetries - a)
  | _ => 0
  end.

Definition sysPotential (s : Sys) : nat :=
  sum_list (stepsLeft <$> zip (jobs (sys_run s)) (sys_calls s)).

(** A tagger that removes no file. *)
Definition tagsKeep (NodeID3_write : Tags → string → FS → bool * FS) : Prop :=
  ∀ tags filePath fs path,
    is_Some (files fs !! path) →
    is_Some (files (NodeID3_write tags filePath fs).2 !! path).

(* ===================================================================== *)
(** ** Sample data

    A playlist of two tracks whose first track fails five times while the
    second succeeds on its second attempt; an album listed on two pages; a
    URL as Node parses it. The examples below run the definitions on them. *)
(* ===================================================================== *)

Definition demoTracks : list SpotifyTrack :=
  [ {| id := "t0"; name := "Intro"; artist := "Ann" |};
    {| id := "t1"; name := "Outro"; artist := "Ann, Bob" |} ].

Definition demoError : Error := Err "timeout of 1000ms exceeded".

Definition demoSchedule : list (nat * Wake) :=
  [ (0, Start); (1, Start);
    (0, DownloadRejected demoError); (1, DownloadRejected demoError);
    (0, TimerFired); (1, TimerFired);
    (1, DownloadResolved);
    (0, DownloadRejected demoError); (0, TimerFired);
    (0, DownloadRejected demoError); (0, TimerFired);
    (0, DownloadRejected demoError); (0, TimerFired);
    (0, DownloadRejected demoError) ].

Definition demoRun : Run :=
  Eval vm_compute in
    default (startRun true demoTracks) (execute demoTracks demoSchedule (startRun true demoTracks)).

(** The same playlist while the first track waits for its second attempt. *)
Definition demoEarly : Run :=
  Eval vm_compute in
    default (startRun true demoTracks)
      (execute demoTracks (take 5 demoSchedule) (startRun true demoTracks)).

(** The same playlist when the second track has been downloaded. *)
Definition demoMid : Run :=
  Eval vm_compute in
    default (startRun true demoTracks)
      (execute demoTracks (take 7 demoSchedule) (startRun true demoTracks)).

(** The same two states when stderr is not a terminal. *)
Definition demoMidPiped : Run :=
  Eval vm_compute in
    default (startRun false demoTracks)
      (execute demoTracks (take 7 demoSchedule) (startRun false demoTracks)).

Definition demoRunPiped : Run :=
  Eval vm_compute in
    default (startRun false demoTracks)
      (execute demoTracks demoSchedule (startRun false demoTracks)).

(** A resource of 101 tracks, stderr not being a terminal; the first [n]
    tracks are downloaded one after the other, each at the first attempt. *)
Definition demoManyTracks : list SpotifyTrack :=
  replicate 101 {| id := "t"; name := "Intro"; artist := "Ann" |}.

Definition demoManySchedule (n : nat) : list (nat * Wake) :=
  flat_map (λ i, [(i, Start); (i, DownloadResolved)]) (seq 0 n).

Definition demoMany (n : nat) : Run :=
  default (startRun false demoManyTracks)
    (execute demoManyTracks (demoManySchedule n) (startRun false demoManyTracks)).

(** The wake-ups of [demoSchedule] in another order: the first track is
    given up before the second is started. *)
Definition demoScheduleSerial : list (nat * Wake) :=
  [ (0, Start);
    (0, DownloadRejected demoError); (0, TimerFired);
    (0, DownloadRejected demoError); (0, TimerFired);
    (0, DownloadRejected demoError); (0, TimerFired);
    (0, DownloadRejected demoError); (0, TimerFired);
    (0, DownloadRejected demoError);
    (1, Start);
    (1, DownloadRejected demoError); (1, TimerFired);
    (1, DownloadResolved) ].

Definition demoRunSerial : Run :=
  Eval vm_compute in
    default (startRun true demoTracks)
      (execute demoTracks demoScheduleSerial (startRun true demoTracks)).

Definition demoFlat : RawItem :=
  {| item_id := JStr "t0"; item_name := "Intro";
     item_artists := Some [ {| artist_name := "Ann" |} ];
     item_track := None |}.

Definition demoWrapped : RawItem :=
  {| item_id := JUndefined; item_name := "";
     item_artists := None;
     item_track := Some {| track_id := "t1"; track_name := "Outro";
                           track_artists := Some [ {| artist_name := "Ann" |};
                                                   {| artist_name := "Bob" |} ] |} |}.

Definition demoPage2 : PageBody :=
  {| page_items := Some [demoWrapped]; page_next := JNull |}.

Definition demoPage1 : PageBody :=
  {| page_items := Some [demoFlat]; page_next := JStr "https://api.spotify.com/v1/page2" |}.

Definition demoAlbum : ResourceBody :=
  {| data_id := "6kxY4y9rGrWpnhofahze9h"; data_name := "Demo";
     data_artists := Some [ {| artist_name := "Ann" |} ];
     data_owner := None;
     data_tracks := Some demoPage1 |}.

Definition demoNet : Network :=
  {| tokenEndpoint := λ _, AxiosResolve (Some (JStr "BQD3"));
     metadataApi := λ _ _, AxiosResolve demoAlbum;
     metadataPage := λ url _,
       if bool_decide (url = "https://api.spotify.com/v1/page2")
       then AxiosResolve demoPage2 else AxiosReject "Request failed with status code 404" |}.

Definition demoUrlString : string :=
  "https://open.spotify.com/album/6kxY4y9rGrWpnhofahze9h?si=uhqoQVoSQkKKz5nBP_6ozg".

Definition demoNewURL (s : string) : option URL :=
  if bool_decide (s = demoUrlString)
  then Some {| hostname := "open.spotify.com"; pathname := "/album/6kxY4y9rGrWpnhofahze9h" |}
  else None.

(** The directories above a path that is absolute, from the root down
    (the root itself, which always exists, is left out). *)
Fixpoint prefixesAt (seen rest : string) : list string :=
  match rest with
  | EmptyString => []
  | String c rest' =>
      (if Ascii.eqb c "/" then match seen with EmptyString => [] | _ => [seen] end else [])
      ++ prefixesAt (seen +:+ String c EmptyString) rest'
  end.

Definition demoParents (dir : string) : list string := prefixesAt "" dir.

Definition demoEmptyPlaylist : SpotifyResource :=
  Playlist "37i9" [] "Empty" "Ann".

Definition emptyDisk : FS := {| files := ∅; dirs := ∅ |}.

Definition demoLookup : LookupBody :=
  {| lb_success := true;
     lb_metadata := Some {| md_title := "Intro"; md_artists := "Ann";
                            md_cover := "https://i.scdn.co/image/c"; md_album := "Demo" |};
     lb_link := "https://cdn.example/t0.mp3" |}.

(** A tagger that rewrites the file it is given and reports success. *)
Definition demoTagger (tags : Tags) (filePath : string) (fs : FS) : bool * FS :=
  (true, {| files := alter (λ audio, audio ++ audio) filePath (files fs);
            dirs := dirs fs |}).

(** A tagger that fails, the disk being full, and leaves the file as it
    is. *)
Definition demoFailingWrite (tags : Tags) (filePath : string) (fs : FS)
    : WriteResult * FS :=
  (WriteFailed (Err "ENOSPC: no space left on device, write"), fs).

(** The first job of the playlist alone: its track is looked up,
    downloaded and written. *)
Definition demoTraceFirst : list (nat * Signal) :=
  [ (0, Invoke);
    (0, Reply (LookupSettled (AxiosResolve demoLookup)));
    (0, Reply (BinarySettled (AxiosResolve [Byte.x49; Byte.x44; Byte.x33])));
    (0, Reply (BinarySettled (AxiosResolve [])));
    (0, Reply (WriteSettled None)) ].

(** Another track called as the first of [demoTracks]. *)
Definition demoTwin : SpotifyTrack := {| id := "t9"; name := "Intro"; artist := "Ann" |}.

(** Both jobs of the playlist are started; the first track is looked up,
    downloaded, written and tagged while the lookup of the second fails. *)
Definition demoTrace : list (nat * Signal) :=
  [ (0, Invoke); (1, Invoke);
    (0, Reply (LookupSettled (AxiosResolve demoLookup)));
    (1, Reply (LookupSettled (AxiosReject "timeout of 1000ms exceeded")));
    (0, Reply (BinarySettled (AxiosResolve [Byte.x49; Byte.x44; Byte.x33])));
    (0, Reply (BinarySettled (AxiosResolve [])));
    (0, Reply (WriteSettled None)) ].

Definition demoSys : Sys :=
  Eval vm_compute in
    default (sysStart true demoTracks emptyDisk)
      (sysExecute (λ s, s) demoTagger demoTracks "/music" demoTrace
         (sysStart true demoTracks emptyDisk)).

(* ===================================================================== *)
(** * Properties *)
(* ===================================================================== *)

(** ** Strings *)

Lemma append_cons x (a b : string) : String x a +:+ b = String x (a +:+ b).
Proof. reflexivity. Qed.

Lemma append_assoc (a b c : string) : (a +:+ b) +:+ c = a +:+ b +:+ c.
Proof. induction a as [|x a IH]; [done|]. by rewrite !append_cons, IH. Qed.

Lemma append_nil_r (a : string) : a +:+ "" = a.
Proof. induction a as [|x a IH]; [done|]. by rewrite append_cons, IH. Qed.

(** With an element already in the accumulator, the rest of the loop
    appends each further element after a separator. *)
Lemma join_from_concat sep (l : list string) R x k :
  join_from sep (R +:+ x) (S k) l = R +:+ String.concat sep (x :: l).
Proof.
  revert R x k. induction l as [|y l IH]; intros R x k.
  - done.
  - cbn [join_from]. rewrite IH.
    change (String.concat sep (x :: y :: l)) with (x +:+ sep +:+ String.concat sep (y :: l)).
    by rewrite !append_assoc.
Qed.

(** [Array.prototype.join] computes the separated concatenation. *)
Lemma join_concat sep (l : list string) : join sep l = String.concat sep l.
Proof.
  destruct l as [|x l]; [done|].
  unfold join. cbn [join_from]. apply (join_from_concat sep l "" x 0).
Qed.

Lemma split_nonempty c s : split c s ≠ [].
Proof. destruct s as [|a s]; simpl; [done|]. destruct (Ascii.eqb a c), (split c s); done. Qed.

Lemma split_no_sep c s : hasChar c s = false → split c s = [s].
Proof.
  induction s as [|a s IH]; simpl; [done|].
  intros [Ha Hs]%orb_false_elim. rewrite Ha, (IH Hs). done.
Qed.

Lemma split_sep c p s :
  hasChar c p = false → split c (p +:+ String c s) = p :: split c s.
Proof.
  induction p as [|a p IH].
  - intros _. change ("" +:+ String c s) with (String c s). simpl.
    by rewrite Ascii.eqb_refl.
  - cbn [hasChar]. intros [Ha Hp]%orb_false_elim.
    rewrite append_cons. cbn [split]. by rewrite Ha, (IH Hp).
Qed.

(** The first piece ends at the first separator. *)
Lemma split_cons_inv c s p q qs :
  split c s = p :: q :: qs →
  hasChar c p = false ∧ ∃ s', s = p +:+ String c s' ∧ split c s' = q :: qs.
Proof.
  revert p. induction s as [|a s IH]; intros p; simpl; [done|].
  destruct (Ascii.eqb_spec a c) as [->|Hne].
  - intros [= <- Hs]. split; [done|]. by exists s.
  - destruct (split c s) as [|p' ps] eqn:Hs; [done|].
    intros [= <- ->]. destruct (IH _ eq_refl) as (Hp & s' & -> & Hs').
    split.
    + simpl. apply orb_false_intro; [by apply Ascii.eqb_neq|done].
    + by exists s'.
Qed.

Lemma split_single_inv c s p :
  split c s = [p] → s = p ∧ hasChar c p = false.
Proof.
  revert p. induction s as [|a s IH]; intros p; simpl.
  - by intros [= <-].
  - destruct (Ascii.eqb_spec a c) as [->|Hne].
    + intros [= <- Hs]. by apply split_nonempty in Hs.
    + destruct (split c s) as [|p' ps] eqn:Hs; [by apply split_nonempty in Hs|].
      intros [= <- ->]. destruct (IH _ eq_refl) as [-> Hp].
      split; [done|]. simpl. apply orb_false_intro; [by apply Ascii.eqb_neq|done].
Qed.

(** A piece and what follows it: nothing, or a separator and more. *)
Lemma split_head c s p ps :
  split c s = p :: ps →
  hasChar c p = false
  ∧ ∃ rest, s = p +:+ rest ∧ (rest = "" ∨ ∃ rest', rest = String c rest').
Proof.
  destruct ps as [|q qs].
  - intros [-> Hp]%split_single_inv. split; [done|]. exists "".
    split; [by rewrite append_nil_r|by left].
  - intros (Hp & s' & -> & _)%split_cons_inv. split; [done|].
    exists (String c s'). split; [done|]. right. by exists s'.
Qed.

Lemma split_of_head c p rest :
  hasChar c p = false →
  rest = "" ∨ (∃ rest', rest = String c rest') →
  ∃ ps, split c (p +:+ rest) = p :: ps.
Proof.
  intros Hp [->|[rest' ->]].
  - exists []. rewrite append_nil_r. by apply split_no_sep.
  - exists (split c rest'). by apply split_sep.
Qed.

Lemma prefix_spec n s : String.prefix n s = true ↔ ∃ b, s = n +:+ b.
Proof.
  revert n. induction s as [|y s IH]; intros [|x n]; simpl.
  - split; [|done]. intros _. by exists "".
  - split; [done|]. by intros [b Hb].
  - split; [|done]. intros _. by exists (String y s).
  - destruct (Ascii.ascii_dec x y) as [->|Hne].
    + rewrite IH. split; intros [b Hb]; exists b.
      * by rewrite append_cons, Hb.
      * rewrite append_cons in Hb. by simplify_eq.
    + split; [done|]. intros [b Hb]. rewrite append_cons in Hb. by simplify_eq.
Qed.

(** [includes] finds the needle exactly when it is a substring. *)
Lemma includes_spec n s : includes n s = true ↔ ∃ a b, s = a +:+ n +:+ b.
Proof.
  induction s as [|x s IH]; cbn [includes].
  - rewrite orb_false_r, prefix_spec. split.
    + intros [b Hb]. by exists "", b.
    + intros (a & b & Hab). destruct a; [by exists b|done].
  - rewrite orb_true_iff, prefix_spec, IH. split.
    + intros [[b Hb]|(a & b & Hab)].
      * by exists "", b.
      * exists (String x a), b. by rewrite append_cons, Hab.
    + intros (a & b & Hab). destruct a as [|y a].
      * left. by exists b.
      * right. rewrite append_cons in Hab. simplify_eq. by exists a, b.
Qed.

(** The shape of a path whose pieces 1 and 2 are [type] and [id]. *)
Lemma split_path_spec path type rid :
  (∃ lead rest, split "/" path = lead :: type :: rid :: rest)
  ↔ hasChar "/" type = false ∧ hasChar "/" rid = false
    ∧ ∃ lead rest,
        hasChar "/" lead = false
        ∧ path = lead +:+ "/" +:+ type +:+ "/" +:+ rid +:+ rest
        ∧ (rest = "" ∨ ∃ rest', rest = String "/" rest').
Proof.
  split.
  - intros (lead & rest & Hs).
    apply split_cons_inv in Hs as (Hlead & s1 & -> & Hs).
    apply split_cons_inv in Hs as (Htype & s2 & -> & Hs).
    apply split_head in Hs as (Hrid & tail & -> & Htail).
    split_and!; [done..|]. exists lead, tail. done.
  - intros (Htype & Hrid & lead & rest & Hlead & -> & Hrest).
    destruct (split_of_head "/" rid rest Hrid Hrest) as [ps Hps].
    exists lead, ps.
    change (lead +:+ "/" +:+ type +:+ "/" +:+ rid +:+ rest)
      with (lead +:+ String "/" (type +:+ String "/" (rid +:+ rest))).
    by rewrite !split_sep, Hps.
Qed.

(** ** Tracks of raw items *)

Lemma getTrack_normalizes item :
  wellShaped item = true → ∃ t, getTrack item = Ok t ∧ normalizes item t.
Proof.
  destruct item as [i n arts tr]. unfold wellShaped, getTrack. simpl.
  destruct (truthy i) eqn:Hi.
  - intros [a ->]%bool_decide_eq_true. simpl. rewrite join_concat.
    destruct i as [| |s]; try done.
    eexists. split; [reflexivity|]. simpl. apply normalizes_flat.
    intros ->. done.
  - destruct tr as [t|]; [|done].
    intros [a Ha]%bool_decide_eq_true. rewrite Ha. simpl. rewrite join_concat.
    eexists. split; [reflexivity|]. by apply normalizes_wrapped.
Qed.

(** Claim C8. Every list of items that are flat or wrapped maps, item by
    item and in order, to tracks whose identifier and name are those of the
    item (flat) or of its nested track (wrapped) and whose [artist] is the
    artists' names in their order, separated by [", "]. *)
Theorem getTracks_normalizes items :
  Forall (λ item, wellShaped item = true) items →
  ∃ tracks, getTracks items = Ok tracks ∧ Forall2 normalizes items tracks.
Proof.
  induction 1 as [|item items Hitem _ (tracks & Hts & IH)].
  - exists []. by split.
  - destruct (getTrack_normalizes _ Hitem) as (t & Ht & Hn).
    exists (t :: tracks). simpl. rewrite Ht, Hts. simpl. split; [done|]. by constructor.
Qed.

Lemma getTracks_normalizes_witness :
  Forall (λ item, wellShaped item = true) [demoFlat; demoWrapped]
  ∧ ∃ tracks, getTracks [demoFlat; demoWrapped] = Ok tracks
              ∧ Forall2 normalizes [demoFlat; demoWrapped] tracks.
Proof.
  assert (H : Forall (λ item, wellShaped item = true) [demoFlat; demoWrapped]).
  { repeat constructor. }
  split; [exact H|]. exact (getTracks_normalizes [demoFlat; demoWrapped] H).
Defined.

Example getTracks_demo :
  getTracks [demoFlat; demoWrapped] = Ok demoTracks.
Proof. reflexivity. Qed.

Lemma getTracks_length items tracks :
  getTracks items = Ok tracks → length tracks = length items.
Proof.
  revert tracks. induction items as [|item items IH]; intros tracks; simpl.
  - by intros [= <-].
  - destruct (getTrack item); simpl; [|done].
    destruct (getTracks items) as [ts|]; simpl; [|done].
    intros [= <-]. simpl. by rewrite (IH ts).
Qed.

(** ** Pagination *)

Section Pagination.
Variable net : Network.

Lemma getTracksOf_length items tracks :
  getTracksOf items = Ok tracks → length tracks = length (default [] items).
Proof. destruct items as [l|]; simpl; [apply getTracks_length|done]. Qed.

(** The loop appends the tracks of each page of the chain, in order. *)
Lemma followNext_chain fuel auth next pages perPage tracks :
  PageChain net auth next pages →
  Forall2 (λ page ts, getTracksOf (page_items page) = Ok ts) pages perPage →
  length pages ≤ fuel →
  followNext net fuel auth next tracks = Some (Ok (tracks ++ concat perPage)).
Proof.
  intros Hchain. revert fuel perPage tracks.
  induction Hchain as [next Hn|next page pages Hn Hget _ IH];
    intros fuel perPage tracks Hall Hfuel.
  - apply Forall2_nil_inv_l in Hall as ->.
    destruct fuel; simpl; rewrite Hn, ?app_nil_r; done.
  - apply Forall2_cons_inv_l in Hall as (ts & rest & Hts & Hall & ->).
    destruct fuel as [|fuel]; simpl in Hfuel; [lia|].
    simpl. rewrite Hn, Hget, Hts.
    rewrite (IH fuel rest (tracks ++ ts) Hall) by lia.
    by rewrite app_assoc.
Qed.

(** Claim C7. When the listing is a chain of pages ending in a page without
    [next], and the loop has fuel for the chain, the collected track list
    is the first page's tracks followed by each further page's tracks in
    the order the pages were fetched, and its length is the sum of the
    pages' item counts. *)
Theorem pagination_concatenates_pages fuel auth data first pages perPage :
  data_tracks data = Some first →
  PageChain net auth (page_next first) pages →
  Forall2 (λ page ts, getTracksOf (page_items page) = Ok ts) (first :: pages) perPage →
  length pages ≤ fuel →
  collectTracks net fuel auth data = Some (Ok (concat perPage))
  ∧ length (concat perPage) = sum_list (itemCount <$> first :: pages)
  ∧ Forall2 (λ page ts, length ts = itemCount page) (first :: pages) perPage.
Proof.
  intros Hfirst Hchain Hall Hfuel.
  assert (Hlen : Forall2 (λ page ts, length ts = itemCount page) (first :: pages) perPage).
  { eapply Forall2_impl; [exact Hall|]. intros page ts H. by apply getTracksOf_length. }
  split_and!; [|
    clear -Hlen; induction Hlen as [|page ts ps tss Hl _ IH]; [done|];
      csimpl; rewrite length_app, IH, Hl; done
  | done].
  apply Forall2_cons_inv_l in Hall as (ts & rest & Hts & Hall & ->).
  unfold collectTracks. rewrite Hfirst, Hts.
  exact (followNext_chain _ _ _ pages rest ts Hchain Hall Hfuel).
Qed.

(** The tracks of the resolved resource are the collected ones. *)
Lemma getSpotifyResource_tracks fuel type rid p res p' :
  getSpotifyResource net fuel type rid p = (Some (Ok res), p') →
  ∃ token data,
    metadataApi net (resourceUrl type rid) (authorization token) = AxiosResolve data
    ∧ collectTracks net fuel (authorization token) data = Some (Ok (resource_tracks res))
    ∧ resource_type res = type.
Proof.
  unfold getSpotifyResource, getSpotifyResource_try.
  destruct (getSpotifyAccessToken net p) as [[token|e] p1]; [|done].
  destruct (metadataApi net _ _) as [m|data] eqn:Hapi; [done|].
  destruct (collectTracks net fuel _ data) as [[tracks|e]|] eqn:Hc; [|done..].
  unfold makeResource. destruct type.
  - destruct (getArtistFromArtists _); simpl; [|done].
    intros [= <- <-]. eauto.
  - destruct (data_owner data); [|done].
    intros [= <- <-]. eauto.
Qed.
End Pagination.

Lemma pagination_concatenates_pages_witness :
  data_tracks demoAlbum = Some demoPage1
  ∧ PageChain demoNet "Bearer BQD3" (page_next demoPage1) [demoPage2]
  ∧ length [demoPage2] ≤ 1
  ∧ collectTracks demoNet 1 "Bearer BQD3" demoAlbum = Some (Ok demoTracks).
Proof.
  assert (Hchain : PageChain demoNet "Bearer BQD3" (page_next demoPage1) [demoPage2]).
  { eapply chain_page; [reflexivity|reflexivity|]. by apply chain_end. }
  assert (Hall : Forall2 (λ page ts, getTracksOf (page_items page) = Ok ts)
                   [demoPage1; demoPage2] [take 1 demoTracks; drop 1 demoTracks]).
  { repeat constructor. }
  split; [reflexivity|]. split; [exact Hchain|]. split; [simpl; lia|].
  exact (proj1 (pagination_concatenates_pages demoNet 1 "Bearer BQD3" demoAlbum
                  demoPage1 [demoPage2] _ eq_refl Hchain Hall (le_n 1))).
Defined.

(** ** The access token *)

(** A reply without a token is not an error: the acquisition returns
    [undefined], and the next acquisition asks the endpoint again. *)
Lemma token_missing_is_not_an_error :
  getSpotifyAccessToken tokenlessNet startProcess
  = (Ok JUndefined, {| accessToken := JUndefined; tokenRequests := 1; console := [] |})
  ∧ tokenRequests (getSpotifyAccessToken tokenlessNet
                     (getSpotifyAccessToken tokenlessNet startProcess).2).2 = 2.
Proof. split; reflexivity. Qed.

Section Token.
Variable net : Network.

(** An acquisition sends at most one request. *)
Lemma getSpotifyAccessToken_requests p :
  tokenRequests (getSpotifyAccessToken net p).2 ≤ S (tokenRequests p).
Proof.
  unfold getSpotifyAccessToken. destruct (truthy (accessToken p)); simpl; [lia|].
  destruct (tokenEndpoint net (tokenRequests p)) as [m|[tok|]]; simpl; lia.
Qed.

(** Claim C5, as amended. With a non-empty token cached, an acquisition
    returns it and leaves the process as it was: no request is sent.
    Without one, exactly one request is sent; the acquisition throws when
    the request fails or the reply has no body, and otherwise returns and
    stores whatever [accessToken] the reply carries, present or not. Once
    an acquisition has returned a non-empty token, later acquisitions
    return it without a request; and resolving a resource sends at most
    one request to the token endpoint. *)
Theorem access_token_cached_once_obtained p :
  (truthy (accessToken p) = true →
     getSpotifyAccessToken net p = (Ok (accessToken p), p))
  ∧ (truthy (accessToken p) = false →
     let '(r, p') := getSpotifyAccessToken net p in
     tokenRequests p' = S (tokenRequests p)
     ∧ match tokenEndpoint net (tokenRequests p) with
       | AxiosReject _ | AxiosResolve None =>
           r = Throw (Err "Failed to get access token")
           ∧ accessToken p' = accessToken p
       | AxiosResolve (Some tok) =>
           r = Ok tok ∧ accessToken p' = tok
       end)
  ∧ (∀ tok p', getSpotifyAccessToken net p = (Ok tok, p') → truthy tok = true →
       accessToken p' = tok
       ∧ getSpotifyAccessToken net p' = (Ok tok, p'))
  ∧ (∀ fuel type rid,
       tokenRequests (getSpotifyResource net fuel type rid p).2 ≤ S (tokenRequests p)).
Proof.
  split_and!.
  - intros Ht. unfold getSpotifyAccessToken. by rewrite Ht.
  - intros Hf. unfold getSpotifyAccessToken. rewrite Hf.
    destruct (tokenEndpoint net (tokenRequests p)) as [m|[tok|]]; done.
  - intros tok p' Hget Htok.
    assert (accessToken p' = tok) as Hacc.
    { unfold getSpotifyAccessToken in Hget.
      destruct (truthy (accessToken p)); [by simplify_eq|].
      destruct (tokenEndpoint net (tokenRequests p)) as [m|[tok'|]]; by simplify_eq. }
    split; [done|].
    unfold getSpotifyAccessToken. by rewrite Hacc, Htok.
  - intros fuel type rid. pose proof (getSpotifyAccessToken_requests p) as Hreq.
    unfold getSpotifyResource, getSpotifyResource_try.
    destruct (getSpotifyAccessToken net p) as [[token|e] p1]; simpl in *; [|lia].
    destruct (metadataApi net _ _) as [m|data]; simpl; [lia|].
    destruct (collectTracks net fuel _ data) as [[tracks|e]|]; simpl; [|lia..].
    destruct (makeResource type data tracks); simpl; lia.
Qed.
End Token.

Lemma access_token_cached_once_obtained_witness :
  truthy (accessToken startProcess) = false
  ∧ getSpotifyAccessToken demoNet startProcess
    = (Ok (JStr "BQD3"),
       {| accessToken := JStr "BQD3"; tokenRequests := 1; console := [] |})
  ∧ getSpotifyAccessToken demoNet
      {| accessToken := JStr "BQD3"; tokenRequests := 1; console := [] |}
    = (Ok (JStr "BQD3"),
       {| accessToken := JStr "BQD3"; tokenRequests := 1; console := [] |}).
Proof.
  split; [reflexivity|]. split; [reflexivity|].
  exact (proj2 (proj1 (proj2 (proj2
    (access_token_cached_once_obtained demoNet startProcess)))
      (JStr "BQD3") _ eq_refl eq_refl)).
Defined.

(** ** URL parsing *)

Section Parse.
Variable newURL : string → option URL.

Lemma parseSpotifyUrl_ok urlString ty rid :
  parseSpotifyUrl newURL urlString = Ok (ty, rid)
  ↔ ∃ url, newURL urlString = Some url
      ∧ includes "spotify.com" (hostname url) = true
      ∧ rid ≠ ""
      ∧ ∃ lead rest, split "/" (pathname url) = lead :: typeName ty :: rid :: rest.
Proof.
  unfold parseSpotifyUrl. split.
  - destruct (newURL urlString) as [url|]; [|done].
    destruct (includes "spotify.com" (hostname url)) eqn:Hhost; [|done]. simpl.
    destruct (split "/" (pathname url)) as [|lead [|type [|i rest]]] eqn:Hs;
      simpl; try done.
    + unfold asResourceType. repeat case_bool_decide; done.
    + unfold asResourceType. repeat case_bool_decide; subst; try done.
      * intros [= <- <-]. exists url. split_and!; eauto.
      * intros [= <- <-]. exists url. split_and!; eauto.
  - intros (url & -> & -> & Hrid & lead & rest & ->). simpl.
    destruct ty; simpl; by rewrite bool_decide_false.
Qed.

(** The errors [parseSpotifyUrl] throws. *)
Lemma parseSpotifyUrl_throws urlString e :
  parseSpotifyUrl newURL urlString = Throw e →
  e = TypeError "Invalid URL" ∨ e = invalidDomain ∨ e = invalidSpotifyUrl.
Proof.
  unfold parseSpotifyUrl.
  destruct (newURL urlString) as [url|]; [|naive_solver].
  destruct (negb _); [naive_solver|].
  destruct (asResourceType _); [|naive_solver].
  destruct (truthy _); naive_solver.
Qed.

(** The general shape of an accepted URL: piece 0 of the path, [lead], is
    not looked at. *)
Lemma parseSpotifyUrl_shape urlString ty rid :
  parseSpotifyUrl newURL urlString = Ok (ty, rid)
  ↔ ∃ url, newURL urlString = Some url
      ∧ (∃ a b, hostname url = a +:+ "spotify.com" +:+ b)
      ∧ rid ≠ "" ∧ hasChar "/" rid = false
      ∧ ∃ lead rest,
          hasChar "/" lead = false
          ∧ pathname url = lead +:+ "/" +:+ typeName ty +:+ "/" +:+ rid +:+ rest
          ∧ (rest = "" ∨ ∃ rest', rest = String "/" rest').
Proof.
  rewrite parseSpotifyUrl_ok. split.
  - intros (url & Hurl & Hhost%includes_spec & Hrid & Hpath).
    apply split_path_spec in Hpath as (_ & Hslash & Hshape).
    exists url. split_and!; done.
  - intros (url & Hurl & Hhost%includes_spec & Hrid & Hslash & Hshape).
    exists url. split_and!; try done.
    apply split_path_spec. split_and!; [by destruct ty|done..].
Qed.

(** Claim C6. [parseSpotifyUrl] returns a type and an id exactly when the
    URL parses, its host name contains [spotify.com], and its path is
    [/<album|playlist>/<id><rest>] with a non-empty, slash-free [id] and a
    [rest] that is empty or starts with a slash. This is stated first for
    a path that starts with a slash, as the path of an http(s) URL does,
    then for any path, where a slash-free piece may precede the first
    slash. For every other URL [parseSpotifyUrl] throws one of its three
    invalid-URL errors, and the handler then stops at its top-level
    [catch] with the process state and the disk as they were, the error
    line apart. *)
Theorem parseSpotifyUrl_accepts_exactly urlString :
  (∀ url ty rid,
     newURL urlString = Some url →
     (∃ p, pathname url = String "/" p) →
     parseSpotifyUrl newURL urlString = Ok (ty, rid)
     ↔ (∃ a b, hostname url = a +:+ "spotify.com" +:+ b)
       ∧ rid ≠ "" ∧ hasChar "/" rid = false
       ∧ ∃ rest,
           pathname url = "/" +:+ typeName ty +:+ "/" +:+ rid +:+ rest
           ∧ (rest = "" ∨ ∃ rest', rest = String "/" rest'))
  ∧ (∀ ty rid,
       parseSpotifyUrl newURL urlString = Ok (ty, rid)
       ↔ ∃ url, newURL urlString = Some url
           ∧ (∃ a b, hostname url = a +:+ "spotify.com" +:+ b)
           ∧ rid ≠ "" ∧ hasChar "/" rid = false
           ∧ ∃ lead rest,
               hasChar "/" lead = false
               ∧ pathname url = lead +:+ "/" +:+ typeName ty +:+ "/" +:+ rid +:+ rest
               ∧ (rest = "" ∨ ∃ rest', rest = String "/" rest'))
  ∧ ((∀ ty rid, parseSpotifyUrl newURL urlString ≠ Ok (ty, rid)) →
     ∃ e, parseSpotifyUrl newURL urlString = Throw e
          ∧ (e = TypeError "Invalid URL" ∨ e = invalidDomain ∨ e = invalidSpotifyUrl))
  ∧ (∀ e isTTY net sanitizeFilename pathResolve parents ensureDirError fuel customPath p fs,
       parseSpotifyUrl newURL urlString = Throw e →
       handler isTTY newURL net sanitizeFilename pathResolve parents ensureDirError
         fuel urlString customPath p fs
       = Aborted (reportError e p) fs
       ∧ tokenRequests (reportError e p) = tokenRequests p
       ∧ accessToken (reportError e p) = accessToken p).
Proof.
  split_and!.
  - intros url ty rid Hurl [p Hroot]. rewrite parseSpotifyUrl_shape. split.
    + intros (url' & Hurl' & Hhost & Hrid & Hslash & lead & rest & Hlead & Hpath & Hrest).
      assert (url' = url) as -> by congruence.
      split_and!; [done..|]. exists rest. split; [|done].
      rewrite Hpath in Hroot. destruct lead as [|c lead]; [by rewrite Hpath|].
      rewrite append_cons in Hroot. injection Hroot as -> _.
      cbn [hasChar] in Hlead. by rewrite Ascii.eqb_refl in Hlead.
    + intros (Hhost & Hrid & Hslash & rest & Hpath & Hrest).
      exists url. split_and!; [done..|]. by exists "", rest.
  - intros ty rid. apply parseSpotifyUrl_shape.
  - intros Hno. destruct (parseSpotifyUrl newURL urlString) as [[ty rid]|e] eqn:Hp.
    + by destruct (Hno ty rid).
    + exists e. split; [done|]. by apply (parseSpotifyUrl_throws urlString).
  - intros e isTTY net sanitizeFilename pathResolve parents ensureDirError fuel customPath p fs
      Hp.
    unfold handler. by rewrite Hp.
Qed.

End Parse.

Lemma parseSpotifyUrl_accepts_exactly_witness :
  let url := {| hostname := "open.spotify.com"; pathname := "/album/6kxY4y9rGrWpnhofahze9h" |} in
  demoNewURL demoUrlString = Some url
  ∧ (∃ p, pathname url = String "/" p)
  ∧ parseSpotifyUrl demoNewURL demoUrlString = Ok (album, "6kxY4y9rGrWpnhofahze9h")
  ∧ ∃ a b, hostname url = a +:+ "spotify.com" +:+ b.
Proof.
  intros url.
  assert (Hroot : ∃ p, pathname url = String "/" p) by (eexists; reflexivity).
  split; [reflexivity|]. split; [exact Hroot|]. split; [reflexivity|].
  exact (proj1 (proj1 (proj1 (parseSpotifyUrl_accepts_exactly demoNewURL demoUrlString)
                         url album "6kxY4y9rGrWpnhofahze9h" eq_refl Hroot) eq_refl)).
Defined.

Example parseSpotifyUrl_rejects :
  parseSpotifyUrl (λ _, Some {| hostname := "open.spotify.com"; pathname := "/track/4uLU6" |})
    "https://open.spotify.com/track/4uLU6" = Throw invalidSpotifyUrl
  ∧ parseSpotifyUrl (λ _, Some {| hostname := "example.org"; pathname := "/album/6kxY" |})
      "https://example.org/album/6kxY" = Throw invalidDomain
  ∧ parseSpotifyUrl (λ _, Some {| hostname := "open.spotify.com"; pathname := "/album/" |})
      "https://open.spotify.com/album/" = Throw invalidSpotifyUrl.
Proof. repeat split; reflexivity. Qed.

(** ** Tag failure *)

Section TagFailure.
Variable lookupService : string → AxiosResult LookupBody.
Variable fetchBinary : string → AxiosResult bytes.
Variable sanitizeFilename : string → string.
Variable writeFileError : FS → string → option string.
Variable write : Tags → string → FS → WriteResult * FS.

(** Claim C9, which the code misses. [NodeID3.write] reports a failure by
    returning the error, and [if (!success)] takes that for a success:
    when the lookup, both downloads and the write succeed and the tagging
    fails, [downloadTrack] does not throw
    [Failed to tag the MP3 file: <filename>] but returns normally. The
    other half of the claim holds: the disk is left exactly as
    [NodeID3.write] left it, nothing is removed, and if the tagger left
    the audio file alone it still holds the downloaded audio when the
    call ends. *)
Theorem tag_failure_goes_unnoticed track saveTo index fs data metadata mp3 cover e fs2 :
  let filename := sanitizeFilename (getTrackName track +:+ ".mp3") in
  let filePath := saveTo +:+ "/" +:+ filename in
  let fs1 := {| files := <[filePath := mp3]> (files fs); dirs := dirs fs |} in
  lookupService (lookupUrl track) = AxiosResolve data →
  lb_success data = true →
  lb_metadata data = Some metadata →
  fetchBinary (lb_link data) = AxiosResolve mp3 →
  fetchBinary (md_cover metadata) = AxiosResolve cover →
  writeFileError fs filePath = None →
  write (makeTags metadata cover index) filePath fs1 = (WriteFailed e, fs2) →
  downloadTrack lookupService fetchBinary sanitizeFilename writeFileError (asTested write)
    track saveTo index fs
  = (Ok (), fs2)
  ∧ files fs1 !! filePath = Some mp3
  ∧ (files fs2 !! filePath = files fs1 !! filePath →
     files (downloadTrack lookupService fetchBinary sanitizeFilename writeFileError
              (asTested write) track saveTo index fs).2 !! filePath = Some mp3).
Proof.
  intros filename filePath fs1 Hlookup Hsuccess Hmeta Hmp3 Hcover Hwrite Htag.
  assert (Hrun : downloadTrack lookupService fetchBinary sanitizeFilename writeFileError
                   (asTested write) track saveTo index fs
                 = (Ok (), fs2)).
  { unfold downloadTrack, downloadTrack_try, writeFile, asTested.
    rewrite Hlookup. simpl. rewrite Hsuccess, Hmeta, Hmp3. simpl.
    rewrite Hcover. simpl. fold filename. fold filePath. rewrite Hwrite.
    fold fs1. rewrite Htag. done. }
  split_and!.
  - done.
  - simpl. apply lookup_insert_eq.
  - intros Hsame. rewrite Hrun. simpl. rewrite Hsame. simpl. apply lookup_insert_eq.
Qed.

(** Whatever [NodeID3.write] returns, the [throw] of [src/index.ts:244]
    is not reached: [downloadTrack] never ends with that error because
    of the tagger. *)
Lemma asTested_true tags filePath fs : (asTested write tags filePath fs).1 = true.
Proof. unfold asTested. destruct (write tags filePath fs) as [[] fs']; done. Qed.
End TagFailure.

(** A tagger that reports failure and leaves the disk alone. *)
Lemma tag_failure_goes_unnoticed_witness :
  let track := {| id := "t0"; name := "Intro"; artist := "Ann" |} in
  let fs1 := {| files := <["/music/Intro - Ann.mp3" := []]> ∅; dirs := ∅ |} in
  downloadTrack (λ _, AxiosResolve demoLookup) (λ _, AxiosResolve []) (λ s, s)
    (λ _ _, None) (asTested demoFailingWrite) track "/music" (Some 0) emptyDisk
  = (Ok (), fs1)
  ∧ files fs1 !! "/music/Intro - Ann.mp3" = Some [].
Proof.
  intros track fs1.
  pose proof (tag_failure_goes_unnoticed
                (λ _, AxiosResolve demoLookup) (λ _, AxiosResolve []) (λ s, s)
                (λ _ _, None) demoFailingWrite track "/music" (Some 0) emptyDisk
                demoLookup _ [] [] _ fs1
                eq_refl eq_refl eq_refl eq_refl eq_refl eq_refl eq_refl) as H.
  exact (conj (proj1 H) (proj1 (proj2 H))).
Defined.

(** The job takes the call for a success: the track whose tagging failed
    is recorded in [success] and logged as downloaded. *)
Example tag_failure_recorded_as_success :
  let s := default (sysStart true demoTracks emptyDisk)
             (sysExecute (λ s, s) (asTested demoFailingWrite) demoTracks "/music"
                demoTraceFirst (sysStart true demoTracks emptyDisk)) in
  success (downloadStatus (sys_run s)) = [0]
  ∧ failures (downloadStatus (sys_run s)) = []
  ∧ omap okLine (output (sys_run s)) = ["(#t0) Intro - Ann"]
  ∧ files (sys_disk s) !! "/music/Intro - Ann.mp3" = Some [Byte.x49; Byte.x44; Byte.x33].
Proof. vm_compute. done. Qed.

(** ** Counting *)

Section Counting.
Context {A : Type} (p : A → bool).

Lemma countIf_app (l1 l2 : list A) :
  countIf p (l1 ++ l2) = countIf p l1 + countIf p l2.
Proof. induction l1 as [|x l1 IH]; simpl; [done|]. rewrite IH. lia. Qed.

Lemma countIf_snoc (l : list A) (x : A) :
  countIf p (l ++ [x]) = countIf p l + (if p x then 1 else 0).
Proof. rewrite countIf_app. simpl. lia. Qed.

Lemma countIf_le (l : list A) : countIf p l ≤ length l.
Proof. induction l as [|x l IH]; simpl; [done|]. destruct (p x); lia. Qed.

(** Replacing one element moves the count by that element's share. *)
Lemma countIf_insert (l : list A) (i : nat) (x y : A) :
  l !! i = Some x →
  countIf p (<[i:=y]> l) + (if p x then 1 else 0)
  = countIf p l + (if p y then 1 else 0).
Proof.
  revert i. induction l as [|z l IH]; intros [|i] Hi; simplify_eq/=.
  - lia.
  - specialize (IH _ Hi). lia.
Qed.

Lemma countIf_lt (l : list A) (i : nat) (x : A) :
  l !! i = Some x → p x = false → countIf p l < length l.
Proof.
  revert i. induction l as [|z l IH]; intros [|i] Hi Hx; simplify_eq/=.
  - rewrite Hx. pose proof (countIf_le l). lia.
  - specialize (IH _ Hi Hx). destruct (p z); lia.
Qed.

Lemma countIf_all (l : list A) :
  countIf p l = length l ↔ forallb p l = true.
Proof.
  induction l as [|x l IH]; simpl; [done|].
  pose proof (countIf_le l). destruct (p x); simpl.
  - rewrite <- IH. lia.
  - split; [lia|done].
Qed.

Lemma countIf_zero (l : list A) :
  (∀ x, x ∈ l → p x = false) → countIf p l = 0.
Proof.
  induction l as [|x l IH]; intros H; simpl; [done|].
  rewrite (H x), IH; [done| |]; [intros; apply H|]; set_solver.
Qed.

Lemma countIf_replicate (n : nat) (x : A) :
  countIf p (replicate n x) = if p x then n else 0.
Proof. induction n as [|n IH]; simpl; [by destruct (p x)|]. rewrite IH. by destruct (p x). Qed.

End Counting.

(** ** The job thunks *)

Lemma finallyBlock_jobs r : jobs (finallyBlock r) = jobs r.
Proof. unfold finallyBlock. by case_match. Qed.

Lemma finallyBlock_status r : downloadStatus (finallyBlock r) = downloadStatus r.
Proof. unfold finallyBlock. by case_match. Qed.

Lemma finallyBlock_total r : bar_total (bar (finallyBlock r)) = bar_total (bar r).
Proof. unfold finallyBlock. by case_match. Qed.

(** The [finally] block updates the bar with the current tally and prints
    the summary when the tally has reached the bar's total. *)
Lemma finallyBlock_output r :
  let st := downloadStatus r in
  let s := length (success st) in
  let f := length (failures st) in
  output (finallyBlock r) =
    output r ++ BarUpdate (s + f) s f ::
      (if bar_total (bar r) <=? s + f then [Summary (expectedCount st) s f] else []).
Proof.
  simpl. unfold finallyBlock, progressIsOne. simpl.
  case_match; simpl; by rewrite <- ?app_assoc.
Qed.

Lemma step_cases tracks i w r r' :
  step tracks i w r = Some r' →
  ∃ js, jobs r !! i = Some js ∧ i < length tracks ∧ StepCase tracks i r w js r'.
Proof.
  unfold step. intros H.
  destruct (tracks !! i) as [track|] eqn:Ht; simplify_eq/=.
  destruct (jobs r !! i) as [js|] eqn:Hj; simplify_eq/=.
  exists js. split; [done|]. split; [by eapply lookup_lt_Some|].
  destruct w, js; simplify_eq/=.
  - destruct (mayStart i r) eqn:Hm; simplify_eq/=. by apply step_start.
  - destruct (mayStart i r); simplify_eq/=.
  - destruct (mayStart i r); simplify_eq/=.
  - destruct (mayStart i r); simplify_eq/=.
  - destruct (mayStart i r); simplify_eq/=.
  - by apply step_resolved.
  - revert H. unfold catchClause.
    destruct (Nat.eqb_spec (S attempt) maxRetries) as [Hm|Hm]; intros H.
    + assert (attempt = 4) as -> by (unfold maxRetries in Hm; lia).
      simpl in H. simplify_eq. apply (step_exhausted _ _ _ track); [done|reflexivity].
    + simplify_eq/=. by apply step_retry.
  - revert H. unfold loopHead.
    destruct (Nat.ltb_spec attempt maxRetries) as [Hm|Hm]; intros H; simplify_eq/=.
    + by apply step_again.
    + apply step_lapsed. lia.
Qed.

(** ** The invariant is kept by every step *)

Lemma countIf_pos {A} (p : A → bool) (l : list A) (x : A) :
  x ∈ l → p x = true → 0 < countIf p l.
Proof.
  induction l as [|y l IH]; intros Hx Hp; [by apply elem_of_nil in Hx|].
  apply elem_of_cons in Hx as [->|Hx]; simpl; [rewrite Hp; lia|].
  specialize (IH Hx Hp). lia.
Qed.

Lemma Inv_start isTTY tracks : Inv tracks [] (startRun isTTY tracks).
Proof.
  split; simpl.
  - apply length_replicate.
  - done.
  - by rewrite countIf_replicate.
  - intros i. rewrite lookup_replicate. split; [by intros ?%elem_of_nil|naive_solver].
  - constructor.
  - intros i js [-> _]%lookup_replicate. done.
Qed.


Lemma NoDup_push_l (s f : list nat) (i : nat) :
  i ∉ s ++ f → NoDup (s ++ f) → NoDup ((s ++ [i]) ++ f).
Proof.
  intros Hi Hnd. rewrite <- app_assoc. simpl.
  rewrite <- Permutation_middle. by apply NoDup_cons.
Qed.

Lemma NoDup_push_r (s f : list nat) (i : nat) :
  i ∉ s ++ f → NoDup (s ++ f) → NoDup (s ++ f ++ [i]).
Proof.
  intros Hi Hnd. rewrite app_assoc.
  rewrite <- Permutation_cons_append. by apply NoDup_cons.
Qed.

Lemma summaries_none (out : list Event) e s f :
  summaries out = 0 → Summary e s f ∉ out.
Proof.
  intros H0 Hin. pose proof (countIf_pos isSummary out _ Hin eq_refl) as Hp.
  unfold summaries in H0. lia.
Qed.


Lemma recorded_insert (l : list JobState) (i : nat) js js' (s f s' f' : list nat) :
  l !! i = Some js → fulfilled js = false →
  (∀ j, j ∈ s ++ f ↔ l !! j = Some Fulfilled) →
  (∀ j, j ∈ s' ++ f' ↔ j ∈ s ++ f ∨ (j = i ∧ js' = Fulfilled)) →
  ∀ j, j ∈ s' ++ f' ↔ <[i:=js']> l !! j = Some Fulfilled.
Proof.
  intros Hi Hnf Hrec Hnew j.
  rewrite Hnew, Hrec, list_lookup_insert_Some.
  apply lookup_lt_Some in Hi as Hlt.
  destruct (decide (i = j)) as [->|Hne].
  - split; [|naive_solver].
    intros [H|[_ ->]]; [|naive_solver]. rewrite Hi in H. by simplify_eq/=.
  - naive_solver.
Qed.

Lemma Inv_step tracks schedule r i w r' :
  Inv tracks schedule r →
  step tracks i w r = Some r' →
  Inv tracks (schedule ++ [(i, w)]) r'.
Proof.
  intros HI Hstep.
  destruct (step_cases _ _ _ _ _ Hstep) as (js & Hjs & Hi & Hcase).
  pose proof (inv_job _ _ _ HI _ _ Hjs) as Hjob.
  assert (Hnf : fulfilled js = false) by (by destruct Hcase).
  pose proof (countIf_lt fulfilled _ _ _ Hjs Hnf) as Hlt.
  pose proof (inv_tally _ _ _ HI) as Htally.
  pose proof (inv_jobs _ _ _ HI) as Hlen.
  pose proof (inv_expected _ _ _ HI) as Hexp.
  assert (Hnot : i ∉ success (downloadStatus r) ++ failures (downloadStatus r)).
  { intros Hin. apply (inv_recorded _ _ _ HI) in Hin. by simplify_eq/=. }
  assert (Hcount : ∀ js', countIf fulfilled (<[i:=js']> (jobs r))
                          = countIf fulfilled (jobs r) + (if fulfilled js' then 1 else 0)).
  { intros js'. pose proof (countIf_insert fulfilled _ _ _ js' Hjs) as H.
    rewrite Hnf in H. lia. }
  destruct Hcase as [Hmay|track a Htrack|a e Hne|track a e Htrack Hmax|a Ha|a Ha];
    [| | | | |simpl in Hjob; lia].
  all: split; simpl;
    rewrite ?finallyBlock_jobs, ?finallyBlock_status; simpl.
  all: try (rewrite length_insert; done).
  all: try done.
  all: try (rewrite ?length_app, Hcount; simpl; lia).
  all: try exact (inv_nodup _ _ _ HI).
  all: try (apply NoDup_push_l || apply NoDup_push_r; [done|exact (inv_nodup _ _ _ HI)]).
  all: try (eapply recorded_insert; [exact Hjs|exact Hnf|exact (inv_recorded _ _ _ HI)|];
            intros j; rewrite ?elem_of_app, ?list_elem_of_singleton; naive_solver).
  all: rewrite ?finallyBlock_output; simpl; rewrite ?Hexp, ?length_app; simpl.
  all: intros j js' Hl;
       apply list_lookup_insert_Some in Hl as [(<- & <- & _)|(Hij & Hl)];
       [|pose proof (inv_job _ _ _ HI _ _ Hl) as Hj];
       unfold jobInv, calls, rejections, resolutions in *; simpl;
       rewrite ?finallyBlock_output, ?finallyBlock_status; simpl;
       rewrite ?countIf_app; simpl; rewrite ?countIf_app; simpl;
       rewrite ?countIf_app; simpl;
       repeat match goal with
              | |- context [?a <=? ?b] => destruct (Nat.leb_spec a b)
              end; simpl;
       rewrite ?bool_decide_true, ?bool_decide_false by done; simpl.
  all: unfold maxRetries in *.
  all: try (destruct js'; try done).
  all: destruct_and?; destruct_or?; destruct_and?;
       first [ split_and!; lia
             | left; split_and!; [lia..|set_solver]
             | right; split_and!; [lia..|set_solver] ].
Qed.

(** ** Runs *)

Lemma execute_snoc tracks schedule i w r :
  execute tracks (schedule ++ [(i, w)]) r
  = execute tracks schedule r ≫= step tracks i w.
Proof.
  revert r. induction schedule as [|[j v] schedule IH]; intros r; simpl.
  - by destruct (step tracks i w r).
  - destruct (step tracks j v r) as [r1|]; simpl; [apply IH|done].
Qed.

Lemma Inv_execute {isTTY} tracks schedule r :
  execute tracks schedule (startRun isTTY tracks) = Some r → Inv tracks schedule r.
Proof.
  revert r. induction schedule as [|[i w] schedule IH] using rev_ind; intros r.
  - intros [= <-]. apply Inv_start.
  - rewrite execute_snoc.
    destruct (execute tracks schedule (startRun isTTY tracks)) as [r0|] eqn:E; [|done].
    simpl. intros Hstep. eapply Inv_step; [by apply IH|done].
Qed.

(** ** The bar and the summary *)

Lemma finallyBlock_bar r :
  bar (finallyBlock r)
  = bar_update (length (success (downloadStatus r)) + length (failures (downloadStatus r)))
      (length (success (downloadStatus r))) (length (failures (downloadStatus r))) (bar r).
Proof. unfold finallyBlock. by case_match. Qed.

Lemma BarInv_start isTTY tracks : BarInv isTTY tracks (startRun isTTY tracks).
Proof.
  split; simpl.
  - by destruct isTTY.
  - by destruct isTTY.
  - destruct isTTY; [by left|by right].
  - destruct isTTY; simpl; [|done]. by destruct (length tracks).
  - by intros ??? ?%elem_of_nil.
  - done.
  - intros _. rewrite countIf_replicate. simpl. by destruct (length tracks).
  - by intros e s f _ ?%elem_of_nil.
Qed.

Lemma BarInv_step isTTY tracks schedule r i w r' :
  Inv tracks schedule r → BarInv isTTY tracks r →
  step tracks i w r = Some r' → BarInv isTTY tracks r'.
Proof.
  intros HI HB Hstep.
  destruct (step_cases _ _ _ _ _ Hstep) as (js & Hjs & Hi & Hcase).
  pose proof (inv_job _ _ _ HI _ _ Hjs) as Hjob.
  assert (Hnf : fulfilled js = false) by (by destruct Hcase).
  pose proof (countIf_lt fulfilled _ _ _ Hjs Hnf) as Hlt.
  pose proof (inv_tally _ _ _ HI) as Htally.
  pose proof (inv_jobs _ _ _ HI) as Hlen.
  pose proof (inv_expected _ _ _ HI) as Hexp.
  destruct HB as [Htot Hval Hpay Hact Hupd Hreach Hsum Hlast].
  assert (Hcount : ∀ js', countIf fulfilled (<[i:=js']> (jobs r))
                          = countIf fulfilled (jobs r) + (if fulfilled js' then 1 else 0)).
  { intros js'. pose proof (countIf_insert fulfilled _ _ _ js' Hjs) as H.
    rewrite Hnf in H. lia. }
  assert (Hpos : (0 <? length tracks) = true) by (apply Nat.ltb_lt; lia).
  assert (Hnz : (length tracks =? 0) = false) by (apply Nat.eqb_neq; lia).
  assert (Hnosum : isTTY = true → summaries (output r) = 0).
  { intros Ht. rewrite (Hsum Ht).
    destruct (countIf fulfilled (jobs r) =? length tracks) eqn:E.
    - apply Nat.eqb_eq in E. lia.
    - by rewrite andb_false_r. }
  destruct Hcase as [Hmay|track a Htrack|a e Hne|track a e Htrack Hmax|a Ha|a Ha];
    [| | | | |simpl in Hjob; lia].
  all: split; simpl;
    rewrite ?finallyBlock_jobs, ?finallyBlock_status, ?finallyBlock_bar,
      ?finallyBlock_output; simpl; rewrite ?length_app; simpl.
  all: try done.
  all: try (by left).
  all: try (rewrite Hact; destruct isTTY; [|by destruct (bar_total (bar r) <=? _)];
            rewrite Htot; simpl; rewrite ?Hnz; simpl;
            repeat match goal with
                   | |- context [?a <=? ?b] => destruct (Nat.leb_spec a b)
                   | |- context [?a <? ?b] => destruct (Nat.ltb_spec a b)
                   end; simpl; try done; lia).
  all: try (intros v s f Hin;
            repeat match goal with
                   | H : context [?a <=? ?b] |- _ => destruct (Nat.leb_spec a b)
                   end;
            set_unfold in Hin; destruct_or!; simplify_eq; try done;
            try (destruct (Hupd _ _ _ Hin)); lia).
  all: try (unfold summaries in *; rewrite ?countIf_app; simpl; rewrite ?countIf_app; simpl;
            rewrite Hreach;
            repeat match goal with
                   | |- context [?a <=? ?b] => destruct (Nat.leb_spec a b)
                   end; simpl; lia).
  all: try (intros Ht; specialize (Hnosum Ht); rewrite Ht in Htot;
            unfold summaries in *; rewrite ?countIf_app; simpl; rewrite ?countIf_app; simpl;
            rewrite Hnosum, Hcount, Hpos, ?Htot; simpl;
            repeat match goal with
                   | |- context [?a <=? ?b] => destruct (Nat.leb_spec a b)
                   | |- context [?a =? ?b] => destruct (Nat.eqb_spec a b)
                   end; simpl; lia).
  all: intros e0 s0 f0 Ht Hin; specialize (Hnosum Ht); rewrite Ht in Htot;
       rewrite ?Htot, ?Hexp in *;
       pose proof (summaries_none _ e0 s0 f0 Hnosum) as Hno;
       repeat match goal with
              | H : context [?a <=? ?b] |- _ => destruct (Nat.leb_spec a b)
              end;
       set_unfold in Hin; destruct_or!; simplify_eq; try done;
       rewrite !last_app; simpl; split_and!; try done; lia.
Qed.

Lemma BarInv_execute isTTY tracks schedule r :
  execute tracks schedule (startRun isTTY tracks) = Some r → BarInv isTTY tracks r.
Proof.
  revert r. induction schedule as [|[i w] schedule IH] using rev_ind; intros r.
  - intros [= <-]. apply BarInv_start.
  - rewrite execute_snoc.
    destruct (execute tracks schedule (startRun isTTY tracks)) as [r0|] eqn:E; [|done].
    simpl. intros Hstep. eapply BarInv_step; [by eapply Inv_execute|by apply IH|done].
Qed.

(** No thunk is ever rejected, so a settled thunk is a fulfilled one. *)
Lemma Inv_not_rejected tracks schedule r i e :
  Inv tracks schedule r → jobs r !! i ≠ Some (Rejected e).
Proof. intros HI Hl. exact (inv_job _ _ _ HI _ _ Hl). Qed.

Lemma Inv_settled tracks schedule r :
  Inv tracks schedule r → forallb settled (jobs r) = forallb fulfilled (jobs r).
Proof.
  intros HI.
  assert (H : ∀ js, js ∈ jobs r → settled js = fulfilled js).
  { intros js [i Hl]%list_elem_of_lookup. destruct js; try done.
    by apply Inv_not_rejected with (i := i) (e := e) in HI. }
  induction (jobs r) as [|js l IH]; [done|]. simpl.
  rewrite IH, (H js); [done| |]; [|intros; apply H]; set_solver.
Qed.

Lemma Inv_complete tracks schedule r :
  Inv tracks schedule r →
  complete r = true ↔ countIf fulfilled (jobs r) = length tracks.
Proof.
  intros HI. unfold complete. rewrite (Inv_settled _ _ _ HI).
  rewrite <- (inv_jobs _ _ _ HI). symmetry. apply countIf_all.
Qed.

(** Claim C1. In every state a run can reach, [expectedCount] is the number
    of tracks of the resource and [success] and [failures] together hold at
    most that many entries; they hold exactly that many when, and only
    when, every job has settled. *)
Theorem tally_never_exceeds_expected isTTY tracks schedule r :
  execute tracks schedule (startRun isTTY tracks) = Some r →
  let st := downloadStatus r in
  expectedCount st = length tracks
  ∧ length (success st) + length (failures st) ≤ expectedCount st
  ∧ (complete r = true ↔ length (success st) + length (failures st) = expectedCount st).
Proof.
  intros Hr. apply Inv_execute in Hr as HI. simpl.
  rewrite (inv_expected _ _ _ HI), (inv_tally _ _ _ HI).
  split_and!; [done| |exact (Inv_complete _ _ _ HI)].
  rewrite <- (inv_jobs _ _ _ HI). apply countIf_le.
Qed.

Lemma tally_never_exceeds_expected_witness :
  execute demoTracks demoSchedule (startRun true demoTracks) = Some demoRun
  ∧ expectedCount (downloadStatus demoRun) = length demoTracks
  ∧ length (success (downloadStatus demoRun)) + length (failures (downloadStatus demoRun))
    ≤ expectedCount (downloadStatus demoRun).
Proof.
  split; [reflexivity|].
  pose proof (tally_never_exceeds_expected true demoTracks demoSchedule demoRun eq_refl) as H.
  exact (conj (proj1 H) (proj1 (proj2 H))).
Defined.

Example tally_midway :
  length (success (downloadStatus demoEarly)) + length (failures (downloadStatus demoEarly)) = 0
  ∧ complete demoEarly = false.
Proof. split; reflexivity. Qed.

(** References are positions of [data.tracks]. *)
Lemma Inv_recorded_seq tracks schedule r :
  Inv tracks schedule r → complete r = true →
  success (downloadStatus r) ++ failures (downloadStatus r) ≡ₚ seq 0 (length tracks).
Proof.
  intros HI Hc. apply NoDup_Permutation.
  - exact (inv_nodup _ _ _ HI).
  - apply NoDup_seq.
  - intros i. rewrite (inv_recorded _ _ _ HI), elem_of_seq.
    unfold complete in Hc. rewrite (Inv_settled _ _ _ HI) in Hc.
    rewrite <- (inv_jobs _ _ _ HI). split.
    + intros ?%lookup_lt_Some. lia.
    + intros [_ Hlt]. simpl in Hlt.
      destruct (lookup_lt_is_Some_2 _ _ Hlt) as [js Hjs]. rewrite Hjs. f_equal.
      rewrite forallb_forall in Hc.
      specialize (Hc js). destruct js; try done; exfalso;
        (assert (In _ (jobs r)) as Hin by (apply list_elem_of_In, list_elem_of_lookup; eauto));
        by specialize (Hc Hin).
Qed.

Lemma omap_fmap_compose {A B C} (f : B → option C) (g : A → B) (l : list A) :
  omap f (g <$> l) = omap (f ∘ g) l.
Proof. induction l as [|x l IH]; csimpl; [done|]. by rewrite IH. Qed.

Lemma deref_seq tracks : deref tracks (seq 0 (length tracks)) = tracks.
Proof.
  unfold deref. induction tracks as [|t tracks IH]; [done|].
  csimpl. rewrite <- fmap_S_seq, omap_fmap_compose. by rewrite <- IH at 2.
Qed.

(** At completion the recorded tracks are the tracks of the resource, each
    as often as the resource lists it. *)
Lemma recorded_tracks tracks schedule r :
  Inv tracks schedule r → complete r = true →
  deref tracks (success (downloadStatus r)) ++ deref tracks (failures (downloadStatus r))
  ≡ₚ tracks.
Proof.
  intros HI Hc. unfold deref. rewrite <- omap_app.
  rewrite (Inv_recorded_seq _ _ _ HI Hc). apply reflexive_eq, deref_seq.
Qed.

(** Claim C2. When every job has settled, the object of each track of the
    resource is in exactly one of [success] and [failures]; no object is
    recorded twice, nothing else is recorded, and the recorded tracks are
    the tracks of the resource, each as often as the resource lists it. *)
Theorem each_track_one_outcome isTTY tracks schedule r :
  execute tracks schedule (startRun isTTY tracks) = Some r →
  complete r = true →
  let st := downloadStatus r in
  (∀ i track, tracks !! i = Some track →
     (i ∈ success st ∧ i ∉ failures st) ∨ (i ∈ failures st ∧ i ∉ success st))
  ∧ NoDup (success st ++ failures st)
  ∧ (∀ i, i ∈ success st ++ failures st → i < length tracks)
  ∧ deref tracks (success st) ++ deref tracks (failures st) ≡ₚ tracks.
Proof.
  intros Hr Hc. apply Inv_execute in Hr as HI. simpl.
  pose proof (Inv_recorded_seq _ _ _ HI Hc) as Hperm.
  pose proof (inv_nodup _ _ _ HI) as Hnd.
  split_and!.
  - intros i track Hi%lookup_lt_Some.
    assert (i ∈ success (downloadStatus r) ++ failures (downloadStatus r)) as Hin.
    { rewrite Hperm, elem_of_seq. lia. }
    apply NoDup_app in Hnd as (_ & Hdisj & _).
    apply elem_of_app in Hin as [Hin|Hin]; [left|right]; split; try done.
    + by apply Hdisj.
    + intros Hs. by apply (Hdisj i).
  - done.
  - intros i. rewrite Hperm, elem_of_seq. lia.
  - by apply (recorded_tracks _ schedule).
Qed.

Lemma each_track_one_outcome_witness :
  execute demoTracks demoSchedule (startRun true demoTracks) = Some demoRun
  ∧ complete demoRun = true
  ∧ NoDup (success (downloadStatus demoRun) ++ failures (downloadStatus demoRun)).
Proof.
  split; [reflexivity|]. split; [reflexivity|].
  exact (proj1 (proj2
    (each_track_one_outcome true demoTracks demoSchedule demoRun eq_refl eq_refl))).
Defined.

Example outcome_demo :
  success (downloadStatus demoRun) = [1] ∧ failures (downloadStatus demoRun) = [0].
Proof. split; reflexivity. Qed.

(** The summary is not printed in every complete run, not even on a
    terminal: a resource without tracks has no job, and only a job's
    [finally] block prints it. *)
Lemma summary_not_printed_for_empty_resource :
  ¬ (∀ tracks schedule r,
       execute tracks schedule (startRun true tracks) = Some r →
       complete r = true →
       summaries (output r) = 1).
Proof.
  intros H. specialize (H [] [] (startRun true []) eq_refl eq_refl). discriminate H.
Qed.

(** Claim C3, as amended. When stderr is a terminal, so that
    [mulbar.create] has started the bar with the number of tracks as its
    total: in every state a run can reach the summary has been printed at
    most once, and it has been printed exactly when every job has settled
    and the resource has at least one track. A printed summary is the last
    thing printed, shows the number of tracks and the final success and
    failure counts, and these two add up to [expectedCount]. *)
Theorem summary_once_all_settled tracks schedule r :
  execute tracks schedule (startRun true tracks) = Some r →
  let st := downloadStatus r in
  summaries (output r) ≤ 1
  ∧ (summaries (output r) = 1 ↔ complete r = true ∧ tracks ≠ [])
  ∧ (∀ e s f, Summary e s f ∈ output r →
       complete r = true
       ∧ last (output r) = Some (Summary e s f)
       ∧ e = expectedCount st ∧ s = length (success st) ∧ f = length (failures st)
       ∧ s + f = expectedCount st).
Proof.
  intros Hr. apply Inv_execute in Hr as HI. apply BarInv_execute in Hr as HB. simpl.
  pose proof (bar_inv_summary _ _ _ HB eq_refl) as Hsum.
  pose proof (Inv_complete _ _ _ HI) as Hc.
  assert (Hone : summaries (output r) = 1 ↔ complete r = true ∧ tracks ≠ []).
  { rewrite Hsum, Hc.
    destruct (Nat.ltb_spec 0 (length tracks)) as [Hn|Hn],
             (Nat.eqb_spec (countIf fulfilled (jobs r)) (length tracks)) as [Hf|Hf];
      simpl; destruct tracks; simpl in *; split; try done; try lia; naive_solver. }
  split_and!.
  - rewrite Hsum. case_match; lia.
  - done.
  - intros e s f Hin.
    destruct (bar_inv_last _ _ _ HB _ _ _ eq_refl Hin) as (Hl & -> & -> & ->).
    pose proof (countIf_pos isSummary _ _ Hin eq_refl) as Hp.
    assert (summaries (output r) = 1) as H1.
    { unfold summaries in *. rewrite Hsum. rewrite Hsum in Hp. case_match; [done|lia]. }
    apply Hone in H1 as [Hcomp _].
    rewrite (inv_expected _ _ _ HI), (inv_tally _ _ _ HI).
    split_and!; try done. by apply Hc.
Qed.

Lemma summary_once_all_settled_witness :
  execute demoTracks demoSchedule (startRun true demoTracks) = Some demoRun
  ∧ summaries (output demoRun) ≤ 1
  ∧ (summaries (output demoRun) = 1 ↔ complete demoRun = true ∧ demoTracks ≠ []).
Proof.
  split; [reflexivity|].
  pose proof (summary_once_all_settled demoTracks demoSchedule demoRun eq_refl) as H.
  exact (conj (proj1 H) (proj1 (proj2 H))).
Defined.

Example summary_demo :
  last (output demoRun) = Some (Summary 2 1 1) ∧ summaries (output demoEarly) = 0.
Proof. split; reflexivity. Qed.

(** What a step does to the job and to [downloadStatus] when a call of
    [downloadTrack] throws: on the last attempt the track goes to
    [failures] and the thunk ends; before, nothing is recorded and the job
    waits for its delay. *)
Lemma step_download_rejected tracks i a e r track :
  tracks !! i = Some track →
  jobs r !! i = Some (AwaitDownload a) →
  ∃ r', step tracks i (DownloadRejected e) r = Some r'
    ∧ if S a =? maxRetries
      then jobs r' !! i = Some Fulfilled
           ∧ failures (downloadStatus r') = failures (downloadStatus r) ++ [i]
           ∧ success (downloadStatus r') = success (downloadStatus r)
           ∧ calls i (output r') = calls i (output r)
      else jobs r' !! i = Some (AwaitDelay (S a))
           ∧ downloadStatus r' = downloadStatus r.
Proof.
  intros Ht Hj. apply lookup_lt_Some in Hj as Hlt.
  unfold step. rewrite Ht, Hj. simpl. unfold catchClause. simpl.
  destruct (Nat.eqb_spec a 4) as [->|Hm]; simpl.
  - eexists. split; [reflexivity|]. simpl.
    rewrite finallyBlock_jobs, finallyBlock_status, finallyBlock_output. simpl.
    rewrite list_lookup_insert_eq by done.
    split_and!; try done.
    unfold calls. rewrite !countIf_app. simpl. case_match; simpl; lia.
  - eexists. split; [reflexivity|]. simpl.
    rewrite list_lookup_insert_eq by done. done.
Qed.

(** When a call of [downloadTrack] returns, whatever the number of earlier
    failed attempts, the track goes to [success] and the thunk ends. *)
Lemma step_download_resolved tracks i a r track :
  tracks !! i = Some track →
  jobs r !! i = Some (AwaitDownload a) →
  ∃ r', step tracks i DownloadResolved r = Some r'
    ∧ jobs r' !! i = Some Fulfilled
    ∧ success (downloadStatus r') = success (downloadStatus r) ++ [i]
    ∧ failures (downloadStatus r') = failures (downloadStatus r)
    ∧ calls i (output r') = calls i (output r).
Proof.
  intros Ht Hj. apply lookup_lt_Some in Hj as Hlt.
  unfold step. rewrite Ht, Hj. simpl.
  eexists. split; [reflexivity|]. simpl.
  rewrite finallyBlock_jobs, finallyBlock_status, finallyBlock_output. simpl.
  rewrite list_lookup_insert_eq by done.
  split_and!; try done.
  unfold calls. rewrite !countIf_app. simpl. case_match; simpl; lia.
Qed.

Lemma addAllOutcome_not_rejected tracks schedule r e :
  Inv tracks schedule r → addAllOutcome r ≠ SomeRejected e.
Proof.
  intros HI. unfold addAllOutcome.
  assert (omap rejection (jobs r) = []) as ->.
  { apply list_eq. intros k. rewrite lookup_nil.
    destruct (omap rejection (jobs r) !! k) as [e'|] eqn:Hk; [|done].
    apply list_elem_of_lookup_2, list_elem_of_omap in Hk as (js & Hin & Hrej).
    apply list_elem_of_lookup in Hin as [i Hi].
    destruct js; simplify_eq/=. by apply (Inv_not_rejected _ _ _ i e') in HI. }
  by case_match.
Qed.

(** Claim C4. [maxRetries] is 5 and, in every state a run can reach:
    [downloadTrack] has been called at most 5 times for each track; a
    track in [failures] had 5 calls, all of which threw, and its job has
    ended; a track in [success] had one call that returned, after fewer
    than 5 that threw, and is not in [failures]; a job waiting for its
    download records a success whenever the call returns, whatever the
    number of earlier failures, records a failure and ends when the call
    throws on the fifth attempt, and records nothing when it throws
    earlier; no thunk is ever rejected, so [queue.addAll] never rejects. *)
Theorem retries_bounded_and_contained isTTY tracks schedule r :
  execute tracks schedule (startRun isTTY tracks) = Some r →
  let st := downloadStatus r in
  maxRetries = 5
  ∧ (∀ i track, tracks !! i = Some track → calls i (output r) ≤ maxRetries)
  ∧ (∀ i, i ∈ failures st →
       jobs r !! i = Some Fulfilled
       ∧ rejections i schedule = maxRetries ∧ resolutions i schedule = 0
       ∧ calls i (output r) = maxRetries)
  ∧ (∀ i, i ∈ success st →
       jobs r !! i = Some Fulfilled
       ∧ resolutions i schedule = 1 ∧ rejections i schedule < maxRetries
       ∧ calls i (output r) = S (rejections i schedule)
       ∧ i ∉ failures st)
  ∧ (∀ i a track e, tracks !! i = Some track → jobs r !! i = Some (AwaitDownload a) →
       a < maxRetries ∧ rejections i schedule = a
       ∧ (∃ r', step tracks i DownloadResolved r = Some r'
            ∧ jobs r' !! i = Some Fulfilled
            ∧ success (downloadStatus r') = success st ++ [i]
            ∧ failures (downloadStatus r') = failures st)
       ∧ (∃ r', step tracks i (DownloadRejected e) r = Some r'
            ∧ if S a =? maxRetries
              then jobs r' !! i = Some Fulfilled
                   ∧ failures (downloadStatus r') = failures st ++ [i]
                   ∧ success (downloadStatus r') = success st
                   ∧ calls i (output r') = calls i (output r)
              else jobs r' !! i = Some (AwaitDelay (S a))
                   ∧ downloadStatus r' = st))
  ∧ (∀ i e, jobs r !! i ≠ Some (Rejected e))
  ∧ (∀ e, addAllOutcome r ≠ SomeRejected e).
Proof.
  intros Hr. apply Inv_execute in Hr as HI. simpl.
  pose proof (inv_job _ _ _ HI) as Hjob.
  pose proof (inv_recorded _ _ _ HI) as Hrec.
  pose proof (inv_nodup _ _ _ HI) as Hnd.
  apply NoDup_app in Hnd as (_ & Hdisj & _).
  split_and!.
  - done.
  - intros i track Hi%lookup_lt_Some. rewrite <- (inv_jobs _ _ _ HI) in Hi.
    destruct (lookup_lt_is_Some_2 _ _ Hi) as [js Hl].
    specialize (Hjob _ _ Hl). unfold jobInv in Hjob.
    destruct js; try done; unfold maxRetries in *; naive_solver lia.
  - intros i Hin.
    assert (jobs r !! i = Some Fulfilled) as Hl by (apply Hrec; set_solver).
    specialize (Hjob _ _ Hl). simpl in Hjob.
    destruct Hjob as [(_ & _ & _ & Hs)|?]; [|naive_solver].
    by apply Hdisj in Hs.
  - intros i Hin.
    assert (jobs r !! i = Some Fulfilled) as Hl by (apply Hrec; set_solver).
    specialize (Hjob _ _ Hl). simpl in Hjob.
    destruct Hjob as [?|(_ & _ & _ & Hf)]; [|by apply Hdisj in Hin].
    split_and!; naive_solver.
  - intros i a track e Ht Hl.
    specialize (Hjob _ _ Hl). simpl in Hjob. destruct Hjob as (_ & Ha & Hrej & _).
    destruct (step_download_resolved _ _ _ _ _ Ht Hl) as (r1 & ? & ? & ? & ? & _).
    destruct (step_download_rejected _ _ _ e _ _ Ht Hl) as (r2 & ? & ?).
    split_and!; eauto 10.
  - intros i e. by apply (Inv_not_rejected tracks schedule).
  - intros e. by apply (addAllOutcome_not_rejected tracks schedule).
Qed.

Lemma retries_bounded_and_contained_witness :
  execute demoTracks demoSchedule (startRun true demoTracks) = Some demoRun
  ∧ maxRetries = 5
  ∧ (∀ i track, demoTracks !! i = Some track → calls i (output demoRun) ≤ maxRetries).
Proof.
  split; [reflexivity|].
  pose proof (retries_bounded_and_contained true demoTracks demoSchedule demoRun eq_refl) as H.
  exact (conj (proj1 H) (proj1 (proj2 H))).
Defined.

Example retries_demo :
  calls 0 (output demoRun) = 5 ∧ rejections 0 demoSchedule = 5
  ∧ calls 1 (output demoRun) = 2 ∧ rejections 1 demoSchedule = 1
  ∧ addAllOutcome demoRun = AllFulfilled.
Proof. repeat split; reflexivity. Qed.

(** ** Every run ends *)

Lemma sum_list_insert (f : JobState → nat) (l : list JobState) i x y :
  l !! i = Some x →
  sum_list (f <$> <[i:=y]> l) + f x = sum_list (f <$> l) + f y.
Proof.
  revert i. induction l as [|z l IH]; intros [|i] Hi; simplify_eq/=.
  - lia.
  - specialize (IH _ Hi). lia.
Qed.

Lemma step_potential tracks schedule i w r r' :
  Inv tracks schedule r →
  step tracks i w r = Some r' →
  potential r' < potential r.
Proof.
  intros HI Hstep.
  destruct (step_cases _ _ _ _ _ Hstep) as (js & Hjs & Hi & Hcase).
  pose proof (inv_job _ _ _ HI _ _ Hjs) as Hjob.
  unfold potential.
  destruct Hcase; simpl; rewrite ?finallyBlock_jobs; simpl;
    match goal with
    | |- context [<[_:=?y]> _] =>
        pose proof (sum_list_insert remaining _ _ _ y Hjs) as Hsum
    end; simpl in *; unfold maxRetries in *; lia.
Qed.

Lemma execute_bounded {isTTY} tracks schedule r :
  execute tracks schedule (startRun isTTY tracks) = Some r →
  length schedule + potential r ≤ 2 * maxRetries * length tracks.
Proof.
  revert r. induction schedule as [|[i w] schedule IH] using rev_ind; intros r.
  - intros [= <-]. unfold potential. simpl.
    rewrite fmap_replicate, sum_list_replicate. cbn [remaining length].
    unfold maxRetries. lia.
  - rewrite execute_snoc.
    destruct (execute tracks schedule (startRun isTTY tracks)) as [r0|] eqn:E; [|done].
    simpl. intros Hstep. specialize (IH _ eq_refl).
    pose proof (step_potential _ _ _ _ _ _ (Inv_execute _ _ _ E) Hstep).
    rewrite length_app. unfold maxRetries in *. simpl in *. lia.
Qed.

(** A run that is not complete is never stuck: a suspended job can be woken
    and, when none is suspended, the queue starts the next thunk. *)
Lemma run_can_proceed tracks schedule r :
  Inv tracks schedule r →
  complete r = false →
  ∃ i w r', step tracks i w r = Some r'.
Proof.
  intros HI Hnc.
  assert (Htrack : ∀ i js, jobs r !! i = Some js → ∃ track, tracks !! i = Some track).
  { intros i js Hl%lookup_lt_Some. rewrite (inv_jobs _ _ _ HI) in Hl.
    by apply lookup_lt_is_Some_2. }
  destruct (list_find (λ js, running js = true) (jobs r)) as [[i js]|] eqn:Hrun.
  - apply list_find_Some in Hrun as (Hl & Hr & _).
    destruct (Htrack _ _ Hl) as [track Ht].
    destruct js; try done.
    + destruct (step_download_resolved _ _ _ _ _ Ht Hl) as (r' & ? & _). eauto.
    + exists i, TimerFired. unfold step. rewrite Ht, Hl. simpl.
      destruct (loopHead _ _ _). eauto.
  - apply list_find_None in Hrun.
    destruct (list_find (λ js, js = Queued) (jobs r)) as [[i js]|] eqn:Hq.
    + apply list_find_Some in Hq as (Hl & -> & Hfirst).
      destruct (Htrack _ _ Hl) as [track Ht].
      exists i, Start. unfold step. rewrite Ht, Hl. simpl.
      assert (mayStart i r = true) as ->; [|simpl; eauto].
      unfold mayStart. apply andb_true_intro. split.
      * rewrite countIf_zero; [done|].
        intros js Hin. rewrite Forall_forall in Hrun.
        specialize (Hrun _ Hin). by destruct (running js).
      * apply forallb_forall. intros js Hin.
        apply list_elem_of_In, list_elem_of_lookup in Hin as [j Hj].
        apply lookup_take_Some in Hj as [Hj Hlt].
        specialize (Hfirst _ _ Hj Hlt). by destruct js.
    + apply list_find_None in Hq. exfalso.
      assert (complete r = true); [|congruence].
      apply forallb_forall. intros js Hin%list_elem_of_In.
      rewrite Forall_forall in Hrun, Hq.
      specialize (Hrun _ Hin). specialize (Hq _ Hin). by destruct js.
Qed.

(** From every state of a run a complete state can be reached, within the
    wake-ups the jobs can still take. *)
Lemma run_can_complete {isTTY} tracks schedule r :
  execute tracks schedule (startRun isTTY tracks) = Some r →
  ∃ more r', execute tracks (schedule ++ more) (startRun isTTY tracks) = Some r'
    ∧ complete r' = true.
Proof.
  remember (potential r) as n eqn:Hn.
  revert schedule r Hn. induction n as [n IH] using lt_wf_ind. intros schedule r -> Hr.
  destruct (complete r) eqn:Hc.
  - exists [], r. by rewrite app_nil_r.
  - pose proof (Inv_execute _ _ _ Hr) as HI.
    destruct (run_can_proceed _ _ _ HI Hc) as (i & w & r1 & Hstep).
    pose proof (step_potential _ _ _ _ _ _ HI Hstep) as Hlt.
    assert (execute tracks (schedule ++ [(i, w)]) (startRun isTTY tracks) = Some r1) as Hr1.
    { rewrite execute_snoc, Hr. done. }
    destruct (IH _ Hlt _ _ eq_refl Hr1) as (more & r' & Hex & Hc').
    exists ((i, w) :: more), r'. split; [|done].
    by rewrite cons_middle, app_assoc.
Qed.

(** ** A resource without tracks *)

Lemma step_needs_track tracks i w r : tracks !! i = None → step tracks i w r = None.
Proof. intros H. unfold step. by rewrite H. Qed.

Lemma execute_no_tracks schedule r r' :
  execute [] schedule r = Some r' → schedule = [] ∧ r' = r.
Proof.
  destruct schedule as [|[i w] rest]; [by intros [= <-]|].
  cbn [execute]. by rewrite step_needs_track.
Qed.

Section EmptyResource.
Variable sanitizeFilename : string → string.
Variable pathResolve : string → string.
Variable parents : string → list string.
Variable ensureDirError : FS → string → option (string * nat).

(** Once the URL is parsed and the resource resolved, the handler goes on
    with the directory and the queue. *)
Lemma handler_resolved isTTY newURL net fuel url customPath type rid data p p1 fs :
  parseSpotifyUrl newURL url = Ok (type, rid) →
  getSpotifyResource net fuel type rid p = (Some (Ok data), p1) →
  handler isTTY newURL net sanitizeFilename pathResolve parents ensureDirError
    fuel url customPath p fs
  = prepare isTTY sanitizeFilename pathResolve parents ensureDirError customPath data p1 fs.
Proof. intros Hparse Hres. unfold handler. by rewrite Hparse, Hres. Qed.

(** Claim C10, as amended. For a resolved resource without tracks, when
    the directory can be created: the handler creates it, writes no file,
    and reaches [queue.addAll] with [expectedCount] 0 and no thunk; the
    promise of [queue.addAll] is fulfilled at once, so the handler returns
    without reporting an error; no step is possible, so [downloadTrack]
    is never called and the summary is never printed; and when stderr is
    not a terminal nothing is pending then, so the process ends. *)
Theorem empty_resource_no_download_no_summary isTTY customPath data p fs :
  resource_tracks data = [] →
  ensureDirError fs (fullPathOf sanitizeFilename pathResolve customPath data) = None →
  ∃ p' fs',
    prepare isTTY sanitizeFilename pathResolve parents ensureDirError customPath data p fs
      = Enqueued (fullPathOf sanitizeFilename pathResolve customPath data) p' fs'
          (startRun isTTY [])
    ∧ fullPathOf sanitizeFilename pathResolve customPath data ∈ dirs fs'
    ∧ files fs' = files fs
    ∧ expectedCount (downloadStatus (startRun isTTY [])) = 0
    ∧ handlerEnd p' (startRun isTTY []) = Some p'
    ∧ (∀ schedule r,
         execute (resource_tracks data) schedule (startRun isTTY []) = Some r →
         schedule = [] ∧ r = startRun isTTY [] ∧ output r = []
         ∧ (∀ i, calls i (output r) = 0) ∧ summaries (output r) = 0
         ∧ (isTTY = false → processEnds r = true)).
Proof.
  intros Hempty Hdir. unfold prepare, ensureDir. rewrite Hdir, Hempty.
  eexists _, _. split; [reflexivity|]. simpl.
  split_and!; try done.
  - set_solver.
  - intros schedule r [-> ->]%execute_no_tracks. split_and!; try done. by intros ->.
Qed.
End EmptyResource.

Lemma empty_resource_no_download_no_summary_witness :
  resource_tracks demoEmptyPlaylist = []
  ∧ ∃ p' fs',
      prepare false (λ s, s) (λ s, s) demoParents (λ _ _, None) "/home/ann/Downloads"
        demoEmptyPlaylist startProcess emptyDisk
      = Enqueued "/home/ann/Downloads/spotify-dl/playlists/Ann - Empty" p' fs'
          (startRun false [])
      ∧ "/home/ann/Downloads/spotify-dl/playlists/Ann - Empty" ∈ dirs fs'
      ∧ processEnds (startRun false []) = true.
Proof.
  split; [reflexivity|].
  destruct (empty_resource_no_download_no_summary (λ s, s) (λ s, s) demoParents (λ _ _, None)
              false "/home/ann/Downloads" demoEmptyPlaylist startProcess emptyDisk
              eq_refl eq_refl) as (p' & fs' & Hprep & Hdir & _ & _ & _ & Hrun).
  exists p', fs'. split; [exact Hprep|]. split; [exact Hdir|].
  exact (proj2 (proj2 (proj2 (proj2 (proj2 (Hrun [] _ eq_refl))))) eq_refl).
Defined.

(** On a terminal the run of a resource without tracks does not end. The
    handler returns as above, but the bar that [mulbar.create(0, 0, ...)]
    has started is active, no job exists that would update it, so it is
    never stopped, and the redraw timer of the [MultiBar] stays set in
    every state the run can reach. *)
Lemma empty_resource_on_terminal_never_ends :
  (∃ p' fs',
     prepare true (λ s, s) (λ s, s) demoParents (λ _ _, None) "/home/ann/Downloads"
       demoEmptyPlaylist startProcess emptyDisk
     = Enqueued "/home/ann/Downloads/spotify-dl/playlists/Ann - Empty" p' fs'
         (startRun true [])
     ∧ handlerEnd p' (startRun true []) = Some p')
  ∧ (∀ schedule r,
       execute (resource_tracks demoEmptyPlaylist) schedule (startRun true []) = Some r →
       redrawTimer r = true ∧ processEnds r = false).
Proof.
  split.
  - eexists _, _. split; reflexivity.
  - by intros schedule r [-> ->]%execute_no_tracks.
Qed.

(* ===================================================================== *)
(** * Further properties *)
(* ===================================================================== *)

(** ** More on the resolver *)

Lemma getTrack_wellShaped item t : getTrack item = Ok t → wellShaped item = true.
Proof.
  unfold getTrack, wellShaped. destruct (truthy (item_id item)).
  - destruct (item_artists item); [|done]. intros _. by apply bool_decide_eq_true.
  - destruct (item_track item) as [tr|]; [|done].
    destruct (track_artists tr); [|done]. intros _. by apply bool_decide_eq_true.
Qed.

Lemma getTrack_throws item e : getTrack item = Throw e → isTypeError e = true.
Proof.
  unfold getTrack. destruct (truthy (item_id item)).
  - destruct (item_artists item); simpl; [done|]. by intros [= <-].
  - destruct (item_track item) as [tr|]; [|by intros [= <-]].
    destruct (track_artists tr); simpl; [done|]. by intros [= <-].
Qed.

Lemma getTracks_Ok_wellShaped items tracks :
  getTracks items = Ok tracks → Forall (λ item, wellShaped item = true) items.
Proof.
  revert tracks. induction items as [|item items IH]; intros tracks Hts; [constructor|].
  simpl in Hts. destruct (getTrack item) as [t|] eqn:Ht; [|done].
  destruct (getTracks items) as [ts|] eqn:Hrest; [|done].
  constructor; [by eapply getTrack_wellShaped|by eapply IH].
Qed.

(** Property X1. [getTracks] returns a list exactly when every item is flat
    or wrapped: a single item of another shape (an entry whose [track] is
    missing, an item without [artists]) makes the whole call throw, and
    what it throws is a [TypeError]. *)
Theorem getTracks_all_or_nothing items :
  ((∃ tracks, getTracks items = Ok tracks)
   ↔ Forall (λ item, wellShaped item = true) items)
  ∧ (∀ e, getTracks items = Throw e →
       isTypeError e = true ∧ Exists (λ item, wellShaped item = false) items).
Proof.
  split.
  - split.
    + intros [tracks Hts]. by eapply getTracks_Ok_wellShaped.
    + induction 1 as [|item items Hitem _ [tracks Hts]]; [by exists []|].
      destruct (getTrack_normalizes _ Hitem) as (t & Ht & _).
      exists (t :: tracks). simpl. by rewrite Ht, Hts.
  - induction items as [|item items IH]; intros e; simpl; [done|].
    destruct (getTrack item) as [t|e'] eqn:Ht; simpl.
    + destruct (getTracks items) as [ts|e''] eqn:Hrest; simpl; [done|].
      intros [= <-]. destruct (IH e'' eq_refl) as [Herr Hex].
      split; [done|]. by apply Exists_cons_tl.
    + intros [= <-]. split; [by eapply getTrack_throws|].
      apply Exists_cons_hd. destruct (wellShaped item) eqn:Hw; [|done].
      destruct (getTrack_normalizes _ Hw) as (t & Ht' & _). congruence.
Qed.

Lemma getTracks_all_or_nothing_witness :
  getTracks [demoFlat; {| item_id := JNull; item_name := ""; item_artists := None;
                          item_track := None |}]
  = Throw (TypeError "Cannot read properties of undefined (reading 'id')")
  ∧ Exists (λ item, wellShaped item = false)
      [demoFlat; {| item_id := JNull; item_name := ""; item_artists := None;
                    item_track := None |}].
Proof.
  split; [reflexivity|].
  exact (proj2 (proj2 (getTracks_all_or_nothing
                         [demoFlat; {| item_id := JNull; item_name := EmptyString;
                                       item_artists := None; item_track := None |}])
                  _ eq_refl)).
Defined.

(** [getTracks] of a list in two parts. *)
Lemma getTracks_app l1 l2 :
  getTracks (l1 ++ l2)
  = ts1 ← getTracks l1; ts2 ← getTracks l2; Ok (ts1 ++ ts2).
Proof.
  induction l1 as [|item l1 IH]; simpl.
  - by destruct (getTracks l2).
  - destruct (getTrack item); simpl; [|done]. rewrite IH.
    destruct (getTracks l1); simpl; [|done]. by destruct (getTracks l2).
Qed.

Lemma allItems_cons page pages :
  allItems (page :: pages) = default [] (page_items page) ++ allItems pages.
Proof. reflexivity. Qed.

Section ResolverMore.
Variable net : Network.

Lemma followNext_transparent fuel auth next pages tracks :
  PageChain net auth next pages →
  Forall (λ page, is_Some (page_items page)) pages →
  length pages ≤ fuel →
  followNext net fuel auth next tracks
  = Some (more ← getTracks (allItems pages); Ok (tracks ++ more)).
Proof.
  intros Hchain. revert fuel tracks.
  induction Hchain as [next Hn|next page pages Hn Hget _ IH];
    intros fuel tracks Hall Hfuel.
  - destruct fuel; simpl; rewrite Hn; rewrite app_nil_r; reflexivity.
  - apply Forall_cons in Hall as [[items Hitems] Hall].
    destruct fuel as [|fuel]; simpl in Hfuel; [lia|].
    simpl. rewrite Hn, Hget, Hitems. simpl.
    rewrite allItems_cons, Hitems. simpl. rewrite getTracks_app.
    destruct (getTracks items) as [ts|e]; simpl; [|done].
    rewrite (IH fuel (tracks ++ ts) Hall) by lia.
    destruct (getTracks (allItems pages)); simpl; [|done]. by rewrite app_assoc.
Qed.

Lemma collectTracks_allItems fuel auth data first pages :
  data_tracks data = Some first →
  PageChain net auth (page_next first) pages →
  Forall (λ page, is_Some (page_items page)) (first :: pages) →
  length pages ≤ fuel →
  collectTracks net fuel auth data = Some (getTracks (allItems (first :: pages))).
Proof.
  intros Hfirst Hchain Hall Hfuel.
  apply Forall_cons in Hall as [[items Hitems] Hall].
  unfold collectTracks. rewrite Hfirst, Hitems. simpl.
  rewrite allItems_cons, Hitems. simpl. rewrite getTracks_app.
  destruct (getTracks items) as [ts|e]; simpl; [|done].
  rewrite (followNext_transparent _ _ _ pages ts Hchain Hall Hfuel).
  by destruct (getTracks (allItems pages)).
Qed.

(** Property X2. Page boundaries are invisible: for a chain of pages that
    all carry an [items] array, collecting the tracks gives what
    [getTracks] gives on all the items at once, the same list or the same
    error; a list has one track for each item; and the outcome is the
    same for every bound on the number of pages that the chain fits in. *)
Theorem pagination_is_transparent fuel auth data first pages :
  data_tracks data = Some first →
  PageChain net auth (page_next first) pages →
  Forall (λ page, is_Some (page_items page)) (first :: pages) →
  length pages ≤ fuel →
  collectTracks net fuel auth data = Some (getTracks (allItems (first :: pages)))
  ∧ (∀ tracks, collectTracks net fuel auth data = Some (Ok tracks) →
       length tracks = length (allItems (first :: pages)))
  ∧ (∀ fuel', length pages ≤ fuel' →
       collectTracks net fuel' auth data = collectTracks net fuel auth data).
Proof.
  intros Hfirst Hchain Hall Hfuel.
  pose proof (collectTracks_allItems fuel auth data first pages Hfirst Hchain Hall Hfuel)
    as Hc.
  split_and!; [done| |].
  - intros tracks Ht. rewrite Hc in Ht. injection Ht as Ht.
    by apply getTracks_length.
  - intros fuel' Hfuel'. rewrite Hc. by apply collectTracks_allItems.
Qed.

Lemma followNext_inv fuel auth next tracks all :
  followNext net fuel auth next tracks = Some (Ok all) →
  ∃ pages perPage,
    PageChain net auth next pages
    ∧ Forall2 (λ page ts, getTracksOf (page_items page) = Ok ts) pages perPage
    ∧ all = tracks ++ concat perPage
    ∧ length pages ≤ fuel.
Proof.
  revert next tracks. induction fuel as [|fuel IH]; intros next tracks; simpl.
  - destruct (truthy next) eqn:Hn; [done|]. intros [= <-].
    exists [], []. split_and!; [by apply chain_end|constructor|by rewrite app_nil_r|done].
  - destruct (truthy next) eqn:Hn.
    + destruct (metadataPage net (toString next) auth) as [m|page] eqn:Hget; [done|].
      destruct (getTracksOf (page_items page)) as [ts|e] eqn:Hts; [|done].
      intros (pages & perPage & Hchain & Hall & -> & Hlen)%IH.
      exists (page :: pages), (ts :: perPage).
      split_and!; [by eapply chain_page|by constructor| |simpl; lia].
      simpl. by rewrite app_assoc.
    + intros [= <-]. exists [], [].
      split_and!; [by apply chain_end|constructor|by rewrite app_nil_r|simpl; lia].
Qed.

(** Property X3. The loop returns a list only when the whole chain of
    pages was fetched and converted: the list is then the first page's
    tracks followed by the later pages' tracks. A page that cannot be
    fetched or converted leaves no partial list. *)
Theorem collectTracks_only_whole_listings fuel auth data tracks :
  collectTracks net fuel auth data = Some (Ok tracks) →
  ∃ first pages perPage,
    data_tracks data = Some first
    ∧ PageChain net auth (page_next first) pages
    ∧ Forall2 (λ page ts, getTracksOf (page_items page) = Ok ts) (first :: pages) perPage
    ∧ tracks = concat perPage
    ∧ length pages ≤ fuel.
Proof.
  unfold collectTracks. destruct (data_tracks data) as [first|]; [|done].
  destruct (getTracksOf (page_items first)) as [ts|e] eqn:Hts; [|done].
  intros (pages & perPage & Hchain & Hall & -> & Hlen)%followNext_inv.
  exists first, pages, (ts :: perPage). split_and!; try done. by constructor.
Qed.

(** Property X4. Whatever goes wrong while a resource is resolved (no
    token, a failed request, a reply of another shape, a failed page)
    reaches the caller as the one error [Failed to fetch <type> info],
    after a line on the console; the cause is not passed on. *)
Theorem getSpotifyResource_masks_errors fuel type rid p e p' :
  getSpotifyResource net fuel type rid p = (Some (Throw e), p') →
  e = Err ("Failed to fetch " +:+ typeName type +:+ " info")
  ∧ last (console p') = Some ("Error fetching Spotify " +:+ typeName type +:+ " info:")
  ∧ accessToken p' = accessToken (getSpotifyAccessToken net p).2
  ∧ tokenRequests p' = tokenRequests (getSpotifyAccessToken net p).2.
Proof.
  unfold getSpotifyResource.
  assert (Hstate : (getSpotifyResource_try net fuel type rid p).2
                   = (getSpotifyAccessToken net p).2).
  { unfold getSpotifyResource_try.
    destruct (getSpotifyAccessToken net p) as [[token|e0] p1]; [|done].
    destruct (metadataApi net _ _) as [m|data]; [done|].
    by destruct (collectTracks net fuel _ data) as [[tracks|e0]|]. }
  destruct (getSpotifyResource_try net fuel type rid p) as [[[res|e0]|] p1];
    simpl in Hstate; [done| |done].
  intros [= <- <-]. simpl. rewrite last_snoc. by rewrite Hstate.
Qed.

(** A resolved resource is of the type asked for, takes its id and its
    name or title from the first reply, and holds the collected tracks;
    the process state is the one the token acquisition left. *)
Lemma getSpotifyResource_result fuel type rid p res p' :
  getSpotifyResource net fuel type rid p = (Some (Ok res), p') →
  ∃ token data,
    getSpotifyAccessToken net p = (Ok token, p')
    ∧ metadataApi net (resourceUrl type rid) (authorization token) = AxiosResolve data
    ∧ collectTracks net fuel (authorization token) data = Some (Ok (resource_tracks res))
    ∧ resource_type res = type
    ∧ resource_id res = data_id data
    ∧ match res with
      | Album _ _ title artist =>
          title = data_name data
          ∧ getArtistFromArtists (data_artists data) = Ok artist
      | Playlist _ _ name owner =>
          name = data_name data ∧ data_owner data = Some owner
      end.
Proof.
  unfold getSpotifyResource, getSpotifyResource_try.
  destruct (getSpotifyAccessToken net p) as [[token|e] p1]; [|done].
  destruct (metadataApi net _ _) as [m|data] eqn:Hapi; [done|].
  destruct (collectTracks net fuel _ data) as [[tracks|e]|] eqn:Hc; [|done..].
  unfold makeResource. destruct type.
  - destruct (getArtistFromArtists _) eqn:Ha; simpl; [|done].
    intros [= <- <-]. exists token, data. by split_and!.
  - destruct (data_owner data) eqn:Ho; [|done].
    intros [= <- <-]. exists token, data. by split_and!.
Qed.

End ResolverMore.

Lemma pagination_is_transparent_witness :
  data_tracks demoAlbum = Some demoPage1
  ∧ length [demoPage2] ≤ 1
  ∧ collectTracks demoNet 1 "Bearer BQD3" demoAlbum
    = Some (getTracks (allItems [demoPage1; demoPage2])).
Proof.
  assert (Hchain : PageChain demoNet "Bearer BQD3" (page_next demoPage1) [demoPage2]).
  { eapply chain_page; [reflexivity|reflexivity|]. by apply chain_end. }
  assert (Hall : Forall (λ page, is_Some (page_items page)) [demoPage1; demoPage2]).
  { repeat constructor; by eexists. }
  split; [reflexivity|]. split; [simpl; lia|].
  exact (proj1 (pagination_is_transparent demoNet 1 "Bearer BQD3" demoAlbum demoPage1
                  [demoPage2] eq_refl Hchain Hall (le_n 1))).
Defined.

Lemma collectTracks_only_whole_listings_witness :
  collectTracks demoNet 1 "Bearer BQD3" demoAlbum = Some (Ok demoTracks)
  ∧ ∃ first pages, data_tracks demoAlbum = Some first
      ∧ PageChain demoNet "Bearer BQD3" (page_next first) pages ∧ length pages ≤ 1.
Proof.
  split; [reflexivity|].
  destruct (collectTracks_only_whole_listings demoNet 1 "Bearer BQD3" demoAlbum
              demoTracks eq_refl) as (first & pages & perPage & H1 & H2 & _ & _ & H5).
  exists first, pages. split; [exact H1|]. split; [exact H2|exact H5].
Defined.

(** A metadata API that is down. *)
Lemma getSpotifyResource_masks_errors_witness :
  getSpotifyResource tokenlessNet 0 album "6kxY" startProcess
  = (Some (Throw (Err "Failed to fetch album info")),
     {| accessToken := JUndefined; tokenRequests := 1;
        console := ["Error fetching Spotify album info:"] |})
  ∧ last ["Error fetching Spotify album info:"] = Some "Error fetching Spotify album info:".
Proof.
  split; [reflexivity|].
  exact (proj1 (proj2 (getSpotifyResource_masks_errors tokenlessNet 0 album "6kxY"
                         startProcess _ _ eq_refl))).
Defined.

(** ** More on the track fetcher *)

Lemma demoTagger_in_place : tagsInPlace demoTagger.
Proof.
  intros tags filePath fs. split; [done|].
  intros other Hother. simpl. by apply lookup_alter_ne.
Qed.

Section FetcherMore.
Variable lookupService : string → AxiosResult LookupBody.
Variable fetchBinary : string → AxiosResult bytes.
Variable sanitizeFilename : string → string.
Variable writeFileError : FS → string → option string.
Variable NodeID3_write : Tags → string → FS → bool * FS.

Local Abbreviation downloadTrack' :=
  (downloadTrack lookupService fetchBinary sanitizeFilename writeFileError NodeID3_write).

(** The two ways a call can go: it stops before anything is written, or
    it writes the audio and runs the tagger. *)
Lemma downloadTrack_cases track saveTo index fs :
  (∃ m, downloadTrack' track saveTo index fs = (Throw (Err m), fs))
  ∨ (∃ data metadata mp3 cover,
       lookupService (lookupUrl track) = AxiosResolve data
       ∧ lb_success data = true
       ∧ lb_metadata data = Some metadata
       ∧ fetchBinary (lb_link data) = AxiosResolve mp3
       ∧ fetchBinary (md_cover metadata) = AxiosResolve cover
       ∧ writeFileError fs (filePathOf sanitizeFilename saveTo track) = None
       ∧ downloadTrack' track saveTo index fs
         = let tagged :=
             NodeID3_write (makeTags metadata cover index)
               (filePathOf sanitizeFilename saveTo track)
               {| files := <[filePathOf sanitizeFilename saveTo track := mp3]> (files fs);
                  dirs := dirs fs |} in
           (if tagged.1 then Ok ()
            else Throw (tagFailure (sanitizeFilename (getTrackName track +:+ ".mp3"))),
            tagged.2)).
Proof.
  unfold downloadTrack, downloadTrack_try, writeFile, filePathOf.
  destruct (lookupService (lookupUrl track)) as [m|data] eqn:Hlookup; simpl; [eauto|].
  destruct (lb_success data) eqn:Hsuccess; [|eauto].
  destruct (lb_metadata data) as [metadata|] eqn:Hmeta; [|eauto].
  destruct (fetchBinary (lb_link data)) as [m|mp3] eqn:Hmp3; simpl; [eauto|].
  destruct (fetchBinary (md_cover metadata)) as [m|cover] eqn:Hcover; simpl; [eauto|].
  destruct (writeFileError fs _) as [m|] eqn:Hwrite; simpl; [eauto|].
  right. exists data, metadata, mp3, cover. split_and!; try done.
  by destruct (NodeID3_write _ _ _) as [[] fs2].
Qed.


(** Property X6. A call touches one file at most. With a tagger that
    changes nothing but the file it is given, every other file is after
    the call what it was before, and no directory is made or removed,
    whether the call returns or throws. *)
Theorem downloadTrack_touches_one_file track saveTo index fs :
  tagsInPlace NodeID3_write →
  dirs (downloadTrack' track saveTo index fs).2 = dirs fs
  ∧ ∀ other, other ≠ filePathOf sanitizeFilename saveTo track →
      files (downloadTrack' track saveTo index fs).2 !! other = files fs !! other.
Proof.
  intros Htagger.
  destruct (downloadTrack_cases track saveTo index fs)
    as [[m ->]|(data & metadata & mp3 & cover & _ & _ & _ & _ & _ & _ & ->)]; [done|].
  simpl. destruct (Htagger (makeTags metadata cover index)
                     (filePathOf sanitizeFilename saveTo track)
                     {| files := <[filePathOf sanitizeFilename saveTo track := mp3]> (files fs);
                        dirs := dirs fs |}) as [Hdirs Hfiles].
  split; [done|]. intros other Hother. rewrite (Hfiles other Hother). simpl.
  by apply lookup_insert_ne.
Qed.

Lemma downloadTrack_frame track saveTo index fs other :
  tagsInPlace NodeID3_write →
  other ≠ filePathOf sanitizeFilename saveTo track →
  files (downloadTrack' track saveTo index fs).2 !! other = files fs !! other.
Proof.
  intros Htagger Hother.
  destruct (downloadTrack_cases track saveTo index fs)
    as [[m ->]|(data & metadata & mp3 & cover & _ & _ & _ & _ & _ & _ & ->)]; [done|].
  simpl. rewrite (proj2 (Htagger _ _ _) other Hother). simpl.
  by apply lookup_insert_ne.
Qed.

(** Property X7. The file name is made of the track's name and artist
    only, so two tracks that agree on both are saved as the same file:
    after one is downloaded and then the other, whatever the two calls
    return, at most that one path holds something it did not hold
    before. *)
Theorem same_name_tracks_share_a_file track1 track2 saveTo index1 index2 fs :
  tagsInPlace NodeID3_write →
  name track1 = name track2 →
  artist track1 = artist track2 →
  let fs1 := (downloadTrack' track1 saveTo index1 fs).2 in
  let fs2 := (downloadTrack' track2 saveTo index2 fs1).2 in
  filePathOf sanitizeFilename saveTo track1 = filePathOf sanitizeFilename saveTo track2
  ∧ (∀ other, other ≠ filePathOf sanitizeFilename saveTo track1 →
       files fs2 !! other = files fs !! other)
  ∧ dom (files fs2) ⊆ {[filePathOf sanitizeFilename saveTo track1]} ∪ dom (files fs).
Proof.
  intros Htagger Hname Hartist fs1 fs2.
  assert (Hpath : filePathOf sanitizeFilename saveTo track1
                  = filePathOf sanitizeFilename saveTo track2).
  { unfold filePathOf, getTrackName. by rewrite Hname, Hartist. }
  assert (Hframe : ∀ other, other ≠ filePathOf sanitizeFilename saveTo track1 →
                     files fs2 !! other = files fs !! other).
  { intros other Hother. unfold fs2, fs1.
    rewrite (downloadTrack_frame track2 saveTo index2 _ other Htagger)
      by (by rewrite <-Hpath).
    by apply downloadTrack_frame. }
  split_and!; [done..|].
  intros path Hin. apply elem_of_dom in Hin.
  destruct (decide (path = filePathOf sanitizeFilename saveTo track1)) as [->|Hne];
    [set_solver|].
  rewrite (Hframe _ Hne) in Hin. apply elem_of_dom in Hin. set_solver.
Qed.

End FetcherMore.


Lemma downloadTrack_touches_one_file_witness :
  let fs := {| files := {["/music/cover.jpg" := []]}; dirs := {["/music"]} |} in
  dirs (downloadTrack (λ _, AxiosResolve demoLookup) (λ _, AxiosResolve []) (λ s, s)
          (λ _ _, None) demoTagger demoTwin "/music" (Some 0) fs).2 = dirs fs
  ∧ files (downloadTrack (λ _, AxiosResolve demoLookup) (λ _, AxiosResolve []) (λ s, s)
             (λ _ _, None) demoTagger demoTwin "/music" (Some 0) fs).2
      !! "/music/cover.jpg" = Some [].
Proof.
  intros fs.
  destruct (downloadTrack_touches_one_file (λ _, AxiosResolve demoLookup)
              (λ _, AxiosResolve []) (λ s, s) (λ _ _, None) demoTagger demoTwin
              "/music" (Some 0) fs demoTagger_in_place) as [Hdirs Hfiles].
  split; [exact Hdirs|].
  rewrite (Hfiles "/music/cover.jpg"); [reflexivity|]. by vm_compute.
Defined.

(** Two tracks of the same name and artist, both downloaded with success:
    one file. *)
Lemma same_name_tracks_share_a_file_witness :
  let download track index :=
    downloadTrack (λ _, AxiosResolve demoLookup) (λ _, AxiosResolve [Byte.x00]) (λ s, s)
      (λ _ _, None) demoTagger track "/music" (Some index) in
  let first := {| id := "t0"; name := "Intro"; artist := "Ann" |} in
  (download first 0 emptyDisk).1 = Ok ()
  ∧ (download demoTwin 1 (download first 0 emptyDisk).2).1 = Ok ()
  ∧ dom (files (download demoTwin 1 (download first 0 emptyDisk).2).2)
    ⊆ {["/music/Intro - Ann.mp3"]} ∪ dom (files emptyDisk).
Proof.
  intros download first.
  split; [reflexivity|]. split; [reflexivity|].
  exact (proj2 (proj2 (same_name_tracks_share_a_file (λ _, AxiosResolve demoLookup)
                         (λ _, AxiosResolve [Byte.x00]) (λ s, s) (λ _ _, None) demoTagger
                         first demoTwin "/music" (Some 0) (Some 1) emptyDisk
                         demoTagger_in_place eq_refl eq_refl))).
Defined.

(** ** What a run shows *)

Lemma deref_snoc tracks refs i track :
  tracks !! i = Some track → deref tracks (refs ++ [i]) = deref tracks refs ++ [track].
Proof. intros Hi. unfold deref. rewrite omap_app. csimpl. by rewrite Hi. Qed.

Lemma Shown_start {isTTY} tracks : Shown tracks [] (startRun isTTY tracks).
Proof.
  split; simpl; try done.
  - rewrite countIf_replicate. simpl. lia.
  - intros i j js _ [-> _]%lookup_replicate. done.
Qed.

Lemma rejections_snoc i j w schedule :
  rejections i (schedule ++ [(j, w)])
  = rejections i schedule + (if isRejectionOf i (j, w) then 1 else 0).
Proof. apply countIf_snoc. Qed.

Lemma lastRejection_snoc i j w schedule :
  lastRejection i (schedule ++ [(j, w)])
  = match rejectionOf i (j, w) with
    | Some e => Some e
    | None => lastRejection i schedule
    end.
Proof.
  unfold lastRejection. rewrite omap_app.
  change (omap (rejectionOf i) [(j, w)])
    with (match rejectionOf i (j, w) with Some e => [e] | None => [] end).
  destruct (rejectionOf i (j, w)); [by rewrite last_snoc|by rewrite app_nil_r].
Qed.

Lemma started_insert (l : list JobState) (i : nat) js js' :
  l !! i = Some js → started js = true → started js' = true →
  (∀ a b x, a < b → l !! b = Some x → started x = true →
     ∃ y, l !! a = Some y ∧ started y = true) →
  ∀ a b x, a < b → <[i:=js']> l !! b = Some x → started x = true →
    ∃ y, <[i:=js']> l !! a = Some y ∧ started y = true.
Proof.
  intros Hi Hs Hs' Hfifo a b x Hab Hb Hx.
  apply lookup_lt_Some in Hi as Hlt.
  assert (∃ x0, l !! b = Some x0 ∧ started x0 = true) as (x0 & Hb0 & Hx0).
  { apply list_lookup_insert_Some in Hb as [(<- & <- & _)|(Hne & Hb)]; eauto. }
  destruct (Hfifo _ _ _ Hab Hb0 Hx0) as (y & Ha & Hy).
  destruct (decide (i = a)) as [<-|Hne].
  - exists js'. by rewrite list_lookup_insert_eq.
  - exists y. by rewrite list_lookup_insert_ne.
Qed.

Lemma Shown_step tracks schedule r i w r' :
  Inv tracks schedule r →
  Shown tracks schedule r →
  step tracks i w r = Some r' →
  Shown tracks (schedule ++ [(i, w)]) r'.
Proof.
  intros HI HS Hstep.
  destruct (step_cases _ _ _ _ _ Hstep) as (js & Hjs & Hi & Hcase).
  pose proof (inv_job _ _ _ HI _ _ Hjs) as Hjob.
  pose proof (shown_ok _ _ _ HS) as Hok.
  pose proof (shown_failed _ _ _ HS) as Hfailed.
  pose proof (shown_errors _ _ _ HS) as Herrors.
  pose proof (shown_sleeps _ _ _ HS) as Hsleeps.
  pose proof (shown_running _ _ _ HS) as Hrunning.
  pose proof (shown_fifo _ _ _ HS) as Hfifo.
  assert (Hnot : i ∉ success (downloadStatus r) ++ failures (downloadStatus r)).
  { intros Hin. apply (inv_recorded _ _ _ HI) in Hin.
    rewrite Hjs in Hin. destruct Hcase; by simplify_eq/=. }
  assert (Hold : ∀ w0,
    (λ j, message <$> lastRejection j (schedule ++ [(i, w0)])) <$> failures (downloadStatus r)
    = (λ j, message <$> lastRejection j schedule) <$> failures (downloadStatus r)).
  { intros w0. apply list_fmap_ext. intros k j Hj. rewrite lastRejection_snoc.
    assert (j ≠ i) as Hne.
    { intros ->. apply Hnot, elem_of_app. right. by eapply list_elem_of_lookup_2. }
    destruct w0; simpl; try done. by rewrite bool_decide_false by done. }
  destruct Hcase as [Hmay|track a Htrack|a e Hne|track a e Htrack Hmax|a Ha|a Ha];
    [| | | | |simpl in Hjob; lia].
  all: split; simpl;
    rewrite ?finallyBlock_jobs, ?finallyBlock_status, ?finallyBlock_bar,
      ?finallyBlock_output; simpl.
  all: try done.
  all: try (eapply started_insert; [exact Hjs|done|done|exact Hfifo]).
  all: try (pose proof (countIf_insert running _ _ _ Fulfilled Hjs) as Hc; simpl in Hc; lia).
  all: try (pose proof (countIf_insert running _ _ _ (AwaitDelay (S a)) Hjs) as Hc;
            simpl in Hc; lia).
  all: try (pose proof (countIf_insert running _ _ _ (AwaitDownload a) Hjs) as Hc;
            simpl in Hc; lia).
  all: try (rewrite ?omap_app; csimpl; case_match; csimpl;
            rewrite ?app_nil_r, ?(deref_snoc _ _ _ _ Htrack), ?fmap_app;
            rewrite ?Hok, ?Hfailed; done).
  all: try (rewrite ?omap_app; csimpl; rewrite ?app_nil_r; done).
  all: try (rewrite Hold, ?omap_app; csimpl; case_match; csimpl;
            rewrite ?app_nil_r; exact Herrors).
  all: try (rewrite Hold, ?omap_app; csimpl; rewrite ?app_nil_r; exact Herrors).
  all: try (intros i0; unfold sleeps; rewrite rejections_snoc, ?countIf_app; simpl;
            try case_match; simpl; fold (sleeps i0 (output r)); rewrite Hsleeps;
            unfold jobInv, maxRetries in *; simpl in *;
            repeat case_bool_decide; simplify_eq/=; lia).
  - unfold mayStart in Hmay. apply andb_true_iff in Hmay as [Hfree%Nat.ltb_lt _].
    pose proof (countIf_insert running _ _ _ (AwaitDownload 0) Hjs) as Hc.
    simpl in Hc. lia.
  - unfold mayStart in Hmay. apply andb_true_iff in Hmay as [_ Hbefore].
    rewrite forallb_forall in Hbefore.
    intros a b x Hab Hb Hx.
    destruct (decide (i = a)) as [<-|Hne].
    { exists (AwaitDownload 0). split; [|done].
      apply list_lookup_insert_eq. by eapply lookup_lt_Some. }
    rewrite list_lookup_insert_ne by done.
    apply list_lookup_insert_Some in Hb as [(<- & <- & _)|(Hnb & Hb)].
    + assert (a < length (jobs r)) as Hlt by (apply lookup_lt_Some in Hjs; lia).
      destruct (lookup_lt_is_Some_2 _ _ Hlt) as [y Hy]. exists y. split; [done|].
      apply Hbefore, list_elem_of_In, list_elem_of_lookup. exists a.
      by rewrite lookup_take_lt.
    + by eapply Hfifo.
  - rewrite fmap_app, Hold, !omap_app. csimpl. case_match; csimpl;
      rewrite ?app_nil_r, fmap_app, Herrors; f_equal; simpl;
      rewrite lastRejection_snoc; simpl; by rewrite bool_decide_true.
Qed.

Lemma Shown_execute {isTTY} tracks schedule r :
  execute tracks schedule (startRun isTTY tracks) = Some r → Shown tracks schedule r.
Proof.
  revert r. induction schedule as [|[i w] schedule IH] using rev_ind; intros r.
  - intros [= <-]. apply Shown_start.
  - rewrite execute_snoc.
    destruct (execute tracks schedule (startRun isTTY tracks)) as [r0|] eqn:E; [|done].
    simpl. intros Hstep.
    eapply Shown_step; [exact (Inv_execute _ _ _ E)|by apply IH|done].
Qed.

Lemma execute_app tracks s1 s2 r :
  execute tracks (s1 ++ s2) r = execute tracks s1 r ≫= execute tracks s2.
Proof.
  revert r. induction s1 as [|[j v] s1 IH]; intros r; simpl; [done|].
  destruct (step tracks j v r) as [r1|]; simpl; [apply IH|done].
Qed.

(** [success] and [failures] only grow, at their end. *)
Lemma step_appends tracks i w r r' :
  step tracks i w r = Some r' →
  success (downloadStatus r) `prefix_of` success (downloadStatus r')
  ∧ failures (downloadStatus r) `prefix_of` failures (downloadStatus r').
Proof.
  intros Hstep. destruct (step_cases _ _ _ _ _ Hstep) as (js & _ & _ & Hcase).
  destruct Hcase; simpl; rewrite ?finallyBlock_status; simpl;
    split; try done; by apply prefix_app_r.
Qed.

Lemma execute_appends tracks schedule r r' :
  execute tracks schedule r = Some r' →
  success (downloadStatus r) `prefix_of` success (downloadStatus r')
  ∧ failures (downloadStatus r) `prefix_of` failures (downloadStatus r').
Proof.
  revert r. induction schedule as [|[i w] schedule IH]; intros r; simpl.
  - by intros [= <-].
  - destruct (step tracks i w r) as [r1|] eqn:Hstep; simpl; [|done].
    intros [Hs Hf]%IH. destruct (step_appends _ _ _ _ _ Hstep) as [Hs1 Hf1].
    split; by etrans.
Qed.

(** Property X8. The queue's limit holds throughout: at no moment are
    more than 25 thunks between their start and their end, a thunk that
    waits its second between two attempts included; thunks are started
    in the order of the track list; and while 25 are under way no
    further one starts. *)
Theorem at_most_25_jobs_under_way isTTY tracks schedule r :
  execute tracks schedule (startRun isTTY tracks) = Some r →
  concurrency = 25
  ∧ countIf running (jobs r) ≤ concurrency
  ∧ (∀ i j js, i < j → jobs r !! j = Some js → started js = true →
       ∃ js', jobs r !! i = Some js' ∧ started js' = true)
  ∧ (countIf running (jobs r) = concurrency → ∀ i, step tracks i Start r = None).
Proof.
  intros HS%Shown_execute. split_and!; [done| | |].
  - exact (shown_running _ _ _ HS).
  - exact (shown_fifo _ _ _ HS).
  - intros Hfull i. unfold step.
    destruct (tracks !! i); [|done]. destruct (jobs r !! i); [|done]. simpl.
    unfold mayStart. rewrite Hfull. done.
Qed.

(** Property X9. The bar shows the tally: in every state a run can
    reach, the bar's value is the number of tracks recorded so far, and
    its payload is the two counts, or is still empty, which happens only
    when stderr is not a terminal and nothing is recorded yet. Its total is
    the number of tracks when stderr is a terminal, and otherwise the 100
    of a bar that was never started; so the value is known not to exceed
    the total on a terminal only, and [bar.getProgress() === 1] holds
    exactly when the tally has reached the one or the other. As the run
    goes on nothing recorded is removed or reordered, so the bar never
    goes back. *)
Theorem bar_shows_the_tally isTTY tracks schedule more r r' :
  execute tracks schedule (startRun isTTY tracks) = Some r →
  execute tracks more r = Some r' →
  let st := downloadStatus r in
  let tally := length (success st) + length (failures st) in
  bar_total (bar r) = (if isTTY then length tracks else 100)
  ∧ bar_value (bar r) = tally
  ∧ ((bar_success (bar r) = Some (length (success st))
      ∧ bar_failure (bar r) = Some (length (failures st)))
     ∨ (isTTY = false ∧ tally = 0
        ∧ bar_success (bar r) = None ∧ bar_failure (bar r) = None))
  ∧ (isTTY = true → bar_value (bar r) ≤ bar_total (bar r))
  ∧ progressIsOne (bar r) = ((if isTTY then length tracks else 100) <=? tally)
  ∧ success st `prefix_of` success (downloadStatus r')
  ∧ failures st `prefix_of` failures (downloadStatus r')
  ∧ bar_value (bar r) ≤ bar_value (bar r').
Proof.
  intros Hr Hmore. simpl.
  assert (Hr' : execute tracks (schedule ++ more) (startRun isTTY tracks) = Some r').
  { rewrite execute_app, Hr. done. }
  pose proof (BarInv_execute _ _ _ _ Hr) as HB.
  pose proof (BarInv_execute _ _ _ _ Hr') as HB'.
  pose proof (Inv_execute _ _ _ Hr) as HI.
  destruct (execute_appends _ _ _ _ Hmore) as [Hs Hf].
  pose proof (bar_inv_total _ _ _ HB) as Htot.
  pose proof (bar_inv_value _ _ _ HB) as Hval.
  split_and!; try done.
  - destruct (bar_inv_payload _ _ _ HB) as [?|(? & ? & ? & Hs0 & Hf0)]; [by left|right].
    by rewrite Hs0, Hf0.
  - intros ->. rewrite Htot, Hval, (inv_tally _ _ _ HI), <- (inv_jobs _ _ _ HI).
    apply countIf_le.
  - unfold progressIsOne. by rewrite Htot, Hval.
  - rewrite Hval, (bar_inv_value _ _ _ HB').
    apply prefix_length in Hs. apply prefix_length in Hf. lia.
Qed.

(** Property X24. When stderr is not a terminal the bar is never started,
    and the summary follows the 100 of its constructor, not the number of
    tracks: the summary block has been logged as often as [bar.update] was
    called with a value of 100 or more, so never for a resource of fewer
    than 100 tracks; the bar is never active, so nothing but the jobs
    keeps the process from ending. *)
Theorem summary_without_a_terminal tracks schedule r :
  execute tracks schedule (startRun false tracks) = Some r →
  summaries (output r) = countIf (reaches 100) (output r)
  ∧ (length tracks < 100 → summaries (output r) = 0)
  ∧ bar_active (bar r) = false
  ∧ processEnds r = complete r.
Proof.
  intros Hr.
  pose proof (BarInv_execute _ _ _ _ Hr) as HB.
  pose proof (Inv_execute _ _ _ Hr) as HI.
  pose proof (bar_inv_reached _ _ _ HB) as Hreach.
  rewrite (bar_inv_total _ _ _ HB) in Hreach.
  pose proof (bar_inv_active _ _ _ HB) as Hact. simpl in Hact.
  split_and!; try done.
  - intros Hn. rewrite Hreach. apply countIf_zero.
    intros [] Hin; try done. cbn [reaches]. apply Nat.leb_gt.
    destruct (bar_inv_updates _ _ _ HB _ _ _ Hin) as [_ Hle].
    rewrite (inv_tally _ _ _ HI) in Hle.
    pose proof (countIf_le fulfilled (jobs r)) as Hle'.
    rewrite (inv_jobs _ _ _ HI) in Hle'. lia.
  - unfold processEnds, redrawTimer. rewrite Hact. apply andb_true_r.
Qed.

(** Property X10. The log tells the outcomes: the success lines printed
    so far are those of the tracks in [success], in the order they were
    recorded, the failure lines those of the tracks in [failures], and
    for each track in [failures], in the same order, there is one line
    of last error, which shows the message of what the last call for
    that track threw. When every job has settled, each track of the
    resource has one line of the one kind or the other. *)
Theorem log_lines_tell_the_outcomes isTTY tracks schedule r :
  execute tracks schedule (startRun isTTY tracks) = Some r →
  let st := downloadStatus r in
  omap okLine (output r) = logStr <$> deref tracks (success st)
  ∧ omap failedLine (output r) = logStr <$> deref tracks (failures st)
  ∧ Some <$> omap lastErrorLine (output r)
    = (λ i, message <$> lastRejection i schedule) <$> failures st
  ∧ (complete r = true →
     omap okLine (output r) ++ omap failedLine (output r) ≡ₚ logStr <$> tracks).
Proof.
  intros Hr. simpl. pose proof (Shown_execute _ _ _ Hr) as HS.
  split_and!; [apply HS..|].
  intros Hc. rewrite (shown_ok _ _ _ HS), (shown_failed _ _ _ HS), <- fmap_app.
  by rewrite (recorded_tracks _ _ _ (Inv_execute _ _ _ Hr) Hc).
Qed.

(** Property X11. One second of delay follows each failed call but the
    fifth: the number of delays of a track is the number of its failed
    calls, capped at 4; every call after the first comes after a delay of
    its own; and a track given up has waited 4 times. *)
Theorem one_delay_after_each_failed_attempt isTTY tracks schedule r :
  execute tracks schedule (startRun isTTY tracks) = Some r →
  ∀ i track, tracks !! i = Some track →
    sleeps i (output r) = rejections i schedule `min` (maxRetries - 1)
    ∧ calls i (output r) ≤ S (sleeps i (output r))
    ∧ (i ∈ failures (downloadStatus r) → sleeps i (output r) = maxRetries - 1).
Proof.
  intros Hr i track Hi%lookup_lt_Some.
  pose proof (Inv_execute _ _ _ Hr) as HI.
  pose proof (shown_sleeps _ _ _ (Shown_execute _ _ _ Hr) i) as Hsl.
  rewrite <- (inv_jobs _ _ _ HI) in Hi.
  destruct (lookup_lt_is_Some_2 _ _ Hi) as [js Hjs].
  pose proof (inv_job _ _ _ HI _ _ Hjs) as Hjob.
  assert (Hfail : i ∈ failures (downloadStatus r) → rejections i schedule = maxRetries).
  { intros Hin.
    assert (jobs r !! i = Some Fulfilled) as Hl
      by (apply (inv_recorded _ _ _ HI); set_solver).
    pose proof (inv_job _ _ _ HI _ _ Hl) as Hj. simpl in Hj.
    destruct Hj as [(_ & _ & _ & Hs)|(_ & ? & _)]; [|done].
    pose proof (inv_nodup _ _ _ HI) as (_ & Hdisj & _)%NoDup_app.
    by apply Hdisj in Hs. }
  split_and!; [done| |].
  - rewrite Hsl. unfold jobInv, maxRetries in *. simpl in *.
    destruct js; try done; destruct_or?; destruct_and?; lia.
  - intros Hin%Hfail. rewrite Hsl, Hin. done.
Qed.

(** Property X12. Every run ends. A run takes at most [2 * maxRetries]
    wake-ups for each track, so no schedule goes on for ever; it is
    never stuck before every job has settled; and once they have, the
    promise of [queue.addAll] is fulfilled and the handler returns
    without an error line, whatever the number of tracks given up. *)
Theorem every_run_ends isTTY tracks schedule r :
  execute tracks schedule (startRun isTTY tracks) = Some r →
  length schedule ≤ 2 * maxRetries * length tracks
  ∧ ∃ more r',
      execute tracks (schedule ++ more) (startRun isTTY tracks) = Some r'
      ∧ complete r' = true
      ∧ addAllOutcome r' = AllFulfilled
      ∧ ∀ p, handlerEnd p r' = Some p.
Proof.
  intros Hr. split.
  - pose proof (execute_bounded _ _ _ Hr). lia.
  - destruct (run_can_complete _ _ _ Hr) as (more & r' & Hr' & Hc).
    exists more, r'.
    assert (addAllOutcome r' = AllFulfilled) as Hall.
    { pose proof (λ e, addAllOutcome_not_rejected _ _ _ e (Inv_execute _ _ _ Hr')) as Hnot.
      unfold addAllOutcome in *. unfold complete in Hc. rewrite Hc in *.
      destruct (omap rejection (jobs r')) as [|e l]; [done|]. by destruct (Hnot e). }
    split_and!; [done..|]. intros p. unfold handlerEnd. by rewrite Hall.
Qed.

Lemma at_most_25_jobs_under_way_witness :
  execute demoTracks (take 5 demoSchedule) (startRun true demoTracks) = Some demoEarly
  ∧ countIf running (jobs demoEarly) = 2
  ∧ countIf running (jobs demoEarly) ≤ concurrency.
Proof.
  split; [reflexivity|]. split; [reflexivity|].
  exact (proj1 (proj2 (at_most_25_jobs_under_way true demoTracks (take 5 demoSchedule)
                         demoEarly eq_refl))).
Defined.

Lemma bar_shows_the_tally_witness :
  execute demoTracks (take 7 demoSchedule) (startRun false demoTracks) = Some demoMidPiped
  ∧ execute demoTracks (drop 7 demoSchedule) demoMidPiped = Some demoRunPiped
  ∧ bar_total (bar demoMidPiped) = 100
  ∧ bar_value (bar demoMidPiped) = 1
  ∧ bar_value (bar demoMidPiped) ≤ bar_value (bar demoRunPiped).
Proof.
  split; [reflexivity|]. split; [reflexivity|].
  pose proof (bar_shows_the_tally false demoTracks (take 7 demoSchedule)
                (drop 7 demoSchedule) demoMidPiped demoRunPiped eq_refl eq_refl) as H.
  split; [exact (proj1 H)|]. split; [exact (proj1 (proj2 H))|].
  exact (proj2 (proj2 (proj2 (proj2 (proj2 (proj2 (proj2 H))))))).
Defined.

Example bar_on_a_terminal :
  bar demoMid = {| bar_total := 2; bar_value := 1; bar_success := Some 1;
                   bar_failure := Some 0; bar_active := true |}
  ∧ bar demoRun = {| bar_total := 2; bar_value := 2; bar_success := Some 1;
                     bar_failure := Some 1; bar_active := false |}.
Proof. split; reflexivity. Qed.

Lemma summary_without_a_terminal_witness :
  execute demoTracks demoSchedule (startRun false demoTracks) = Some demoRunPiped
  ∧ complete demoRunPiped = true
  ∧ summaries (output demoRunPiped) = 0
  ∧ processEnds demoRunPiped = true.
Proof.
  split; [reflexivity|]. split; [reflexivity|].
  pose proof (summary_without_a_terminal demoTracks demoSchedule demoRunPiped eq_refl) as H.
  split; [apply (proj1 (proj2 H)); simpl; lia|].
  exact (proj2 (proj2 (proj2 H))).
Defined.

(** With 101 tracks, stderr not being a terminal: the summary is logged
    when the 100th track is recorded, while the last job is still queued,
    and again when that one is recorded. *)
Example summary_at_100_without_a_terminal :
  complete (demoMany 100) = false
  ∧ summaries (output (demoMany 100)) = 1
  ∧ last (output (demoMany 100)) = Some (Summary 101 100 0)
  ∧ complete (demoMany 101) = true
  ∧ summaries (output (demoMany 101)) = 2
  ∧ summaries (output (demoMany 99)) = 0.
Proof. vm_compute. done. Qed.

Lemma log_lines_tell_the_outcomes_witness :
  execute demoTracks demoSchedule (startRun true demoTracks) = Some demoRun
  ∧ omap okLine (output demoRun) = ["(#t1) Outro - Ann, Bob"]
  ∧ omap failedLine (output demoRun) = ["(#t0) Intro - Ann"]
  ∧ omap lastErrorLine (output demoRun) = ["timeout of 1000ms exceeded"].
Proof.
  split; [reflexivity|].
  pose proof (log_lines_tell_the_outcomes true demoTracks demoSchedule demoRun eq_refl) as H.
  split; [exact (proj1 H)|]. split; [exact (proj1 (proj2 H))|reflexivity].
Defined.

Lemma one_delay_after_each_failed_attempt_witness :
  execute demoTracks demoSchedule (startRun true demoTracks) = Some demoRun
  ∧ sleeps 0 (output demoRun) = 4 ∧ calls 0 (output demoRun) = 5
  ∧ sleeps 1 (output demoRun) = 1 ∧ calls 1 (output demoRun) = 2
  ∧ calls 0 (output demoRun) ≤ S (sleeps 0 (output demoRun)).
Proof.
  split; [reflexivity|]. do 4 (split; [reflexivity|]).
  exact (proj1 (proj2 (one_delay_after_each_failed_attempt true demoTracks demoSchedule demoRun
                         eq_refl 0 _ eq_refl))).
Defined.

Lemma every_run_ends_witness :
  execute demoTracks (take 5 demoSchedule) (startRun true demoTracks) = Some demoEarly
  ∧ length (take 5 demoSchedule) ≤ 2 * maxRetries * length demoTracks
  ∧ execute demoTracks (take 5 demoSchedule ++ drop 5 demoSchedule) (startRun true demoTracks)
    = Some demoRun
  ∧ complete demoRun = true.
Proof.
  split; [reflexivity|].
  split; [|split; reflexivity].
  exact (proj1 (every_run_ends true demoTracks (take 5 demoSchedule) demoEarly eq_refl)).
Defined.

(** ** Outcomes and interleavings *)

Lemma success_resolvedOf {isTTY} tracks schedule r :
  execute tracks schedule (startRun isTTY tracks) = Some r →
  success (downloadStatus r) = resolvedOf schedule.
Proof.
  revert r. induction schedule as [|[i w] schedule IH] using rev_ind; intros r.
  - by intros [= <-].
  - rewrite execute_snoc.
    destruct (execute tracks schedule (startRun isTTY tracks)) as [r0|] eqn:E; [|done].
    simpl. intros Hstep. specialize (IH _ eq_refl).
    destruct (step_cases _ _ _ _ _ Hstep) as (js & _ & _ & Hcase).
    unfold resolvedOf in *. rewrite omap_app.
    destruct Hcase; simpl; rewrite ?finallyBlock_status; simpl; rewrite IH;
      csimpl; by rewrite ?app_nil_r.
Qed.

Lemma Inv_outcome tracks schedule r i track :
  Inv tracks schedule r →
  tracks !! i = Some track →
  (i ∈ success (downloadStatus r) ↔ resolutions i schedule = 1)
  ∧ (i ∈ failures (downloadStatus r) ↔ rejections i schedule = maxRetries).
Proof.
  intros HI Hi%lookup_lt_Some.
  rewrite <- (inv_jobs _ _ _ HI) in Hi.
  destruct (lookup_lt_is_Some_2 _ _ Hi) as [js Hjs].
  pose proof (inv_job _ _ _ HI _ _ Hjs) as Hjob.
  pose proof (inv_recorded _ _ _ HI i) as Hrec.
  pose proof (inv_nodup _ _ _ HI) as (_ & Hdisj & _)%NoDup_app.
  rewrite elem_of_app, Hjs in Hrec.
  unfold jobInv, maxRetries in *. simpl in *.
  split; split.
  - intros Hin. assert (js = Fulfilled) as ->
      by (destruct Hrec as [Hrec _]; specialize (Hrec (or_introl Hin)); congruence).
    destruct Hjob as [?|(_ & _ & _ & Hf)]; [naive_solver|]. by apply Hdisj in Hin.
  - intros Hres. destruct js; try done; destruct_or?; destruct_and?; try done; lia.
  - intros Hin. assert (js = Fulfilled) as ->
      by (destruct Hrec as [Hrec _]; specialize (Hrec (or_intror Hin)); congruence).
    destruct Hjob as [(_ & _ & _ & Hs)|?]; [|naive_solver]. by apply Hdisj in Hs.
  - intros Hrej. destruct js; try done; destruct_or?; destruct_and?; try done; lia.
Qed.

(** Property X13. What decides a track's outcome is its own calls: a track
    is in [success] exactly when a call of [downloadTrack] for it has
    returned, in [failures] exactly when five have thrown; and [success]
    lists the tracks in the order their calls returned. *)
Theorem outcome_follows_the_calls isTTY tracks schedule r :
  execute tracks schedule (startRun isTTY tracks) = Some r →
  let st := downloadStatus r in
  success st = resolvedOf schedule
  ∧ ∀ i track, tracks !! i = Some track →
      (i ∈ success st ↔ resolutions i schedule = 1)
      ∧ (i ∈ failures st ↔ rejections i schedule = maxRetries).
Proof.
  intros Hr. simpl. split; [by eapply success_resolvedOf|].
  intros i track Hi. by eapply Inv_outcome; [exact (Inv_execute _ _ _ Hr)|].
Qed.

Lemma recorded_bounded tracks schedule r i :
  Inv tracks schedule r →
  i ∈ success (downloadStatus r) ++ failures (downloadStatus r) →
  is_Some (tracks !! i).
Proof.
  intros HI Hin. apply (inv_recorded _ _ _ HI) in Hin.
  apply lookup_lt_is_Some_2. rewrite <- (inv_jobs _ _ _ HI). by eapply lookup_lt_Some.
Qed.

(** Property X14. The interleaving does not matter for the outcome: two
    runs over the same tracks in which every track saw as many calls
    return and as many calls throw record the same tracks as successes
    and the same tracks as failures, in whatever order the wake-ups came. *)
Theorem outcome_independent_of_interleaving isTTY tracks schedule1 schedule2 r1 r2 :
  execute tracks schedule1 (startRun isTTY tracks) = Some r1 →
  execute tracks schedule2 (startRun isTTY tracks) = Some r2 →
  (∀ i, resolutions i schedule1 = resolutions i schedule2) →
  (∀ i, rejections i schedule1 = rejections i schedule2) →
  success (downloadStatus r1) ≡ₚ success (downloadStatus r2)
  ∧ failures (downloadStatus r1) ≡ₚ failures (downloadStatus r2)
  ∧ (complete r1 = true ↔ complete r2 = true).
Proof.
  intros HI1%Inv_execute HI2%Inv_execute Hres Hrej.
  pose proof (inv_nodup _ _ _ HI1) as (Hs1 & _ & Hf1)%NoDup_app.
  pose proof (inv_nodup _ _ _ HI2) as (Hs2 & _ & Hf2)%NoDup_app.
  assert (Hs : success (downloadStatus r1) ≡ₚ success (downloadStatus r2)).
  { apply NoDup_Permutation; [done..|]. intros i. split; intros Hin.
    - destruct (recorded_bounded _ _ _ i HI1) as [track Hi]; [set_solver|].
      apply (Inv_outcome _ _ _ _ _ HI2 Hi). rewrite <- Hres.
      by apply (Inv_outcome _ _ _ _ _ HI1 Hi).
    - destruct (recorded_bounded _ _ _ i HI2) as [track Hi]; [set_solver|].
      apply (Inv_outcome _ _ _ _ _ HI1 Hi). rewrite Hres.
      by apply (Inv_outcome _ _ _ _ _ HI2 Hi). }
  assert (Hf : failures (downloadStatus r1) ≡ₚ failures (downloadStatus r2)).
  { apply NoDup_Permutation; [done..|]. intros i. split; intros Hin.
    - destruct (recorded_bounded _ _ _ i HI1) as [track Hi]; [set_solver|].
      apply (Inv_outcome _ _ _ _ _ HI2 Hi). rewrite <- Hrej.
      by apply (Inv_outcome _ _ _ _ _ HI1 Hi).
    - destruct (recorded_bounded _ _ _ i HI2) as [track Hi]; [set_solver|].
      apply (Inv_outcome _ _ _ _ _ HI1 Hi). rewrite Hrej.
      by apply (Inv_outcome _ _ _ _ _ HI2 Hi). }
  split_and!; [done..|].
  rewrite (Inv_complete _ _ _ HI1), (Inv_complete _ _ _ HI2).
  rewrite <- (inv_tally _ _ _ HI1), <- (inv_tally _ _ _ HI2).
  by rewrite Hs, Hf.
Qed.

Lemma outcome_follows_the_calls_witness :
  execute demoTracks demoSchedule (startRun true demoTracks) = Some demoRun
  ∧ resolvedOf demoSchedule = [1]
  ∧ success (downloadStatus demoRun) = resolvedOf demoSchedule.
Proof.
  split; [reflexivity|]. split; [reflexivity|].
  exact (proj1 (outcome_follows_the_calls true demoTracks demoSchedule demoRun eq_refl)).
Defined.

Lemma outcome_independent_of_interleaving_witness :
  execute demoTracks demoSchedule (startRun true demoTracks) = Some demoRun
  ∧ execute demoTracks demoScheduleSerial (startRun true demoTracks) = Some demoRunSerial
  ∧ output demoRun ≠ output demoRunSerial
  ∧ success (downloadStatus demoRun) ≡ₚ success (downloadStatus demoRunSerial)
  ∧ failures (downloadStatus demoRun) ≡ₚ failures (downloadStatus demoRunSerial).
Proof.
  assert (Hres : ∀ i, resolutions i demoSchedule = resolutions i demoScheduleSerial).
  { intros [|[|i]]; reflexivity. }
  assert (Hrej : ∀ i, rejections i demoSchedule = rejections i demoScheduleSerial).
  { intros [|[|i]]; reflexivity. }
  split; [reflexivity|]. split; [reflexivity|]. split; [by vm_compute|].
  pose proof (outcome_independent_of_interleaving true demoTracks demoSchedule demoScheduleSerial
                demoRun demoRunSerial eq_refl eq_refl Hres Hrej) as H.
  split; [exact (proj1 H)|exact (proj1 (proj2 H))].
Defined.

(** ** More on the handler *)

(** The branches on the platform make no difference. *)
Lemma getDefaultDownloadPath_any_platform platform homeDir pathJoin :
  getDefaultDownloadPath platform homeDir pathJoin = pathJoin homeDir "Downloads".
Proof. unfold getDefaultDownloadPath. by repeat case_bool_decide. Qed.

Lemma console_banner p lines :
  let p' := foldl (λ q line, consoleWrite line q) p lines in
  console p' = console p ++ lines
  ∧ accessToken p' = accessToken p
  ∧ tokenRequests p' = tokenRequests p.
Proof.
  revert p. induction lines as [|line lines IH]; intros p; simpl.
  - by rewrite app_nil_r.
  - destruct (IH (consoleWrite line p)) as (-> & -> & ->). simpl.
    by rewrite <- app_assoc.
Qed.

Lemma getSpotifyResource_error net fuel type rid p e p' :
  getSpotifyResource net fuel type rid p = (Some (Throw e), p') →
  e = Err ("Failed to fetch " +:+ typeName type +:+ " info").
Proof.
  unfold getSpotifyResource.
  destruct (getSpotifyResource_try net fuel type rid p) as [[[res|e0]|] p1]; [done| |done].
  by intros [= <- _].
Qed.

Section HandlerMore.
Variable isTTY : bool.
Variable newURL : string → option URL.
Variable net : Network.
Variable sanitizeFilename : string → string.
Variable pathResolve : string → string.
Variable parents : string → list string.
Variable ensureDirError : FS → string → option (string * nat).

Local Abbreviation handler' :=
  (handler isTTY newURL net sanitizeFilename pathResolve parents ensureDirError).
Local Abbreviation fullPathOf' := (fullPathOf sanitizeFilename pathResolve).

(** Property X15. When the handler stops before the queue, no file has
    been written and no directory removed, and the last line on the
    console is [Error: <message>], where the message is that of the URL
    parser, or [Failed to fetch <type> info] for anything that went
    wrong while the resource was resolved, or what [fs.ensureDir]
    rejected with. In the first two cases the disk is as it was. In the
    last the banner of the resource has not been printed, and the
    directories above the resource's that [fs.ensureDir] had made before
    it failed are still there; nothing else was added. *)
Theorem handler_stops_with_one_error_line fuel url customPath p fs p' fs' :
  handler' fuel url customPath p fs = Aborted p' fs' →
  files fs' = files fs
  ∧ dirs fs ⊆ dirs fs'
  ∧ ∃ e p0,
      p' = reportError e p0
      ∧ last (console p') = Some ("Error: " +:+ message e)
      ∧ ((parseSpotifyUrl newURL url = Throw e ∧ p0 = p ∧ fs' = fs)
         ∨ (∃ type rid,
              parseSpotifyUrl newURL url = Ok (type, rid)
              ∧ getSpotifyResource net fuel type rid p = (Some (Throw e), p0)
              ∧ e = Err ("Failed to fetch " +:+ typeName type +:+ " info")
              ∧ fs' = fs)
         ∨ (∃ type rid data m made,
              parseSpotifyUrl newURL url = Ok (type, rid)
              ∧ getSpotifyResource net fuel type rid p = (Some (Ok data), p0)
              ∧ ensureDirError fs (fullPathOf' customPath data) = Some (m, made)
              ∧ e = Err m
              ∧ dirs fs'
                = list_to_set (take made (parents (fullPathOf' customPath data)))
                  ∪ dirs fs)).
Proof.
  unfold handler.
  destruct (parseSpotifyUrl newURL url) as [[type rid]|e] eqn:Hparse.
  - destruct (getSpotifyResource net fuel type rid p) as [[[data|e]|] p1] eqn:Hres; [| |done].
    + unfold prepare, ensureDir.
      destruct (ensureDirError fs _) as [[m made]|] eqn:Hdir; [|done].
      intros [= <- <-]. split; [done|]. split; [simpl; set_solver|]. exists (Err m), p1.
      split_and!; [done|simpl; apply last_snoc|]. right. right.
      by exists type, rid, data, m, made.
    + intros [= <- <-]. split; [done|]. split; [done|]. exists e, p1.
      split_and!; [done|simpl; apply last_snoc|]. right. left. exists type, rid.
      split_and!; [done..| |done]. by eapply getSpotifyResource_error.
  - intros [= <- <-]. split; [done|]. split; [done|]. exists e, p.
    split_and!; [done|simpl; apply last_snoc|]. by left.
Qed.

(** Property X16. The jobs are made only after the URL was parsed, the
    resource resolved and its directory made sure of, and then: the
    directory is [<path>/spotify-dl/albums|playlists/<name>] as resolved;
    it and the directories above it are what has been added to the disk
    (those that were there before stay, and no file is written); the
    console has gained the banner of the resource and nothing else; and
    the run starts with one queued thunk for each track of the resource,
    an empty tally and [expectedCount] set to their number. *)
Theorem handler_starts_the_jobs_last fuel url customPath p fs fullPath p' fs' r :
  handler' fuel url customPath p fs = Enqueued fullPath p' fs' r →
  ∃ type rid data p1,
    parseSpotifyUrl newURL url = Ok (type, rid)
    ∧ getSpotifyResource net fuel type rid p = (Some (Ok data), p1)
    ∧ resource_type data = type
    ∧ fullPath = fullPathOf' customPath data
    ∧ ensureDirError fs fullPath = None
    ∧ dirs fs' = list_to_set (parents fullPath ++ [fullPath]) ∪ dirs fs
    ∧ fullPath ∈ dirs fs'
    ∧ files fs' = files fs
    ∧ console p' = console p1 ++ banner fullPath data
    ∧ accessToken p' = accessToken p1
    ∧ tokenRequests p' = tokenRequests p1
    ∧ r = startRun isTTY (resource_tracks data)
    ∧ jobs r = replicate (length (resource_tracks data)) Queued
    ∧ expectedCount (downloadStatus r) = length (resource_tracks data)
    ∧ output r = [].
Proof.
  unfold handler.
  destruct (parseSpotifyUrl newURL url) as [[type rid]|e] eqn:Hparse; [|done].
  destruct (getSpotifyResource net fuel type rid p) as [[[data|e]|] p1] eqn:Hres; [|done..].
  unfold prepare, ensureDir.
  destruct (ensureDirError fs _) as [[m made]|] eqn:Hdir; [done|].
  intros [= <- <- <- <-]. exists type, rid, data, p1.
  destruct (console_banner p1 (banner (fullPathOf' customPath data) data)) as (Hc & Ha & Ht).
  destruct (getSpotifyResource_tracks _ _ _ _ _ _ _ Hres) as (_ & _ & _ & _ & Htype).
  split_and!; try done. simpl. set_solver.
Qed.

(** Property X17. From the URL to the queue. For a URL that parses, a
    token, a resource whose listing is a chain of pages of flat or
    wrapped items and which names its artists (an album) or its owner (a
    playlist), and a directory that can be made: the handler reaches the
    queue with one thunk for each item of all the pages, in the order of
    the pages, each for the track its item stands for, and with
    [expectedCount] the number of items; the directory exists and no
    file has been written. *)
Theorem handler_enqueues_every_listed_track fuel url customPath p fs type rid token p1
    data first pages :
  parseSpotifyUrl newURL url = Ok (type, rid) →
  getSpotifyAccessToken net p = (Ok token, p1) →
  metadataApi net (resourceUrl type rid) (authorization token) = AxiosResolve data →
  hasHeader type data = true →
  data_tracks data = Some first →
  PageChain net (authorization token) (page_next first) pages →
  Forall (λ page, is_Some (page_items page)) (first :: pages) →
  Forall (λ item, wellShaped item = true) (allItems (first :: pages)) →
  length pages ≤ fuel →
  (∀ dir, ensureDirError fs dir = None) →
  ∃ fullPath p' fs' tracks,
    handler' fuel url customPath p fs = Enqueued fullPath p' fs' (startRun isTTY tracks)
    ∧ Forall2 normalizes (allItems (first :: pages)) tracks
    ∧ expectedCount (downloadStatus (startRun isTTY tracks)) = length (allItems (first :: pages))
    ∧ jobs (startRun isTTY tracks) = replicate (length (allItems (first :: pages))) Queued
    ∧ fullPath ∈ dirs fs'
    ∧ files fs' = files fs.
Proof.
  intros Hparse Htoken Hapi Hheader Hfirst Hchain Hpages Hitems Hfuel Hdir.
  assert (∃ tracks, getTracks (allItems (first :: pages)) = Ok tracks
                    ∧ Forall2 normalizes (allItems (first :: pages)) tracks)
    as (tracks & Htracks & Hnorm).
  { clear -Hitems. induction Hitems as [|item items Hitem _ (tracks & Hts & IH)].
    - exists []. by split.
    - destruct (getTrack_normalizes _ Hitem) as (t & Ht & Hn).
      exists (t :: tracks). simpl. rewrite Ht, Hts. split; [done|]. by constructor. }
  assert (Hcollect : collectTracks net fuel (authorization token) data = Some (Ok tracks)).
  { rewrite <- Htracks. by apply collectTracks_allItems. }
  assert (∃ res, makeResource type data tracks = Ok res ∧ resource_tracks res = tracks)
    as (res & Hres & Hrt).
  { unfold makeResource, hasHeader in *. destruct type.
    - apply bool_decide_eq_true in Hheader as [a Ha]. rewrite Ha. simpl. by eexists.
    - apply bool_decide_eq_true in Hheader as [o Ho]. rewrite Ho. by eexists. }
  exists (fullPathOf' customPath res),
    (foldl (λ q line, consoleWrite line q) p1 (banner (fullPathOf' customPath res) res)),
    (mkdirs (parents (fullPathOf' customPath res) ++ [fullPathOf' customPath res]) fs),
    tracks.
  split_and!.
  - unfold handler. rewrite Hparse.
    unfold getSpotifyResource, getSpotifyResource_try.
    rewrite Htoken, Hapi, Hcollect, Hres. unfold prepare, ensureDir.
    by rewrite Hdir, Hrt.
  - done.
  - simpl. by rewrite (Forall2_length _ _ _ Hnorm).
  - simpl. by rewrite (Forall2_length _ _ _ Hnorm).
  - simpl. set_solver.
  - done.
Qed.

(** Property X18. One item that is neither flat nor wrapped, on whatever
    page, stops everything: the resource is not resolved, the handler
    ends with [Error: Failed to fetch <type> info], makes no directory
    and starts no download, also for the tracks listed before that item. *)
Theorem handler_gives_up_on_one_bad_item fuel url customPath p fs type rid token p1
    data first pages :
  parseSpotifyUrl newURL url = Ok (type, rid) →
  getSpotifyAccessToken net p = (Ok token, p1) →
  metadataApi net (resourceUrl type rid) (authorization token) = AxiosResolve data →
  data_tracks data = Some first →
  PageChain net (authorization token) (page_next first) pages →
  Forall (λ page, is_Some (page_items page)) (first :: pages) →
  Exists (λ item, wellShaped item = false) (allItems (first :: pages)) →
  length pages ≤ fuel →
  ∃ p',
    handler' fuel url customPath p fs = Aborted p' fs
    ∧ console p'
      = console p1 ++ ["Error fetching Spotify " +:+ typeName type +:+ " info:";
                       "Error: Failed to fetch " +:+ typeName type +:+ " info"]
    ∧ accessToken p' = accessToken p1
    ∧ tokenRequests p' = tokenRequests p1.
Proof.
  intros Hparse Htoken Hapi Hfirst Hchain Hpages Hbad Hfuel.
  assert (∃ e, getTracks (allItems (first :: pages)) = Throw e) as [e Hthrow].
  { destruct (getTracks (allItems (first :: pages))) as [tracks|e] eqn:Hts; [|by exists e].
    apply getTracks_Ok_wellShaped in Hts. apply Exists_exists in Hbad as (item & Hin & Hno).
    rewrite Forall_forall in Hts. specialize (Hts item Hin). congruence. }
  pose proof (collectTracks_allItems net fuel (authorization token) data first pages
                Hfirst Hchain Hpages Hfuel) as Hcollect.
  rewrite Hthrow in Hcollect.
  eexists. split.
  - unfold handler. rewrite Hparse.
    unfold getSpotifyResource, getSpotifyResource_try.
    rewrite Htoken, Hapi, Hcollect. reflexivity.
  - simpl. by rewrite <- app_assoc.
Qed.

End HandlerMore.

(** The directory of the album cannot be made: two of the directories
    above it were made before [fs.ensureDir] failed. *)
Lemma handler_stops_with_one_error_line_witness :
  handler true demoNewURL demoNet (λ s, s) (λ s, s) demoParents
    (λ _ _, Some ("EACCES: permission denied, mkdir /home/ann/Downloads", 2)) 1
    demoUrlString "/home/ann/Downloads" startProcess emptyDisk
  = Aborted {| accessToken := JStr "BQD3"; tokenRequests := 1;
               console := ["Error: EACCES: permission denied, mkdir /home/ann/Downloads"] |}
      {| files := ∅; dirs := list_to_set ["/home"; "/home/ann"] ∪ ∅ |}
  ∧ files {| files := ∅; dirs := list_to_set ["/home"; "/home/ann"] ∪ ∅ |} = files emptyDisk.
Proof.
  split; [reflexivity|].
  exact (proj1 (handler_stops_with_one_error_line true demoNewURL demoNet (λ s, s) (λ s, s)
                  demoParents
                  (λ _ _, Some ("EACCES: permission denied, mkdir /home/ann/Downloads", 2))
                  1 demoUrlString "/home/ann/Downloads" startProcess
                  emptyDisk _ _ eq_refl)).
Defined.

Lemma handler_starts_the_jobs_last_witness :
  handler true demoNewURL demoNet (λ s, s) (λ s, s) demoParents (λ _ _, None) 1
    demoUrlString "/home/ann/Downloads" startProcess emptyDisk
  = Enqueued "/home/ann/Downloads/spotify-dl/albums/Ann - Demo"
      {| accessToken := JStr "BQD3"; tokenRequests := 1;
         console := ["Saving files to: /home/ann/Downloads/spotify-dl/albums/Ann - Demo";
                     "Downloading Spotify resource:";
                     "  Type   : album";
                     "  Id     : 6kxY4y9rGrWpnhofahze9h";
                     "  Title  : Demo";
                     "  Artist : Ann";
                     "  Tracks : 2";
                     ""] |}
      {| files := ∅;
         dirs := list_to_set [ "/home"; "/home/ann"; "/home/ann/Downloads";
                               "/home/ann/Downloads/spotify-dl";
                               "/home/ann/Downloads/spotify-dl/albums";
                               "/home/ann/Downloads/spotify-dl/albums/Ann - Demo" ] ∪ ∅ |}
      (startRun true demoTracks)
  ∧ ∃ type rid, parseSpotifyUrl demoNewURL demoUrlString = Ok (type, rid).
Proof.
  split; [reflexivity|].
  destruct (handler_starts_the_jobs_last true demoNewURL demoNet (λ s, s) (λ s, s)
              demoParents (λ _ _, None)
              1 demoUrlString "/home/ann/Downloads" startProcess emptyDisk _ _ _ _ eq_refl)
    as (type & rid & _ & _ & Hparse & _).
  exists type, rid. exact Hparse.
Defined.

Lemma handler_enqueues_every_listed_track_witness :
  length (allItems [demoPage1; demoPage2]) = 2
  ∧ ∃ fullPath p' fs' tracks,
      handler false demoNewURL demoNet (λ s, s) (λ s, s) demoParents (λ _ _, None) 1
        demoUrlString "/home/ann/Downloads" startProcess emptyDisk
      = Enqueued fullPath p' fs' (startRun false tracks)
      ∧ Forall2 normalizes (allItems [demoPage1; demoPage2]) tracks.
Proof.
  assert (Hchain : PageChain demoNet (authorization (JStr "BQD3")) (page_next demoPage1)
                     [demoPage2]).
  { eapply chain_page; [reflexivity|reflexivity|]. by apply chain_end. }
  assert (Hpages : Forall (λ page, is_Some (page_items page)) [demoPage1; demoPage2]).
  { repeat constructor; by eexists. }
  assert (Hitems : Forall (λ item, wellShaped item = true) (allItems [demoPage1; demoPage2])).
  { repeat constructor. }
  split; [reflexivity|].
  destruct (handler_enqueues_every_listed_track false demoNewURL demoNet (λ s, s) (λ s, s)
              demoParents (λ _ _, None) 1 demoUrlString "/home/ann/Downloads" startProcess
              emptyDisk
              album "6kxY4y9rGrWpnhofahze9h" (JStr "BQD3") _ demoAlbum demoPage1 [demoPage2]
              eq_refl eq_refl eq_refl eq_refl eq_refl Hchain Hpages Hitems (le_n 1)
              (λ _, eq_refl))
    as (fullPath & p' & fs' & tracks & Hrun & Hnorm & _).
  exists fullPath, p', fs', tracks. split; [exact Hrun|exact Hnorm].
Defined.

(** A playlist entry whose track is gone. *)
Lemma handler_gives_up_on_one_bad_item_witness :
  let gone := {| item_id := JUndefined; item_name := EmptyString; item_artists := None;
                 item_track := None |} in
  let last := {| page_items := Some [demoWrapped; gone]; page_next := JNull |} in
  let net := {| tokenEndpoint := tokenEndpoint demoNet;
                metadataApi := metadataApi demoNet;
                metadataPage := λ _ _, AxiosResolve last |} in
  ∃ p',
    handler true demoNewURL net (λ s, s) (λ s, s) demoParents (λ _ _, None) 1 demoUrlString
      "/home/ann/Downloads" startProcess emptyDisk
    = Aborted p' emptyDisk
    ∧ console p' = ["Error fetching Spotify album info:";
                    "Error: Failed to fetch album info"].
Proof.
  intros gone last net.
  assert (Hchain : PageChain net (authorization (JStr "BQD3")) (page_next demoPage1) [last]).
  { eapply chain_page; [reflexivity|reflexivity|]. by apply chain_end. }
  assert (Hpages : Forall (λ page, is_Some (page_items page)) [demoPage1; last]).
  { repeat constructor; by eexists. }
  assert (Hbad : Exists (λ item, wellShaped item = false) (allItems [demoPage1; last])).
  { apply Exists_cons_tl, Exists_cons_tl, Exists_cons_hd. reflexivity. }
  destruct (handler_gives_up_on_one_bad_item true demoNewURL net (λ s, s) (λ s, s)
              demoParents (λ _ _, None) 1 demoUrlString "/home/ann/Downloads" startProcess emptyDisk
              album "6kxY4y9rGrWpnhofahze9h" (JStr "BQD3") _ demoAlbum demoPage1 [last]
              eq_refl eq_refl eq_refl eq_refl Hchain Hpages Hbad (le_n 1))
    as (p' & Hrun & Hconsole & _).
  exists p'. split; [exact Hrun|exact Hconsole].
Defined.

(** ** The jobs and their downloads on one disk *)

Section CallMore.
Variable sanitizeFilename : string → string.
Variable NodeID3_write : Tags → string → FS → bool * FS.

(** The two models of a call agree: taken from [await] to [await] and
    answered at once, [callResume] ends as [downloadTrack] does, with the
    same return or the same error and the same disk. *)
Lemma runCall_is_downloadTrack lookupService fetchBinary writeFileError
    track saveTo index fs :
  runCall sanitizeFilename NodeID3_write lookupService fetchBinary writeFileError
    4 track saveTo index AtLookup fs
  = Some (downloadTrack lookupService fetchBinary sanitizeFilename writeFileError
            NodeID3_write track saveTo index fs).
Proof.
  unfold downloadTrack, downloadTrack_try, writeFile. cbn [runCall answer]. simpl.
  destruct (lookupService (lookupUrl track)) as [m|data]; simpl; [done|].
  destruct (lb_success data); simpl; [|done].
  destruct (lb_metadata data) as [metadata|]; simpl; [|done].
  destruct (fetchBinary (lb_link data)) as [m|mp3]; simpl; [done|].
  destruct (fetchBinary (md_cover metadata)) as [m|cover]; simpl; [done|].
  destruct (writeFileError fs _) as [m|]; simpl; [done|].
  by destruct (NodeID3_write _ _ _) as [[] fs2].
Qed.

(** What a stretch of a call does to the disk. *)
Lemma callResume_disk track saveTo index ph reply fs cs fs' :
  callResume sanitizeFilename NodeID3_write track saveTo index ph reply fs = Some (cs, fs') →
  (fs' = fs ∧ cs ≠ Returned)
  ∨ ∃ tags mp3Buffer,
      (∀ ph', cs ≠ Continue ph')
      ∧ fs' = (NodeID3_write tags (filePathOf sanitizeFilename saveTo track)
                 {| files := <[filePathOf sanitizeFilename saveTo track := mp3Buffer]>
                               (files fs);
                    dirs := dirs fs |}).2
      ∧ (cs = Returned →
         (NodeID3_write tags (filePathOf sanitizeFilename saveTo track)
            {| files := <[filePathOf sanitizeFilename saveTo track := mp3Buffer]> (files fs);
               dirs := dirs fs |}).1 = true).
Proof.
  unfold callResume, filePathOf, rethrow.
  destruct ph, reply; try done.
  - destruct response as [m|data]; simpl; [naive_solver|].
    destruct (lb_success data), (lb_metadata data); naive_solver.
  - destruct response; simpl; naive_solver.
  - destruct response; simpl; naive_solver.
  - destruct error as [m|]; [naive_solver|].
    destruct (NodeID3_write _ _ _) as [[] fs2] eqn:Htag; simpl; intros [= <- <-]; right;
      exists (makeTags metadata coverBuffer index), mp3Buffer; rewrite Htag;
      split_and!; done.
Qed.

Variable isTTY : bool.
Variable tracks : list SpotifyTrack.
Variable fullPath : string.

Local Abbreviation sysStep' := (sysStep sanitizeFilename NodeID3_write tracks fullPath).
Local Abbreviation sysExecute' := (sysExecute sanitizeFilename NodeID3_write tracks fullPath).

Lemma sysExecute_snoc trace i sig s :
  sysExecute' (trace ++ [(i, sig)]) s = sysExecute' trace s ≫= sysStep' i sig.
Proof.
  revert s. induction trace as [|[j v] trace IH]; intros s; simpl.
  - by destruct (sysStep' i sig s).
  - destruct (sysStep' j v s) as [s1|]; simpl; [apply IH|done].
Qed.

(** The ways a step of the whole can go. *)
Lemma sysStep_cases i sig s s' :
  sysStep' i sig s = Some s' →
  ∃ track ph, tracks !! i = Some track
    ∧ ((∃ reply ph', sig = Reply reply
          ∧ sys_calls s !! i = Some ph
          ∧ callResume sanitizeFilename NodeID3_write track fullPath (Some i) ph reply
              (sys_disk s) = Some (Continue ph', sys_disk s')
          ∧ sys_run s' = sys_run s
          ∧ sys_calls s' = <[i := ph']> (sys_calls s))
       ∨ (∃ w, step tracks i w (sys_run s) = Some (sys_run s')
            ∧ sys_calls s' = <[i := phaseOf (jobs (sys_run s') !! i)]> (sys_calls s)
            ∧ match sig with
              | Invoke => w = Start ∧ sys_disk s' = sys_disk s
              | TimerElapsed => w = TimerFired ∧ sys_disk s' = sys_disk s
              | Reply reply =>
                  sys_calls s !! i = Some ph
                  ∧ ∃ cs,
                      callResume sanitizeFilename NodeID3_write track fullPath (Some i) ph
                        reply (sys_disk s) = Some (cs, sys_disk s')
                      ∧ match cs with
                        | Continue _ => False
                        | Returned => w = DownloadResolved
                        | Threw e => w = DownloadRejected e
                        end
              end)).
Proof.
  assert (Hjob : ∀ w fs, jobStep tracks i w fs s = Some s' →
            step tracks i w (sys_run s) = Some (sys_run s')
            ∧ sys_calls s' = <[i := phaseOf (jobs (sys_run s') !! i)]> (sys_calls s)
            ∧ sys_disk s' = fs
            ∧ is_Some (tracks !! i)).
  { intros w fs. unfold jobStep.
    destruct (step tracks i w (sys_run s)) as [r|] eqn:Hstep; simpl; [|done].
    intros [= <-]. simpl. split_and!; try done.
    destruct (step_cases _ _ _ _ _ Hstep) as (_ & _ & Hlt & _).
    by apply lookup_lt_is_Some_2. }
  unfold sysStep. destruct sig as [| |reply].
  - intros (Hstep & Hcalls & Hdisk & [track Ht])%Hjob.
    exists track, NoCall. split; [done|]. right. exists Start. by split_and!.
  - intros (Hstep & Hcalls & Hdisk & [track Ht])%Hjob.
    exists track, NoCall. split; [done|]. right. exists TimerFired. by split_and!.
  - destruct (tracks !! i) as [track|] eqn:Ht; simpl; [|done].
    destruct (sys_calls s !! i) as [ph|] eqn:Hph; simpl; [|done].
    destruct (callResume _ _ _ _ _ _ _ _) as [[cs fs]|] eqn:Hcall; simpl; [|done].
    intros Hs. exists track, ph. split; [done|]. destruct cs as [ph'| |e].
    + injection Hs as <-. left. exists reply, ph'. by split_and!.
    + apply Hjob in Hs as (Hstep & Hcalls & <- & _). right. exists DownloadResolved.
      split_and!; [done..|]. exists Returned. by split.
    + apply Hjob in Hs as (Hstep & Hcalls & <- & _). right. exists (DownloadRejected e).
      split_and!; [done..|]. exists (Threw e). by split.
Qed.

Lemma step_jobs i w r r' :
  step tracks i w r = Some r' →
  ∃ js, jobs r' = <[i := js]> (jobs r) ∧ i < length (jobs r).
Proof.
  intros Hstep. destruct (step_cases _ _ _ _ _ Hstep) as (js & Hjs & _ & Hcase).
  apply lookup_lt_Some in Hjs.
  destruct Hcase; simpl; rewrite ?finallyBlock_jobs; simpl; eauto.
Qed.

Lemma step_success i w r r' :
  step tracks i w r = Some r' →
  success (downloadStatus r')
  = success (downloadStatus r)
    ++ match w with DownloadResolved => [i] | _ => [] end.
Proof.
  intros Hstep. destruct (step_cases _ _ _ _ _ Hstep) as (js & _ & _ & Hcase).
  destruct Hcase; simpl; rewrite ?finallyBlock_status; simpl; by rewrite ?app_nil_r.
Qed.

(** What holds of every state the whole can reach. *)
Lemma sys_reachable trace fs s :
  sysExecute' trace (sysStart isTTY tracks fs) = Some s →
  (∃ schedule, execute tracks schedule (startRun isTTY tracks) = Some (sys_run s)
               ∧ length schedule ≤ length trace)
  ∧ length (sys_calls s) = length (jobs (sys_run s))
  ∧ (∀ i ph, sys_calls s !! i = Some ph →
       ph ≠ NoCall ↔ ∃ a, jobs (sys_run s) !! i = Some (AwaitDownload a)).
Proof.
  revert s. induction trace as [|[i sig] trace IH] using rev_ind; intros s.
  - intros [= <-]. simpl. split_and!.
    + exists []. by split.
    + by rewrite !length_replicate.
    + intros i ph [-> _]%lookup_replicate. split; [done|].
      intros [a [? _]%lookup_replicate]. done.
  - rewrite sysExecute_snoc.
    destruct (sysExecute' trace (sysStart isTTY tracks fs)) as [s0|] eqn:E; [|done].
    simpl. intros Hstep.
    destruct (IH _ eq_refl) as ((schedule & Hrun & Hlen) & Hcalls & Hphase).
    destruct (sysStep_cases _ _ _ _ Hstep) as (track & ph & Ht & Hcase).
    destruct Hcase as [(reply & ph' & -> & Hph & Hcall & Hsame & Hnew)
                      |(w & Hjob & Hnew & Hsig)].
    + rewrite Hsame, Hnew. split_and!.
      * exists schedule. split; [done|]. rewrite length_app. simpl. lia.
      * by rewrite length_insert.
      * intros j ph0 Hj.
        apply list_lookup_insert_Some in Hj as [(<- & <- & _)|(Hne & Hj)];
          [|by apply Hphase].
        assert (ph ≠ NoCall) as Hin by (intros ->; done).
        apply (Hphase _ _ Hph) in Hin. split; [done|]. intros _.
        destruct ph, reply; try done; simpl in Hcall;
          repeat case_match; by simplify_eq/=.
    + destruct (step_jobs _ _ _ _ Hjob) as (js & Hjs & Hlt).
      rewrite Hnew. split_and!.
      * exists (schedule ++ [(i, w)]). split.
        -- rewrite execute_snoc, Hrun. done.
        -- rewrite !length_app. simpl. lia.
      * rewrite length_insert, Hjs, length_insert. done.
      * intros j ph0 Hj.
        apply list_lookup_insert_Some in Hj as [(<- & <- & _)|(Hne & Hj)].
        -- destruct (jobs (sys_run s) !! i) as [[]|]; naive_solver.
        -- rewrite Hjs, list_lookup_insert_ne by done. by apply Hphase.
Qed.

(** Property X20. The jobs with their calls are the jobs: whatever the
    peers answer and however the calls interleave, the state of the jobs
    is one a run of wake-ups reaches, so all that holds of runs holds of
    it; and a job stands at [await downloadTrack(...)] exactly when a
    call of its own is under way. *)
Theorem calls_wake_the_jobs_as_in_a_run trace fs s :
  sysExecute' trace (sysStart isTTY tracks fs) = Some s →
  (∃ schedule, execute tracks schedule (startRun isTTY tracks) = Some (sys_run s)
               ∧ length schedule ≤ length trace)
  ∧ length (success (downloadStatus (sys_run s)))
    + length (failures (downloadStatus (sys_run s))) ≤ length tracks
  ∧ (∀ i, (∃ a, jobs (sys_run s) !! i = Some (AwaitDownload a))
          ↔ (∃ ph, sys_calls s !! i = Some ph ∧ ph ≠ NoCall)).
Proof.
  intros ((schedule & Hrun & Hlen) & Hcalls & Hphase)%sys_reachable.
  split_and!.
  - by exists schedule.
  - pose proof (Inv_execute _ _ _ Hrun) as HI.
    rewrite (inv_tally _ _ _ HI), <- (inv_jobs _ _ _ HI). apply countIf_le.
  - intros i. split.
    + intros [a Ha]. apply lookup_lt_Some in Ha as Hlt. rewrite <- Hcalls in Hlt.
      destruct (lookup_lt_is_Some_2 _ _ Hlt) as [ph Hph].
      exists ph. split; [done|]. apply (Hphase _ _ Hph). by exists a.
    + intros (ph & Hph & Hne). by apply (Hphase _ _ Hph).
Qed.

(** Property X21. However the calls interleave, the jobs touch only the
    files of their tracks: with a tagger that changes nothing but the
    file it is given, every path that is not [fullPath/filename] of a
    track of the resource holds after any number of steps what it held
    when the jobs were made, and no directory is made or removed. *)
Theorem jobs_touch_only_their_files trace fs s :
  tagsInPlace NodeID3_write →
  sysExecute' trace (sysStart isTTY tracks fs) = Some s →
  dirs (sys_disk s) = dirs fs
  ∧ ∀ path,
      (∀ track, track ∈ tracks → path ≠ filePathOf sanitizeFilename fullPath track) →
      files (sys_disk s) !! path = files fs !! path.
Proof.
  intros Htagger. revert s.
  induction trace as [|[i sig] trace IH] using rev_ind; intros s.
  - by intros [= <-].
  - rewrite sysExecute_snoc.
    destruct (sysExecute' trace (sysStart isTTY tracks fs)) as [s0|] eqn:E; [|done].
    simpl. intros Hstep. destruct (IH _ eq_refl) as [Hdirs Hfiles].
    destruct (sysStep_cases _ _ _ _ Hstep) as (track & ph & Ht & Hcase).
    assert (∃ ph reply cs,
              callResume sanitizeFilename NodeID3_write track fullPath (Some i) ph reply
                (sys_disk s0) = Some (cs, sys_disk s)
            ∨ sys_disk s = sys_disk s0) as (ph0 & reply & cs & Hcall).
    { destruct Hcase as [(reply & ph' & _ & _ & Hcall & _)|(w & _ & _ & Hsig)].
      - exists ph, reply, (Continue ph'). by left.
      - destruct sig as [| |reply].
        + exists ph, (WriteSettled None), Returned. right. by destruct Hsig.
        + exists ph, (WriteSettled None), Returned. right. by destruct Hsig.
        + destruct Hsig as (_ & cs & Hcall & _). exists ph, reply, cs. by left. }
    destruct Hcall as [Hcall|Hsame]; [|by rewrite Hsame].
    apply callResume_disk in Hcall as [[-> _]|(tags & mp3 & _ & -> & _)]; [done|].
    destruct (Htagger tags (filePathOf sanitizeFilename fullPath track)
                {| files := <[filePathOf sanitizeFilename fullPath track := mp3]>
                              (files (sys_disk s0));
                   dirs := dirs (sys_disk s0) |}) as [Hd Hf].
    split; [by rewrite Hd|].
    intros path Hpath.
    assert (path ≠ filePathOf sanitizeFilename fullPath track) as Hne.
    { apply Hpath. by eapply list_elem_of_lookup_2. }
    rewrite (Hf path Hne). simpl. rewrite lookup_insert_ne by done. by apply Hfiles.
Qed.

(** Property X22. A track is recorded as a success only with its file on
    the disk: with a tagger that removes no file, in every state the
    whole can reach, the file [fullPath/filename] of every track in
    [success] exists, and no file that was there when the jobs were made
    has gone. *)
Theorem success_has_its_file trace fs s :
  tagsKeep NodeID3_write →
  sysExecute' trace (sysStart isTTY tracks fs) = Some s →
  (∀ i track, i ∈ success (downloadStatus (sys_run s)) → tracks !! i = Some track →
     is_Some (files (sys_disk s) !! filePathOf sanitizeFilename fullPath track))
  ∧ (∀ path, is_Some (files fs !! path) → is_Some (files (sys_disk s) !! path)).
Proof.
  intros Htagger. revert s.
  induction trace as [|[i sig] trace IH] using rev_ind; intros s.
  - intros [= <-]. split; [|done]. by intros i track ?%elem_of_nil.
  - rewrite sysExecute_snoc.
    destruct (sysExecute' trace (sysStart isTTY tracks fs)) as [s0|] eqn:E; [|done].
    simpl. intros Hstep. destruct (IH _ eq_refl) as [Hsucc Hkept].
    destruct (sysStep_cases _ _ _ _ Hstep) as (track & ph & Ht & Hcase).
    assert (Hgrow : ∀ path, is_Some (files (sys_disk s0) !! path) →
                      is_Some (files (sys_disk s) !! path)).
    { intros path Hpath.
      assert (sys_disk s = sys_disk s0
              ∨ ∃ ph reply cs,
                  callResume sanitizeFilename NodeID3_write track fullPath (Some i) ph reply
                    (sys_disk s0) = Some (cs, sys_disk s)) as [->|(? & ? & ? & Hcall)];
        [|done|].
      { destruct Hcase as [(reply & ph' & _ & _ & Hcall & _)|(w & _ & _ & Hsig)];
          [by eauto 10|].
        destruct sig as [| |reply]; [left; by destruct Hsig..|].
        destruct Hsig as (_ & cs & Hcall & _). by eauto 10. }
      apply callResume_disk in Hcall as [[-> _]|(tags & mp3 & _ & -> & _)]; [done|].
      apply Htagger. simpl.
      destruct (decide (filePathOf sanitizeFilename fullPath track = path)) as [<-|Hne].
      - rewrite lookup_insert_eq. by eexists.
      - by rewrite lookup_insert_ne. }
    split; [|by eauto].
    intros j trackj Hin Hj.
    destruct Hcase as [(reply & ph' & _ & _ & _ & Hsame & _)|(w & Hjob & _ & Hsig)].
    + rewrite Hsame in Hin. by eauto.
    + rewrite (step_success _ _ _ _ Hjob) in Hin.
      apply elem_of_app in Hin as [Hin|Hin]; [by eauto|].
      destruct w; try by apply elem_of_nil in Hin.
      apply list_elem_of_singleton in Hin as ->.
      assert (trackj = track) as -> by congruence.
      destruct sig as [| |reply]; [by destruct Hsig..|].
      destruct Hsig as (_ & cs & Hcall & Hw). destruct cs; try done.
      apply callResume_disk in Hcall as [[_ Hno]|(tags & mp3 & _ & -> & _)]; [done|].
      apply Htagger. simpl. rewrite lookup_insert_eq. by eexists.
Qed.

Lemma sum_list_fmap_insert {A} (f : A → nat) (l : list A) i x y :
  l !! i = Some x →
  sum_list (f <$> <[i:=y]> l) + f x = sum_list (f <$> l) + f y.
Proof.
  revert i. induction l as [|z l IH]; intros [|i] Hi; simplify_eq/=.
  - lia.
  - specialize (IH _ Hi). lia.
Qed.

Lemma callResume_awaits track saveTo index ph reply fs cs fs' :
  callResume sanitizeFilename NodeID3_write track saveTo index ph reply fs = Some (cs, fs') →
  0 < awaitsLeft ph
  ∧ ∀ ph', cs = Continue ph' → S (awaitsLeft ph') = awaitsLeft ph.
Proof.
  unfold callResume, rethrow. destruct ph, reply; try done; simpl.
  - destruct response as [m|data]; simpl; [naive_solver lia|].
    destruct (lb_success data), (lb_metadata data); naive_solver lia.
  - destruct response; simpl; naive_solver lia.
  - destruct response; simpl; naive_solver lia.
  - destruct error; [naive_solver lia|].
    destruct (NodeID3_write _ _ _) as [[] ?]; naive_solver lia.
Qed.

Lemma sysStep_potential trace fs i sig s s' :
  sysExecute' trace (sysStart isTTY tracks fs) = Some s →
  sysStep' i sig s = Some s' →
  sysPotential s' < sysPotential s.
Proof.
  intros ((schedule & Hrun & _) & Hcalls & Hphase)%sys_reachable Hstep.
  pose proof (Inv_execute _ _ _ Hrun) as HI.
  destruct (sysStep_cases _ _ _ _ Hstep) as (track & ph & Ht & Hcase).
  unfold sysPotential.
  destruct Hcase as [(reply & ph' & -> & Hph & Hcall & Hsame & Hnew)
                    |(w & Hjob & Hnew & Hsig)].
  - destruct (callResume_awaits _ _ _ _ _ _ _ _ Hcall) as [Hpos Hnext].
    specialize (Hnext _ eq_refl).
    assert (ph ≠ NoCall) as Hin by (intros ->; simpl in Hpos; lia).
    apply (Hphase _ _ Hph) in Hin as [a Ha].
    rewrite Hsame, Hnew.
    assert (zip (jobs (sys_run s)) (<[i:=ph']> (sys_calls s))
            = <[i := (AwaitDownload a, ph')]> (zip (jobs (sys_run s)) (sys_calls s))) as ->.
    { rewrite (insert_zip_with pair _ _ i (AwaitDownload a) ph').
      by rewrite (list_insert_id (jobs (sys_run s)) i (AwaitDownload a)). }
    assert (zip_with pair (jobs (sys_run s)) (sys_calls s) !! i
            = Some (AwaitDownload a, ph)) as Hz.
    { rewrite lookup_zip_with, Ha, Hph. done. }
    pose proof (sum_list_fmap_insert stepsLeft _ _ _ (AwaitDownload a, ph') Hz) as Hsum.
    simpl in Hsum. lia.
  - destruct (step_cases _ _ _ _ _ Hjob) as (js & Hjs & _ & Hcase).
    pose proof (inv_job _ _ _ HI _ _ Hjs) as Hinv.
    apply lookup_lt_Some in Hjs as Hlt. rewrite <- Hcalls in Hlt.
    destruct (lookup_lt_is_Some_2 _ _ Hlt) as [ph0 Hph0].
    assert (zip_with pair (jobs (sys_run s)) (sys_calls s) !! i = Some (js, ph0)) as Hz.
    { rewrite lookup_zip_with, Hjs, Hph0. done. }
    assert (Hcall : (∃ a, js = AwaitDownload a) → 0 < awaitsLeft ph0).
    { intros [a ->]. assert (ph0 ≠ NoCall) as Hne by (apply (Hphase _ _ Hph0); eauto).
      destruct ph0; simpl; try done; lia. }
    rewrite Hnew. clear Hnew Hjob Hsig Hstep.
    revert Hcase. generalize (sys_run s'). intros r' Hcase.
    destruct Hcase; simpl in *; rewrite ?finallyBlock_jobs; simpl;
      (rewrite list_lookup_insert_eq by (by eapply lookup_lt_Some)); simpl;
      rewrite <- (insert_zip_with pair);
      match goal with
      | |- context [<[_:=?y]> _] =>
          pose proof (sum_list_fmap_insert stepsLeft _ _ _ y Hz) as Hsum
      end; simpl in Hsum; unfold maxRetries in *;
      try (specialize (Hcall (ex_intro _ _ eq_refl))); lia.
Qed.

(** Property X23. The whole always ends: the jobs with their calls take
    at most [5 * maxRetries] steps for each track (a start, five calls of
    four awaits, four delays), and while a job has not settled some step
    is possible. *)
Theorem the_whole_always_ends trace fs s :
  sysExecute' trace (sysStart isTTY tracks fs) = Some s →
  length trace ≤ 5 * maxRetries * length tracks
  ∧ (complete (sys_run s) = false → ∃ i sig s', sysStep' i sig s = Some s').
Proof.
  intros Hs. split.
  - enough (length trace + sysPotential s ≤ 5 * maxRetries * length tracks) by lia.
    revert s Hs. induction trace as [|[i sig] trace IH] using rev_ind; intros s.
    + intros [= <-]. unfold sysPotential. simpl.
      rewrite zip_with_replicate, fmap_replicate, sum_list_replicate.
      cbn [stepsLeft length]. unfold maxRetries. lia.
    + rewrite sysExecute_snoc.
      destruct (sysExecute' trace (sysStart isTTY tracks fs)) as [s0|] eqn:E; [|done].
      simpl. intros Hstep. specialize (IH _ eq_refl).
      pose proof (sysStep_potential _ _ _ _ _ _ E Hstep).
      rewrite length_app. unfold maxRetries in *. simpl in *. lia.
  - intros Hnc.
    destruct (sys_reachable _ _ _ Hs) as ((schedule & Hrun & _) & Hcalls & Hphase).
    pose proof (Inv_execute _ _ _ Hrun) as HI.
    destruct (run_can_proceed _ _ _ HI Hnc) as (i & w & r' & Hstep).
    destruct (step_cases _ _ _ _ _ Hstep) as (js & Hjs & Hlt & Hcase).
    destruct (lookup_lt_is_Some_2 _ _ Hlt) as [track Ht].
    assert (Hreject : ∀ a, js = AwaitDownload a → ∃ sig s', sysStep' i sig s = Some s').
    { intros a ->.
      apply lookup_lt_Some in Hjs as Hlen. rewrite <- Hcalls in Hlen.
      destruct (lookup_lt_is_Some_2 _ _ Hlen) as [ph Hph].
      assert (ph ≠ NoCall) as Hne by (apply (Hphase _ _ Hph); eauto).
      destruct (step_download_rejected _ _ _ (Err "") _ _ Ht Hjs) as (r1 & Hr1 & _).
      exists (Reply match ph with
                    | AtLookup => LookupSettled (AxiosReject "")
                    | AtWrite _ _ _ => WriteSettled (Some "")
                    | _ => BinarySettled (AxiosReject "")
                    end).
      unfold sysStep, jobStep. rewrite Ht, Hph. simpl.
      destruct ph; try done; simpl; rewrite Hr1; simpl; eauto. }
    destruct Hcase; try (destruct (Hreject _ eq_refl) as (sig & s' & Hs'); by eauto).
    + exists i, Invoke. unfold sysStep, jobStep. rewrite Hstep. simpl. eauto.
    + exists i, TimerElapsed. unfold sysStep, jobStep. rewrite Hstep. simpl. eauto.
    + exists i, TimerElapsed. unfold sysStep, jobStep. rewrite Hstep. simpl. eauto.
Qed.

End CallMore.

Lemma demoTagger_keeps : tagsKeep demoTagger.
Proof.
  intros tags filePath fs path Hpath. simpl.
  destruct (decide (filePath = path)) as [->|Hne].
  - rewrite lookup_alter_eq. by apply fmap_is_Some.
  - by rewrite lookup_alter_ne.
Qed.

Example demoSys_state :
  success (downloadStatus (sys_run demoSys)) = [0]
  ∧ jobs (sys_run demoSys) = [Fulfilled; AwaitDelay 1]
  ∧ sys_calls demoSys = [NoCall; NoCall]
  ∧ dom (files (sys_disk demoSys)) = {["/music/Intro - Ann.mp3"]}.
Proof. split_and!; reflexivity. Qed.

Lemma calls_wake_the_jobs_as_in_a_run_witness :
  sysExecute (λ s, s) demoTagger demoTracks "/music" demoTrace
    (sysStart true demoTracks emptyDisk) = Some demoSys
  ∧ ∃ schedule,
      execute demoTracks schedule (startRun true demoTracks) = Some (sys_run demoSys)
      ∧ length schedule ≤ length demoTrace.
Proof.
  split; [reflexivity|].
  exact (proj1 (calls_wake_the_jobs_as_in_a_run (λ s, s) demoTagger true demoTracks "/music"
                  demoTrace emptyDisk demoSys eq_refl)).
Defined.

Lemma jobs_touch_only_their_files_witness :
  sysExecute (λ s, s) demoTagger demoTracks "/music" demoTrace
    (sysStart true demoTracks emptyDisk) = Some demoSys
  ∧ dirs (sys_disk demoSys) = dirs emptyDisk
  ∧ files (sys_disk demoSys) !! "/music/cover.jpg" = files emptyDisk !! "/music/cover.jpg".
Proof.
  split; [reflexivity|].
  destruct (jobs_touch_only_their_files (λ s, s) demoTagger true demoTracks "/music"
              demoTrace emptyDisk demoSys demoTagger_in_place eq_refl) as [Hdirs Hfiles].
  split; [exact Hdirs|]. apply Hfiles.
  intros track Hin. apply elem_of_cons in Hin as [->|Hin]; [by vm_compute|].
  apply elem_of_cons in Hin as [->|Hin]; [by vm_compute|]. by apply elem_of_nil in Hin.
Defined.

Lemma success_has_its_file_witness :
  sysExecute (λ s, s) demoTagger demoTracks "/music" demoTrace
    (sysStart true demoTracks emptyDisk) = Some demoSys
  ∧ 0 ∈ success (downloadStatus (sys_run demoSys))
  ∧ is_Some (files (sys_disk demoSys) !! "/music/Intro - Ann.mp3").
Proof.
  assert (Hin : 0 ∈ success (downloadStatus (sys_run demoSys))) by (by left).
  split; [reflexivity|]. split; [exact Hin|].
  exact (proj1 (success_has_its_file (λ s, s) demoTagger true demoTracks "/music" demoTrace
                  emptyDisk demoSys demoTagger_keeps eq_refl) 0 _ Hin eq_refl).
Defined.

Lemma the_whole_always_ends_witness :
  sysExecute (λ s, s) demoTagger demoTracks "/music" demoTrace
    (sysStart true demoTracks emptyDisk) = Some demoSys
  ∧ length demoTrace ≤ 5 * maxRetries * length demoTracks
  ∧ complete (sys_run demoSys) = false.
Proof.
  split; [reflexivity|]. split; [|reflexivity].
  exact (proj1 (the_whole_always_ends (λ s, s) demoTagger true demoTracks "/music" demoTrace
                  emptyDisk demoSys eq_refl)).
Defined.

(** A call that runs alone: the audio arrives, the cover does not. *)
Example runCall_alone :
  let fetch url :=
    if bool_decide (url = "https://i.scdn.co/image/c")
    then AxiosReject "socket hang up" else AxiosResolve [Byte.x00] in
  runCall (λ s, s) demoTagger (λ _, AxiosResolve demoLookup) fetch (λ _ _, None)
    4 demoTwin "/music" (Some 0) AtLookup emptyDisk
  = Some (Throw (Err "socket hang up"), emptyDisk).
Proof. reflexivity. Qed.
